(** * crossplane diff: render loop, composition matching, resource matching
      and diff normalisation

    A shallow embedding of the [cmd/crank/beta/diff] packages.  Cluster
    payloads are the untyped trees of [unstructured.Unstructured]; the
    injected collaborators (renderer, requirements provider, API server)
    are functions over an explicit world state, and every call to them is
    recorded in a call log. *)

From Stdlib Require Import ZArith Lia Ascii.
From stdpp Require Import gmap strings list fin_maps sorting.

Set Default Proof Using "Type".
Set Warnings "-register-all".

(** ** Part I: definitions *)

(** *** Untyped objects ([map[string]interface{}]) *)

Module K8s.

Inductive value :=
  | VNull
  | VBool (b : bool)
  | VNum (n : Z)
  | VStr (s : string)
  | VList (l : list value)
  | VMap (m : gmap string value).

Fixpoint value_eq_dec (a b : value) {struct a} : Decision (a = b).
Proof.
  refine (match a, b with
          | VNull, VNull => left eq_refl
          | VBool x, VBool y => cast_if (decide (x = y))
          | VNum x, VNum y => cast_if (decide (x = y))
          | VStr x, VStr y => cast_if (decide (x = y))
          | VList x, VList y => cast_if (@list_eq_dec _ value_eq_dec x y)
          | VMap x, VMap y => cast_if (@gmap_eq_dec _ _ _ _ value_eq_dec x y)
          | _, _ => right _
          end); congruence.
Defined.

#[global] Instance value_eqdec : EqDecision value := value_eq_dec.

(** [unstructured.Unstructured]: the [Object] field. *)
Abbreviation Unstructured := (gmap string value).

(** [unstructured.NestedString(obj, f)]: the empty string unless the field
    is present and is a string. *)
Definition fieldString (obj : Unstructured) (f : string) : string :=
  match obj !! f with
  | Some (VStr s) => s
  | _ => EmptyString
  end.

(** [unstructured.NestedMap(obj, f)]: found only when the field is a map. *)
Definition NestedMap (obj : Unstructured) (f : string) : option Unstructured :=
  match obj !! f with
  | Some (VMap m) => Some m
  | _ => None
  end.

(** [unstructured.SetNestedMap(obj, m, f)] for a single path element. *)
Definition SetNestedMap (obj : Unstructured) (m : Unstructured) (f : string)
  : Unstructured :=
  <[f := VMap m]> obj.

(** [unstructured.NestedFieldNoCopy(obj, path...)]. *)
Fixpoint NestedField (obj : Unstructured) (path : list string) : option value :=
  match path with
  | [] => Some (VMap obj)
  | f :: rest =>
      match rest with
      | [] => obj !! f
      | _ => match NestedMap obj f with
             | Some m => NestedField m rest
             | None => None
             end
      end
  end.

(** [unstructured.NestedString(obj, path...)], with its [found] flag. *)
Definition NestedString (obj : Unstructured) (path : list string) : option string :=
  match NestedField obj path with
  | Some (VStr s) => Some s
  | _ => None
  end.

Definition metadataString (obj : Unstructured) (f : string) : string :=
  match NestedMap obj "metadata" with
  | Some md => fieldString md f
  | None => EmptyString
  end.

Definition GetAPIVersion (obj : Unstructured) : string := fieldString obj "apiVersion".
Definition GetKind (obj : Unstructured) : string := fieldString obj "kind".
Definition GetName (obj : Unstructured) : string := metadataString obj "name".
Definition GetNamespace (obj : Unstructured) : string := metadataString obj "namespace".
Definition GetGenerateName (obj : Unstructured) : string := metadataString obj "generateName".
Definition GetUID (obj : Unstructured) : string := metadataString obj "uid".

(** [SetNestedField(obj, v, "metadata", f)] with the error dropped, as the
    setters of [Unstructured] do: [metadata] is created when absent, and
    nothing is written when it is present but not a map. *)
Definition setMetadataField (obj : Unstructured) (f : string) (v : value)
  : Unstructured :=
  match obj !! "metadata" with
  | None => <["metadata" := VMap (<[f := v]> ∅)]> obj
  | Some (VMap md) => <["metadata" := VMap (<[f := v]> md)]> obj
  | Some _ => obj
  end.

Definition SetName (obj : Unstructured) (n : string) : Unstructured :=
  setMetadataField obj "name" (VStr n).

(** A string-to-string map stored under [metadata.<f>] (labels,
    annotations); non-string entries are dropped as by
    [NestedStringMap]'s callers. *)
Definition stringEntry (v : value) : option string :=
  match v with
  | VStr s => Some s
  | _ => None
  end.

Definition metadataStringMap (obj : Unstructured) (f : string) : gmap string string :=
  match NestedMap obj "metadata" with
  | Some md =>
      match NestedMap md f with
      | Some m => omap stringEntry m
      | None => ∅
      end
  | None => ∅
  end.

Definition GetLabels (obj : Unstructured) : gmap string string :=
  metadataStringMap obj "labels".
Definition GetAnnotations (obj : Unstructured) : gmap string string :=
  metadataStringMap obj "annotations".

(** Builder used by the tests: [tu.NewResource(apiVersion, kind, name)]. *)
Definition NewResource (apiVersion kind name : string) : Unstructured :=
  <["apiVersion" := VStr apiVersion]>
    (<["kind" := VStr kind]>
       (<["metadata" := VMap (<["name" := VStr name]> ∅)]> ∅)).

Definition WithNamespace (ns : string) (obj : Unstructured) : Unstructured :=
  setMetadataField obj "namespace" (VStr ns).

End K8s.

(** *** Go errors *)

Module Errors.

(** [errors.New] / [errors.Errorf] and [errors.Wrap]. *)
Inductive error :=
  | New (msg : string)
  | Wrap (cause : error) (msg : string).

Fixpoint Error (e : error) : string :=
  match e with
  | New msg => msg
  | Wrap cause msg => msg +:+ ": " +:+ Error cause
  end.

#[global] Instance error_eqdec : EqDecision error.
Proof. solve_decision. Defined.

End Errors.

(** *** Typed API objects used by the processor *)

Module Api.
Import K8s.

(** [apiextensionsv1.TypeReference]. *)
Record TypeReference := {
  ref_apiVersion : string;
  ref_kind : string;
}.

(** [apiextensionsv1.PipelineStep] (the opaque [input] is not read by the
    code under study). *)
Record PipelineStep := {
  Step : string;
  FunctionRef : string;
}.

Definition CompositionModePipeline : string := "Pipeline".

(** [apiextensionsv1.Composition].  [Mode] is a pointer in the Go type:
    [None] is the nil pointer. *)
Record Composition := {
  comp_name : string;
  comp_labels : gmap string string;
  CompositeTypeRef : TypeReference;
  Mode : option string;
  Pipeline : list PipelineStep;
}.

(** [pkgv1.Function]: only the name matters. *)
Record Function := {
  fn_name : string;
}.

(** A renderer-emitted requirement: [{apiVersion, kind, (name |
    matchLabels), namespace?}]. *)
Record Requirement := {
  req_apiVersion : string;
  req_kind : string;
  req_name : string;
  req_matchLabels : gmap string string;
  req_namespace : string;
}.

(** [render.Inputs]. *)
Record Inputs := {
  CompositeResource : Unstructured;
  Composition_ : Composition;
  Functions : list Function;
  ExtraResources : list Unstructured;
}.

(** [render.Outputs].  [Requirements] may be nil ([None]), which the loop
    tells apart from an empty, non-nil collection by reflection. *)
Record Outputs := {
  out_CompositeResource : Unstructured;
  ComposedResources : list Unstructured;
  Requirements : option (list Requirement);
}.

(** [render.Outputs{}]. *)
Definition emptyOutputs : Outputs :=
  {| out_CompositeResource := ∅; ComposedResources := []; Requirements := None |}.

#[global] Instance TypeReference_eqdec : EqDecision TypeReference.
Proof. solve_decision. Defined.
#[global] Instance PipelineStep_eqdec : EqDecision PipelineStep.
Proof. solve_decision. Defined.
#[global] Instance Function_eqdec : EqDecision Function.
Proof. solve_decision. Defined.

End Api.

(** *** The render loop ([DefaultDiffProcessor.RenderWithRequirements]) *)

Module Render.
Import K8s Errors Api.

(** What the injected collaborators were asked, and what they answered. *)
Inductive Call :=
  | CallRender (i : Inputs) (o : Outputs) (err : option error)
  | CallProvide (reqs : list Requirement) (res : list Unstructured + error).

(** Loop exits, one per [return] / [break] site of the [for] statement, and
    the failed loop condition. *)
Inductive LoopExit :=
  | ExitRenderFailed (renderErr : error)
  | ExitNoRequirements
  | ExitProvideFailed (err : error)
  | ExitNoResources
  | ExitNoNewResources
  | ExitMaxIterations.

(** The local variables of [RenderWithRequirements]. *)
Record LoopState := {
  renderResources : list Unstructured;
  discoveredResources : list Unstructured;
  discoveredResourcesMap : gmap string bool;
  lastOutput : Outputs;
  lastRenderErr : option error;
  iteration : nat;
}.

Definition maxIterations : nat := 10.

Definition initialState : LoopState :=
  {| renderResources := [];
     discoveredResources := [];
     discoveredResourcesMap := ∅;
     lastOutput := emptyOutputs;
     lastRenderErr := None;
     iteration := 0 |}.

(** [fmt.Sprintf("%s/%s", res.GetAPIVersion(), res.GetName())]. *)
Definition seenKey (res : Unstructured) : string :=
  GetAPIVersion res +:+ "/" +:+ GetName res.

(** [discoveredResourcesMap[resourceKey]]: a missing key reads [false]. *)
Definition isDiscovered (m : gmap string bool) (k : string) : bool :=
  default false (m !! k).

(** The inner [for _, res := range additionalResources] loop; the boolean
    is [newResourcesFound]. *)
Fixpoint addDiscovered (additionalResources : list Unstructured)
  (st : LoopState) (newResourcesFound : bool) : LoopState * bool :=
  match additionalResources with
  | [] => (st, newResourcesFound)
  | res :: rest =>
      let resourceKey := seenKey res in
      if negb (isDiscovered (discoveredResourcesMap st) resourceKey)
      then addDiscovered rest
             {| renderResources := renderResources st ++ [res];
                discoveredResources := discoveredResources st ++ [res];
                discoveredResourcesMap :=
                  <[resourceKey := true]> (discoveredResourcesMap st);
                lastOutput := lastOutput st;
                lastRenderErr := lastRenderErr st;
                iteration := iteration st |}
             true
      else addDiscovered rest st newResourcesFound
  end.

(** [len(output.Requirements)]. *)
Definition requirementCount (o : Outputs) : nat :=
  match Requirements o with
  | Some reqs => length reqs
  | None => 0
  end.

(** The reflection test: the [Requirements] field is valid and not nil. *)
Definition hasRequirements (o : Outputs) : bool :=
  match Requirements o with
  | Some _ => true
  | None => false
  end.

Section WithCollaborators.

(** State of the world the collaborators live in. *)
Context {W : Type}.

(** [p.config.RenderFunc]: returns an output and an error, both of which
    the loop looks at. *)
Variable RenderFunc : Inputs -> W -> (Outputs * option error) * W.

(** [p.requirementsProvider.ProvideRequirements]. *)
Variable ProvideRequirements :
  list Requirement -> W -> (list Unstructured + error) * W.

(** The world together with the call log. *)
Record Env := {
  world : W;
  calls : list Call;
}.

Definition Eff (A : Type) : Type := Env -> A * Env.

Definition ret {A} (a : A) : Eff A := fun e => (a, e).

Definition bind {A B} (m : Eff A) (k : A -> Eff B) : Eff B :=
  fun e => let '(a, e') := m e in k a e'.

Definition callRender (i : Inputs) : Eff (Outputs * option error) :=
  fun e =>
    let '((o, err), w') := RenderFunc i (world e) in
    ((o, err), {| world := w'; calls := calls e ++ [CallRender i o err] |}).

Definition callProvide (reqs : list Requirement)
  : Eff (list Unstructured + error) :=
  fun e =>
    let '(r, w') := ProvideRequirements reqs (world e) in
    (r, {| world := w'; calls := calls e ++ [CallProvide reqs r] |}).

Variable xr : Unstructured.
Variable comp : Composition.
Variable fns : list Function.

(** The end of the loop body, once the provider has answered: [inl]
    leaves the loop, [inr] goes round again. *)
Definition afterProvide (st : LoopState) (r : list Unstructured + error)
  : (LoopExit * LoopState) + LoopState :=
  match r with
  | inr err => inl (ExitProvideFailed err, st)
  | inl additionalResources =>
      if Nat.eqb (length additionalResources) 0
      then inl (ExitNoResources, st)
      else
        let '(st', newResourcesFound) :=
          addDiscovered additionalResources st false in
        if negb newResourcesFound
        then inl (ExitNoNewResources, st')
        else inr st'
  end.

(** The loop body after the render call. *)
Definition afterRender (st : LoopState) (output : Outputs)
  (renderErr : option error) : Eff ((LoopExit * LoopState) + LoopState) :=
  match renderErr, hasRequirements output with
  | Some err, false => ret (inl (ExitRenderFailed err, st))
  | _, _ =>
      if Nat.eqb (requirementCount output) 0
      then ret (inl (ExitNoRequirements, st))
      else bind (callProvide (default [] (Requirements output)))
                (fun r => ret (afterProvide st r))
  end.

(** One pass through the body of the [for] statement, after the loop
    condition held. *)
Definition renderIteration (st0 : LoopState)
  : Eff ((LoopExit * LoopState) + LoopState) :=
  bind (callRender {| CompositeResource := xr;
                      Composition_ := comp;
                      Functions := fns;
                      ExtraResources := renderResources st0 |})
    (fun '(output, renderErr) =>
       afterRender {| renderResources := renderResources st0;
                      discoveredResources := discoveredResources st0;
                      discoveredResourcesMap := discoveredResourcesMap st0;
                      lastOutput := output;
                      lastRenderErr := renderErr;
                      iteration := S (iteration st0) |}
                   output renderErr).

(** [for iteration < maxIterations { iteration++; ... }], by recursion on
    the number of iterations still allowed. *)
Fixpoint renderLoop (remaining : nat) (st : LoopState)
  : Eff (LoopExit * LoopState) :=
  match remaining with
  | 0 => ret (ExitMaxIterations, st)
  | S remaining' =>
      bind (renderIteration st)
        (fun r =>
           match r with
           | inl stop => ret stop
           | inr st' => renderLoop remaining' st'
           end)
  end.

(** What [RenderWithRequirements] returns for each way out of the loop. *)
Definition loopResult (r : LoopExit * LoopState) : Outputs * option error :=
  match fst r with
  | ExitRenderFailed renderErr =>
      (emptyOutputs, Some (Wrap renderErr "cannot render resources"))
  | ExitProvideFailed err =>
      (emptyOutputs, Some (Wrap err "failed to process requirements"))
  | _ => (lastOutput (snd r), lastRenderErr (snd r))
  end.

(** [comp.Spec.Mode == nil || *comp.Spec.Mode != CompositionModePipeline]. *)
Definition notPipeline (c : Composition) : bool :=
  match Mode c with
  | None => true
  | Some m => negb (bool_decide (m = CompositionModePipeline))
  end.

Definition RenderWithRequirements : Eff (Outputs * option error) :=
  if notPipeline comp
  then callRender {| CompositeResource := xr;
                     Composition_ := comp;
                     Functions := fns;
                     ExtraResources := [] |}
  else bind (renderLoop (maxIterations - iteration initialState) initialState)
            (fun r => ret (loopResult r)).

End WithCollaborators.

Arguments Env W : clear implicits.
Arguments Eff W A : clear implicits.

(** The extra resources handed to the renderer, call by call. *)
Definition renderedExtras (log : list Call) : list (list Unstructured) :=
  omap (fun c => match c with
                 | CallRender i _ _ => Some (ExtraResources i)
                 | CallProvide _ _ => None
                 end) log.

(** The requirement sets handed to the provider, call by call. *)
Definition providedRequests (log : list Call) : list (list Requirement) :=
  omap (fun c => match c with
                 | CallProvide reqs _ => Some reqs
                 | CallRender _ _ _ => None
                 end) log.

(** The seen-set invariant: the extra resources have pairwise distinct
    keys, all of them recorded in the map. *)
Definition seenInvariant (st : LoopState) : Prop :=
  NoDup (seenKey <$> renderResources st) /\
  forall r, r ∈ renderResources st ->
            isDiscovered (discoveredResourcesMap st) (seenKey r) = true.

(** What is known about the last render output at each way out of the
    loop body. *)
Definition exitFacts (exit : LoopExit) (st : LoopState) : Prop :=
  match exit with
  | ExitRenderFailed err =>
      lastRenderErr st = Some err /\ Requirements (lastOutput st) = None
  | ExitNoRequirements => requirementCount (lastOutput st) = 0
  | ExitProvideFailed _ | ExitNoResources | ExitNoNewResources =>
      requirementCount (lastOutput st) <> 0
  | ExitMaxIterations => False
  end.

Definition resolutionExit (exit : LoopExit) : Prop :=
  match exit with
  | ExitProvideFailed _ | ExitNoResources | ExitNoNewResources => True
  | _ => False
  end.

(** The converse of the seen-set invariant: every recorded key is the key
    of one of the extra resources. *)
Definition seenComplete (st : LoopState) : Prop :=
  forall k, isDiscovered (discoveredResourcesMap st) k = true ->
            exists y, y ∈ renderResources st /\ seenKey y = k.

(** What the call log shows of the last iteration, for each way out of the
    loop: the render call with the output and error the loop ends with
    and, where the provider was asked, its answer.  At the iteration cap
    the last iteration is one that went on to the loop condition. *)
Definition lastIteration (exit : LoopExit) (st : LoopState) (last : list Call)
  : Prop :=
  exists i,
    let output := lastOutput st in
    let render := CallRender i output (lastRenderErr st) in
    match exit with
    | ExitRenderFailed err =>
        last = [render] /\ lastRenderErr st = Some err /\
        Requirements output = None
    | ExitNoRequirements =>
        last = [render] /\ requirementCount output = 0
    | ExitProvideFailed err =>
        exists reqs,
          Requirements output = Some reqs /\ reqs <> [] /\
          last = [render; CallProvide reqs (inr err)]
    | ExitNoResources =>
        exists reqs,
          Requirements output = Some reqs /\ reqs <> [] /\
          last = [render; CallProvide reqs (inl [])]
    | ExitNoNewResources =>
        exists reqs answer,
          Requirements output = Some reqs /\ reqs <> [] /\
          last = [render; CallProvide reqs (inl answer)] /\
          answer <> [] /\
          forall x, x ∈ answer ->
                    exists y, y ∈ ExtraResources i /\ seenKey y = seenKey x
    | ExitMaxIterations =>
        exists reqs answer x,
          Requirements output = Some reqs /\ reqs <> [] /\
          last = [render; CallProvide reqs (inl answer)] /\
          x ∈ answer /\
          forall y, y ∈ ExtraResources i -> seenKey y <> seenKey x
    end.

End Render.

(** *** The cluster client ([clusterclient.DefaultClusterClient]) *)

Module ClusterClient.
Import K8s Errors Api.

(** [schema.GroupVersionKind]. *)
Record GroupVersionKind := {
  Group : string;
  Version : string;
  Kind : string;
}.

#[global] Instance GroupVersionKind_eqdec : EqDecision GroupVersionKind.
Proof. solve_decision. Defined.

(** Cuts a string at its first slash. *)
Fixpoint cutSlash (s : string) : option (string * string) :=
  match s with
  | EmptyString => None
  | String c rest =>
      if Ascii.eqb c "/"%char
      then Some (EmptyString, rest)
      else match cutSlash rest with
           | Some (a, b) => Some (String c a, b)
           | None => None
           end
  end.

(** [schema.ParseGroupVersion]: no slash is a bare version, one slash
    separates group and version, more is an error. *)
Definition ParseGroupVersion (gv : string) : option (string * string) :=
  match cutSlash gv with
  | None => Some (EmptyString, gv)
  | Some (g, v) =>
      match cutSlash v with
      | None => Some (g, v)
      | Some _ => None
      end
  end.

(** [schema.FromAPIVersionAndKind]: an unparsable API version leaves group
    and version empty. *)
Definition FromAPIVersionAndKind (apiVersion kind : string) : GroupVersionKind :=
  match ParseGroupVersion apiVersion with
  | Some (g, v) => {| Group := g; Version := v; Kind := kind |}
  | None => {| Group := EmptyString; Version := EmptyString; Kind := kind |}
  end.

Definition GroupVersionKindOf (obj : Unstructured) : GroupVersionKind :=
  FromAPIVersionAndKind (GetAPIVersion obj) (GetKind obj).

(** [GroupVersionKind.String]. *)
Definition gvkString (gvk : GroupVersionKind) : string :=
  Group gvk +:+ "/" +:+ Version gvk +:+ ", Kind=" +:+ Kind gvk.

(** How Go prints a [map[string]string] with [%v]: keys in sorted order. *)
Definition keyLe (a b : string * string) : Prop := String.leb a.1 b.1 = true.

#[global] Instance keyLe_dec : RelDecision keyLe.
Proof. intros a b. unfold keyLe. apply _. Defined.

Definition showLabels (m : gmap string string) : string :=
  "map[" +:+
  String.concat " "
    ((fun kv : string * string => kv.1 +:+ ":" +:+ kv.2)
       <$> merge_sort keyLe (map_to_list m))
  +:+ "]".

Definition dquote : string := String (Ascii.ascii_of_nat 34) EmptyString.

(** The caches of [DefaultClusterClient]. *)
Record Caches := {
  compositions : gmap string Composition;
  functions : gmap string Function;
  xrds : list Unstructured;
  xrdsLoaded : bool;
}.

(** Modelled from the spec: [FindMatchingComposition] and its helpers are
    not among the sources (only their test table is); what follows is
    section 4.3, with the error texts of the test table.

    Compatibility of a composition with a type: group, version and kind
    of its [compositeTypeRef] are compared exactly. *)
Definition isCompatible (c : Composition) (gvk : GroupVersionKind) : bool :=
  bool_decide
    (FromAPIVersionAndKind (ref_apiVersion (CompositeTypeRef c))
                           (ref_kind (CompositeTypeRef c)) = gvk).

(** Modelled from the spec: the missing claim lookup.  An XRD declares
    the kind as a claim kind when its [spec.claimNames.kind] is that kind
    and its [spec.group] is the resource's group. *)
Definition declaresClaim (gvk : GroupVersionKind) (xrd : Unstructured) : bool :=
  bool_decide (NestedString xrd ["spec"; "group"] = Some (Group gvk)) &&
  bool_decide (NestedString xrd ["spec"; "claimNames"; "kind"] = Some (Kind gvk)).

(** Modelled from the spec: the missing scan of the cached XRDs for one
    that declares the claim kind. *)
Definition findXRDForClaim (xs : list Unstructured) (gvk : GroupVersionKind)
  : option Unstructured :=
  List.find (declaresClaim gvk) xs.

(** One entry of [spec.versions]. *)
Definition versionName (v : value) : option string :=
  match v with
  | VMap m => match m !! "name" with
              | Some (VStr n) => Some n
              | _ => None
              end
  | _ => None
  end.

Definition isReferenceable (v : value) : bool :=
  match v with
  | VMap m => bool_decide (m !! "referenceable" = Some (VBool true))
  | _ => false
  end.

Definition xrdVersions (xrd : Unstructured) : list value :=
  match NestedField xrd ["spec"; "versions"] with
  | Some (VList vs) => vs
  | _ => []
  end.

(** Modelled from the spec: the version flagged [referenceable: true]. *)
Definition referenceableVersion (xrd : Unstructured) : option string :=
  match List.find isReferenceable (xrdVersions xrd) with
  | Some v => versionName v
  | None => None
  end.

(** Modelled from the spec: the effective type used for compatibility,
    [{group, referenceable-version, xrdSpec.names.kind}] for a claim, the
    resource's own type otherwise. *)
Definition effectiveGVK (xs : list Unstructured) (res : Unstructured)
  : GroupVersionKind + error :=
  let xrGVK := GroupVersionKindOf res in
  match findXRDForClaim xs xrGVK with
  | None => inl xrGVK
  | Some xrd =>
      match referenceableVersion xrd with
      | None => inr (New "no referenceable version found in XRD")
      | Some v =>
          inl {| Group := default EmptyString (NestedString xrd ["spec"; "group"]);
                 Version := v;
                 Kind := default EmptyString
                           (NestedString xrd ["spec"; "names"; "kind"]) |}
      end
  end.

(** [<gvk>/<obj>] in the messages. *)
Definition resourceID (res : Unstructured) : string :=
  gvkString (GroupVersionKindOf res) +:+ "/" +:+ GetName res.

(** The cached compositions a predicate selects. *)
Definition selectCompositions (P : Composition -> bool)
  (cs : gmap string Composition) : list Composition :=
  List.filter P (snd <$> map_to_list cs).

(** Modelled from the spec: the failures of the missing
    [FindMatchingComposition], with the texts of section 4.3. *)
Definition errRefNotFound (name : string) (res : Unstructured) : error :=
  New ("composition " +:+ name +:+ " referenced in " +:+ resourceID res
       +:+ " not found").
Definition errIncompatible (name : string) (gvk : GroupVersionKind) : error :=
  New ("composition " +:+ name +:+ " is not compatible with " +:+ gvkString gvk).
Definition errNoLabeled (sel : gmap string string) (res : Unstructured) : error :=
  New ("no compatible composition found matching labels " +:+ showLabels sel
       +:+ " for " +:+ resourceID res).
Definition errAmbiguousLabeled : error :=
  New "ambiguous composition selection: multiple compositions match".
Definition errNoneFound (gvk : GroupVersionKind) : error :=
  New ("no composition found for " +:+ gvkString gvk).
Definition errAmbiguousDefault (gvk : GroupVersionKind) : error :=
  New ("ambiguous composition selection: multiple compositions exist for "
       +:+ gvkString gvk).
Definition errNoReferenceable : error :=
  New "no referenceable version found in XRD".


(** [spec.compositionSelector.matchLabels], when set. *)
Definition matchLabelsOf (res : Unstructured) : option (gmap string string) :=
  match NestedField res ["spec"; "compositionSelector"; "matchLabels"] with
  | Some (VMap m) => Some (omap stringEntry m)
  | _ => None
  end.

(** [spec.compositionRef.name], when set. *)
Definition compositionRefOf (res : Unstructured) : option string :=
  match NestedString res ["spec"; "compositionRef"; "name"] with
  | Some EmptyString => None
  | r => r
  end.

(** Modelled from the spec: rule 1, direct reference. *)
Definition findByDirectReference (cs : gmap string Composition)
  (res : Unstructured) (target : GroupVersionKind) (name : string)
  : Composition + error :=
  match cs !! name with
  | None => inr (errRefNotFound name res)
  | Some c =>
      if isCompatible c target then inl c
      else inr (errIncompatible name target)
  end.

(** Modelled from the spec: rule 2, label selector. *)
Definition findByLabelSelector (cs : gmap string Composition)
  (res : Unstructured) (target : GroupVersionKind) (sel : gmap string string)
  : Composition + error :=
  match selectCompositions
          (fun c => bool_decide (sel ⊆ comp_labels c) && isCompatible c target) cs
  with
  | [] => inr (errNoLabeled sel res)
  | [c] => inl c
  | _ => inr errAmbiguousLabeled
  end.

(** Modelled from the spec: rule 3, the unique default. *)
Definition findByTypeReference (cs : gmap string Composition)
  (target : GroupVersionKind) : Composition + error :=
  match selectCompositions (fun c => isCompatible c target) cs with
  | [] => inr (errNoneFound target)
  | [c] => inl c
  | _ => inr (errAmbiguousDefault target)
  end.

(** Modelled from the spec: [FindMatchingComposition], the rules in order
    after the claim resolution. *)
Definition FindMatchingComposition (c : Caches) (res : Unstructured)
  : Composition + error :=
  match effectiveGVK (xrds c) res with
  | inr err => inr err
  | inl target =>
      match compositionRefOf res with
      | Some name => findByDirectReference (compositions c) res target name
      | None =>
          match matchLabelsOf res with
          | Some sel => findByLabelSelector (compositions c) res target sel
          | None => findByTypeReference (compositions c) target
          end
      end
  end.

(** Modelled from the spec: [GetFunctionsFromPipeline] is not among the
    sources; section 7 and the test table give its errors.  Only
    [Pipeline] mode is supported, and every step's function must be
    cached. *)
Fixpoint lookupFunctions (fs : gmap string Function) (steps : list PipelineStep)
  : list Function + error :=
  match steps with
  | [] => inl []
  | step :: rest =>
      match fs !! FunctionRef step with
      | None =>
          inr (New ("function " +:+ dquote +:+ FunctionRef step +:+ dquote
                    +:+ " referenced in pipeline step " +:+ dquote
                    +:+ Step step +:+ dquote +:+ " not found"))
      | Some fn =>
          match lookupFunctions fs rest with
          | inl fns => inl (fn :: fns)
          | inr err => inr err
          end
      end
  end.

(** Modelled from the spec: the missing [GetFunctionsFromPipeline], with
    the two mode errors of section 7. *)
Definition GetFunctionsFromPipeline (c : Caches) (comp : Composition)
  : list Function + error :=
  match Mode comp with
  | None => inr (New "Unsupported Composition; no Mode found.")
  | Some m =>
      if bool_decide (m = CompositionModePipeline)
      then lookupFunctions (functions c) (Pipeline comp)
      else inr (New ("Unsupported composition Mode '" +:+ m
                     +:+ "'; supported types are [Pipeline]"))
  end.

(** Modelled from the spec: [GetXRDs] is not among the sources.  It is
    memoised behind the [xrdsLoaded] flag, which is set on every
    successful list, empty or not. *)
Section XRDCache.

Context {W : Type}.

(** The dynamic client's list call on [compositeresourcedefinitions]. *)
Variable listXRDs : W -> (list Unstructured + error) * W.

(** The API server's state and the answers the list call has given. *)
Record Api := {
  server : W;
  listCalls : list (list Unstructured + error);
}.

(** Modelled from the spec: the missing [GetXRDs]; a cached list is
    returned without a list call, a successful list call fills the cache
    and sets the flag, a failed one is wrapped and leaves the cache as it
    was. *)
Definition GetXRDs (c : Caches) (a : Api)
  : (list Unstructured + error) * Caches * Api :=
  if xrdsLoaded c
  then (inl (xrds c), c, a)
  else
    let '(r, w') := listXRDs (server a) in
    let a' := {| server := w'; listCalls := listCalls a ++ [r] |} in
    match r with
    | inl l =>
        (inl l,
         {| compositions := compositions c;
            functions := functions c;
            xrds := l;
            xrdsLoaded := true |},
         a')
    | inr err => (inr (Wrap err "cannot list XRDs"), c, a')
    end.

(** [n] calls in a row, with what each returned. *)
Fixpoint GetXRDsTimes (n : nat) (c : Caches) (a : Api)
  : list (list Unstructured + error) * Caches * Api :=
  match n with
  | 0 => ([], c, a)
  | S n' =>
      let '(r, c', a') := GetXRDs c a in
      let '(rs, c'', a'') := GetXRDsTimes n' c' a' in
      (r :: rs, c'', a'')
  end.

End XRDCache.

Arguments Api W : clear implicits.

(** The successful answers among the list calls. *)
Definition successfulLists (l : list (list Unstructured + error))
  : list (list Unstructured) :=
  omap (fun r => match r with inl x => Some x | inr _ => None end) l.


End ClusterClient.

(** *** The resource manager ([DefaultResourceManager]) *)

Module ResourceManager.
Import K8s Errors Api ClusterClient.

(** [metav1.OwnerReference]. *)
Record OwnerReference := {
  or_apiVersion : string;
  or_kind : string;
  or_name : string;
  or_uid : string;
  or_controller : option bool;
  or_blockOwnerDeletion : option bool;
}.

#[global] Instance OwnerReference_eqdec : EqDecision OwnerReference.
Proof. solve_decision. Defined.

Definition fieldBool (m : Unstructured) (f : string) : option bool :=
  match m !! f with
  | Some (VBool b) => Some b
  | _ => None
  end.

(** [extractOwnerReference]. *)
Definition extractOwnerReference (m : Unstructured) : OwnerReference :=
  {| or_apiVersion := fieldString m "apiVersion";
     or_kind := fieldString m "kind";
     or_name := fieldString m "name";
     or_uid := fieldString m "uid";
     or_controller := fieldBool m "controller";
     or_blockOwnerDeletion := fieldBool m "blockOwnerDeletion" |}.

Definition setOptionalBool (f : string) (b : option bool) (m : Unstructured)
  : Unstructured :=
  match b with
  | Some x => <[f := VBool x]> m
  | None => m
  end.

(** The unstructured form of an owner reference: the two pointer fields
    are omitted when nil. *)
Definition ownerReferenceValue (r : OwnerReference) : value :=
  VMap (setOptionalBool "controller" (or_controller r)
          (setOptionalBool "blockOwnerDeletion" (or_blockOwnerDeletion r)
             (<["apiVersion" := VStr (or_apiVersion r)]>
                (<["kind" := VStr (or_kind r)]>
                   (<["name" := VStr (or_name r)]>
                      (<["uid" := VStr (or_uid r)]> ∅)))))).

(** [GetOwnerReferences]: list entries that are not maps are skipped. *)
Definition GetOwnerReferences (obj : Unstructured) : list OwnerReference :=
  match NestedField obj ["metadata"; "ownerReferences"] with
  | Some (VList l) =>
      omap (fun v => match v with
                     | VMap m => Some (extractOwnerReference m)
                     | _ => None
                     end) l
  | _ => []
  end.

(** [SetOwnerReferences] with a non-nil slice. *)
Definition SetOwnerReferences (obj : Unstructured) (refs : list OwnerReference)
  : Unstructured :=
  setMetadataField obj "ownerReferences" (VList (ownerReferenceValue <$> refs)).

Definition withUID (r : OwnerReference) (uid : string) : OwnerReference :=
  {| or_apiVersion := or_apiVersion r;
     or_kind := or_kind r;
     or_name := or_name r;
     or_uid := uid;
     or_controller := or_controller r;
     or_blockOwnerDeletion := or_blockOwnerDeletion r |}.

(** The reference names the parent: [{apiVersion, kind, name}] agree. *)
Definition refersTo (parent : Unstructured) (r : OwnerReference) : bool :=
  bool_decide (or_apiVersion r = GetAPIVersion parent) &&
  bool_decide (or_kind r = GetKind parent) &&
  bool_decide (or_name r = GetName parent).

Section OwnerRefs.

Context {W : Type}.

(** [uuid.NewUUID]. *)
Variable NewUUID : W -> string * W.

(** The generator's state and the UIDs it has handed out. *)
Record Uuids := {
  source : W;
  generated : list string;
}.

(** Modelled from the spec: [UpdateOwnerRefs] is not among the sources
    (its test table is).  A reference with an empty UID gets the parent's
    UID when it names the parent and a generated UID otherwise; a
    reference with a UID is kept. *)
Definition updateOwnerRef (parent : Unstructured) (r : OwnerReference) (u : Uuids)
  : OwnerReference * Uuids :=
  if bool_decide (or_uid r = EmptyString)
  then
    if refersTo parent r
    then (withUID r (GetUID parent), u)
    else
      let '(uid, w') := NewUUID (source u) in
      (withUID r uid, {| source := w'; generated := generated u ++ [uid] |})
  else (r, u).

(** Modelled from the spec: the references are rewritten in order. *)
Fixpoint updateOwnerRefList (parent : Unstructured) (refs : list OwnerReference)
  (u : Uuids) : list OwnerReference * Uuids :=
  match refs with
  | [] => ([], u)
  | r :: rest =>
      let '(r', u') := updateOwnerRef parent r u in
      let '(rest', u'') := updateOwnerRefList parent rest u' in
      (r' :: rest', u'')
  end.

(** Modelled from the spec: a nil parent leaves the child alone (test
    case NilParent_NoChange). *)
Definition UpdateOwnerRefs (parent : option Unstructured) (child : Unstructured)
  (u : Uuids) : Unstructured * Uuids :=
  match parent with
  | None => (child, u)
  | Some p =>
      let '(refs, u') := updateOwnerRefList p (GetOwnerReferences child) u in
      (SetOwnerReferences child refs, u')
  end.

End OwnerRefs.

Arguments Uuids W : clear implicits.

(** What a direct get can fail with: [apierrors.IsNotFound] or not. *)
Inductive GetError :=
  | NotFound
  | OtherError (err : error).

Definition ownerLabel : string := "crossplane.io/composite".
Definition slotAnnotation : string := "crossplane.io/composition-resource-name".

(** Modelled from the spec: a candidate fills the desired object's slot
    when both carry the same [composition-resource-name] annotation and
    the candidate's name starts with the desired [generateName] (no
    constraint when that is empty). *)
Definition sameSlot (desired cand : Unstructured) : bool :=
  match GetAnnotations desired !! slotAnnotation with
  | Some a =>
      bool_decide (GetAnnotations cand !! slotAnnotation = Some a) &&
      String.prefix (GetGenerateName desired) (GetName cand)
  | None => false
  end.

Section Fetch.

Context {W : Type}.

(** [client.GetResource] and [client.GetResourcesByLabel]. *)
Variable GetResource :
  GroupVersionKind -> string -> string -> W -> (Unstructured + GetError) * W.
Variable GetResourcesByLabel :
  string -> GroupVersionKind -> gmap string string -> W ->
  (list Unstructured + error) * W.

(** The three results of [FetchCurrentObject]. *)
Record Fetched := {
  current : option Unstructured;
  isNew : bool;
  fetchErr : option error;
}.

Definition newObject : Fetched :=
  {| current := None; isNew := true; fetchErr := None |}.
Definition existing (cur : Unstructured) : Fetched :=
  {| current := Some cur; isNew := false; fetchErr := None |}.

(** Modelled from the spec: rules 2 and 3 of section 4.6, the lookup by
    owner label, annotation and name prefix.  A failed list is treated
    as no candidate (test case ErrorLookingUpResources). *)
Definition fetchBySlot (composite : option Unstructured) (desired : Unstructured)
  (w : W) : Fetched * W :=
  match composite with
  | None => (newObject, w)
  | Some xr =>
      let '(r, w') :=
        GetResourcesByLabel (GetNamespace desired) (GroupVersionKindOf desired)
          {[ ownerLabel := GetName xr ]} w in
      match r with
      | inr _ => (newObject, w')
      | inl candidates =>
          match List.filter (sameSlot desired) candidates with
          | [cur] => (existing cur, w')
          | _ => (newObject, w')
          end
      end
  end.

(** Modelled from the spec: [FetchCurrentObject] is not among the
    sources (its test table is); rule 1 is the direct get by name. *)
Definition FetchCurrentObject (composite : option Unstructured)
  (desired : Unstructured) (w : W) : Fetched * W :=
  if bool_decide (GetName desired = EmptyString)
  then fetchBySlot composite desired w
  else
    let '(r, w') :=
      GetResource (GroupVersionKindOf desired) (GetNamespace desired)
        (GetName desired) w in
    match r with
    | inl cur => (existing cur, w')
    | inr NotFound => fetchBySlot composite desired w'
    | inr (OtherError err) =>
        ({| current := None; isNew := false; fetchErr := Some err |}, w')
    end.

End Fetch.

(** Modelled from the spec: [resourceKey], the key of removal detection;
    only its test is among the sources.  The namespace is not part of
    it. *)
Definition resourceKey (res : Unstructured) : string :=
  GetAPIVersion res +:+ "/" +:+ GetKind res +:+ "/" +:+ GetName res.

(** How one reference may change: kept when it has a UID, the parent's
    UID when it names the parent, a generated UID otherwise. *)
Definition refUpdated (parent : Unstructured) (new : list string)
  (r r' : OwnerReference) : Prop :=
  (or_uid r <> EmptyString /\ r' = r) \/
  (or_uid r = EmptyString /\ refersTo parent r = true /\
   r' = withUID r (GetUID parent)) \/
  (or_uid r = EmptyString /\ refersTo parent r = false /\
   exists uid, uid ∈ new /\ r' = withUID r uid).

End ResourceManager.

(** *** Diff generation (the formatter's [GenerateDiffWithOptions]) *)

Module DiffFormatter.
Import K8s Errors.

Inductive DiffType :=
  | DiffTypeAdded
  | DiffTypeRemoved
  | DiffTypeModified
  | DiffTypeEqual.

(** [diffmatchpatch.Operation] and [diffmatchpatch.Diff]. *)
Inductive Operation :=
  | DiffDelete
  | DiffInsert
  | DiffEqual.

Record Diff := {
  Type_ : Operation;
  Text : string;
}.

Record ResourceDiff := {
  ResourceKind : string;
  ResourceName : string;
  DiffType_ : DiffType;
  LineDiffs : list Diff;
  Current : option Unstructured;
  Desired : option Unstructured;
}.

Definition fieldsToRemove : list string :=
  ["resourceVersion"; "uid"; "generation"; "creationTimestamp";
   "managedFields"; "selfLink"; "ownerReferences"].

(** [for _, field := range fieldsToRemove { delete(metadata, field) }]. *)
Definition removeFields (fields : list string) (m : Unstructured) : Unstructured :=
  foldl (fun acc field => delete field acc) m fields.

(** [cleanupForDiff], on the deep copy its callers pass. *)
Definition cleanupForDiff (obj : Unstructured) : Unstructured :=
  let obj1 :=
    match NestedMap obj "metadata" with
    | Some metadata =>
        SetNestedMap obj (removeFields fieldsToRemove metadata) "metadata"
    | None => obj
    end in
  let obj2 :=
    match NestedMap obj1 "spec" with
    | Some spec => SetNestedMap obj1 (delete "resourceRefs" spec) "spec"
    | None => obj1
    end in
  delete "status" obj2.

(** The earlier revision of the same function, kept beside the string
    based [GenerateDiff] of [diff_formatter.go]: it has no [spec] step. *)
Definition cleanupForDiff_earlier (obj : Unstructured) : Unstructured :=
  let obj1 :=
    match NestedMap obj "metadata" with
    | Some metadata =>
        SetNestedMap obj (removeFields fieldsToRemove metadata) "metadata"
    | None => obj
    end in
  delete "status" obj1.

(** [equalDiff].  The source reads kind and name through [current]; where
    that pointer is nil the model reads empty strings. *)
Definition equalDiff (current desired : option Unstructured) : ResourceDiff :=
  {| ResourceKind := GetKind (default ∅ current);
     ResourceName := GetName (default ∅ current);
     DiffType_ := DiffTypeEqual;
     LineDiffs := [];
     Current := current;
     Desired := desired |}.

(** The [switch] that picks the diff type. *)
Definition diffTypeOf (current desired : option Unstructured) : DiffType + error :=
  match current, desired with
  | None, Some _ => inl DiffTypeAdded
  | Some _, None => inl DiffTypeRemoved
  | Some _, Some _ => inl DiffTypeModified
  | None, None => inr (New "both current and desired cannot be nil")
  end.

(** The two [equality.Semantic.DeepEqual] tests of the modified case: on
    the objects as given, then on their cleaned copies. *)
Definition semanticallyEqual (current desired : option Unstructured) : bool :=
  match current, desired with
  | Some c, Some d =>
      bool_decide (c = d) || bool_decide (cleanupForDiff c = cleanupForDiff d)
  | _, _ => false
  end.

Section WithLibraries.

(** [sigsyaml.Marshal] and the line differ built on [diffmatchpatch]. *)
Variable Marshal : Unstructured -> string + error.
Variable GetLineDiff : string -> string -> list Diff.

(** The [asString] closure. *)
Definition asString (obj : option Unstructured) : string + error :=
  match obj with
  | None => inl EmptyString
  | Some o => Marshal (cleanupForDiff o)
  end.

Definition GenerateDiffWithOptions (current desired : option Unstructured)
  : ResourceDiff + error :=
  match diffTypeOf current desired with
  | inr err => inr err
  | inl diffType =>
      if semanticallyEqual current desired
      then inl (equalDiff current desired)
      else
        match asString current with
        | inr err => inr (Wrap err "cannot marshal current object to YAML")
        | inl currentStr =>
            match asString desired with
            | inr err => inr (Wrap err "cannot marshal desired object to YAML")
            | inl desiredStr =>
                if bool_decide (desiredStr = currentStr)
                then inl (equalDiff current desired)
                else
                  let lineDiffs := GetLineDiff currentStr desiredStr in
                  if Nat.eqb (length lineDiffs) 0
                  then inl (equalDiff current desired)
                  else
                    let subject := default (default ∅ current) desired in
                    inl {| ResourceKind := GetKind subject;
                           ResourceName := GetName subject;
                           DiffType_ := diffType;
                           LineDiffs := lineDiffs;
                           Current := current;
                           Desired := desired |}
            end
        end
  end.

End WithLibraries.

(** One edit of a field the normalisation strips. *)
Inductive volatileEdit : Unstructured -> Unstructured -> Prop :=
  | edit_status_set o v :
      volatileEdit o (<["status" := v]> o)
  | edit_status_unset o :
      volatileEdit o (delete "status" o)
  | edit_metadata_set o md f v :
      NestedMap o "metadata" = Some md -> f ∈ fieldsToRemove ->
      volatileEdit o (<["metadata" := VMap (<[f := v]> md)]> o)
  | edit_metadata_unset o md f :
      NestedMap o "metadata" = Some md -> f ∈ fieldsToRemove ->
      volatileEdit o (<["metadata" := VMap (delete f md)]> o)
  | edit_resourceRefs_set o spec v :
      NestedMap o "spec" = Some spec ->
      volatileEdit o (<["spec" := VMap (<["resourceRefs" := v]> spec)]> o)
  | edit_resourceRefs_unset o spec :
      NestedMap o "spec" = Some spec ->
      volatileEdit o (<["spec" := VMap (delete "resourceRefs" spec)]> o).

(** Two objects differ only in stripped fields: one is reached from the
    other by such edits, in either direction. *)
Definition differOnlyVolatile : Unstructured -> Unstructured -> Prop :=
  rtsc volatileEdit.

(** The metadata and spec entries of a cleaned object. *)
Definition cleanMetadata (obj : Unstructured) : option value :=
  match NestedMap obj "metadata" with
  | Some md => Some (VMap (removeFields fieldsToRemove md))
  | None => obj !! "metadata"
  end.

Definition cleanSpec (obj : Unstructured) : option value :=
  match NestedMap obj "spec" with
  | Some spec => Some (VMap (delete "resourceRefs" spec))
  | None => obj !! "spec"
  end.

End DiffFormatter.

(** *** The processor ([DefaultDiffProcessor.ProcessResource]) *)

Module Processor.
Import K8s Errors Api Render.

(** The two methods of the [cc.ClusterClient] interface that
    [ProcessResource] calls before rendering. *)
Record ClusterClient := {
  FindMatchingComposition : Unstructured -> Composition + error;
  GetFunctionsFromPipeline : Composition -> list Function + error;
}.

(** The interface as [DefaultClusterClient] implements it. *)
Definition DefaultClusterClient (c : ClusterClient.Caches) : ClusterClient :=
  {| FindMatchingComposition := ClusterClient.FindMatchingComposition c;
     GetFunctionsFromPipeline := ClusterClient.GetFunctionsFromPipeline c |}.

Section WithComponents.

Context {W Diffs : Type}.

Variable RenderFunc : Inputs -> W -> (Outputs * option error) * W.
Variable ProvideRequirements :
  list Requirement -> W -> (list Unstructured + error) * W.
Variable client : ClusterClient.

(** [runtime.DefaultUnstructuredConverter.FromUnstructured] into a
    composite, and [mergo.Merge] with override. *)
Variable FromUnstructured : Unstructured -> Unstructured + error.
Variable Merge : Unstructured -> Unstructured -> Unstructured + error.

(** The schema validator, the diff calculator and the diff renderer. *)
Variable ValidateResources : Unstructured -> list Unstructured -> option error.
Variable CalculateDiffs : Unstructured -> Outputs -> Diffs * option error.
Variable RenderDiffs : Diffs -> option error.

(** [SanitizeXR]: an XR with only a [generateName] gets a display name. *)
Definition SanitizeXR (res : Unstructured) : Unstructured + error :=
  match FromUnstructured res with
  | inr err => inr (Wrap err "cannot convert XR to composite unstructured")
  | inl xr =>
      if bool_decide (GetName xr = EmptyString)
         && negb (bool_decide (GetGenerateName xr = EmptyString))
      then inl (SetName xr (GetGenerateName xr +:+ "(generated)"))
      else inl xr
  end.

Definition mergeUnstructured (dest src : Unstructured) : Unstructured + error :=
  match Merge dest src with
  | inr err => inr (Wrap err "cannot merge unstructured objects")
  | inl result => inl result
  end.

Definition ProcessResource (res : Unstructured) : Eff W (option error) :=
  match SanitizeXR res with
  | inr err => ret (Some err)
  | inl xr =>
      match FindMatchingComposition client res with
      | inr err => ret (Some (Wrap err "cannot find matching composition"))
      | inl comp =>
          match GetFunctionsFromPipeline client comp with
          | inr err => ret (Some (Wrap err "cannot get functions from pipeline"))
          | inl fns =>
              bind (RenderWithRequirements RenderFunc ProvideRequirements
                      xr comp fns)
                (fun '(desired, renderErr) =>
                   match renderErr with
                   | Some err =>
                       ret (Some (Wrap err
                                    "cannot render resources with requirements"))
                   | None =>
                       match mergeUnstructured (out_CompositeResource desired) xr with
                       | inr err =>
                           ret (Some (Wrap err
                              "cannot merge input XR with result of rendered XR"))
                       | inl xrUnstructured =>
                           match ValidateResources xrUnstructured
                                   (ComposedResources desired) with
                           | Some err =>
                               ret (Some (Wrap err "cannot validate resources"))
                           | None =>
                               let '(diffs, err) := CalculateDiffs xr desired in
                               match RenderDiffs diffs with
                               | Some diffErr => ret (Some diffErr)
                               | None => ret err
                               end
                           end
                       end
                   end)
          end
      end
  end.

End WithComponents.

End Processor.

(** *** Concrete inputs used by the examples below *)

Module Fixtures.
Import K8s Errors Api Render.

Definition configRequirement : Requirement :=
  {| req_apiVersion := "v1";
     req_kind := "ConfigMap";
     req_name := "shared";
     req_matchLabels := ∅;
     req_namespace := "default" |}.

Definition pipelineComp : Composition :=
  {| comp_name := "pipeline-comp";
     comp_labels := ∅;
     CompositeTypeRef := {| ref_apiVersion := "example.org/v1"; ref_kind := "XR1" |};
     Mode := Some "Pipeline";
     Pipeline := [] |}.

Definition nonPipelineComp : Composition :=
  {| comp_name := "non-pipeline-comp";
     comp_labels := ∅;
     CompositeTypeRef := {| ref_apiVersion := "example.org/v1"; ref_kind := "XR1" |};
     Mode := Some "NonPipeline";
     Pipeline := [] |}.

Definition myXR : Unstructured := NewResource "example.org/v1" "XR1" "my-xr".

(** An output that asks for one extra resource. *)
Definition demandOutput : Outputs :=
  {| out_CompositeResource := myXR;
     ComposedResources := [];
     Requirements := Some [configRequirement] |}.

Definition renderFailure : error := New "function run failed".

(** A renderer that always asks for the resource, and one that fails on
    top of it. *)
Definition demandingRender (i : Inputs) (w : unit) : (Outputs * option error) * unit :=
  ((demandOutput, None), w).
Definition failingRender (i : Inputs) (w : unit) : (Outputs * option error) * unit :=
  ((demandOutput, Some renderFailure), w).

(** An output whose requirements collection is there but empty, and a
    renderer that fails with it; a renderer that fails without any
    requirements collection. *)
Definition emptyRequirementsOutput : Outputs :=
  {| out_CompositeResource := myXR;
     ComposedResources := [];
     Requirements := Some [] |}.
Definition emptyHandedRender (i : Inputs) (w : unit)
  : (Outputs * option error) * unit :=
  ((emptyRequirementsOutput, Some renderFailure), w).
Definition fatalRender (i : Inputs) (w : unit) : (Outputs * option error) * unit :=
  ((emptyOutputs, Some renderFailure), w).

(** Two resources with the same apiVersion and name, of different kinds. *)
Definition sharedConfigMap : Unstructured := NewResource "v1" "ConfigMap" "shared".
Definition sharedSecret : Unstructured := NewResource "v1" "Secret" "shared".

(** A cluster without the resource, one with it, and one that answers
    with both twins. *)
Definition emptyProvider (reqs : list Requirement) (w : unit)
  : (list Unstructured + error) * unit := (inl [], w).
Definition configProvider (reqs : list Requirement) (w : unit)
  : (list Unstructured + error) * unit := (inl [sharedConfigMap], w).
Definition twinProvider (reqs : list Requirement) (w : unit)
  : (list Unstructured + error) * unit := (inl [sharedConfigMap; sharedSecret], w).

Definition env0 : Env unit := {| world := tt; calls := [] |}.

(** A cluster that has one more resource at every request. *)
Definition countingRender (i : Inputs) (w : nat) : (Outputs * option error) * nat :=
  ((demandOutput, None), w).
Definition freshProvider (reqs : list Requirement) (w : nat)
  : (list Unstructured + error) * nat :=
  (inl [NewResource "v1" "ConfigMap" (String (ascii_of_nat (65 + w)) EmptyString)],
   S w).

(** A cache holding one composition, and trivial downstream components. *)
Definition cachesWith (c : Composition) : ClusterClient.Caches :=
  {| ClusterClient.compositions := {[ comp_name c := c ]};
     ClusterClient.functions := ∅;
     ClusterClient.xrds := [];
     ClusterClient.xrdsLoaded := true |}.

Definition quietRender (i : Inputs) (w : unit) : (Outputs * option error) * unit :=
  (({| out_CompositeResource := CompositeResource i;
       ComposedResources := [];
       Requirements := None |}, None), w).

Definition convertOk (res : Unstructured) : Unstructured + error := inl res.
Definition mergeOver (dest src : Unstructured) : Unstructured + error :=
  inl (src ∪ dest).
Definition validateOk (xr : Unstructured) (composed : list Unstructured)
  : option error := None.
Definition noDiffs (xr : Unstructured) (o : Outputs) : unit * option error :=
  (tt, None).
Definition printOk (d : unit) : option error := None.

(** The XRD of the claim test cases, with the given versions. *)
Definition xrdVersion (name : string) (referenceable : bool) : value :=
  VMap (<["name" := VStr name]>
          (<["served" := VBool true]>
             (<["referenceable" := VBool referenceable]> ∅))).

Definition exampleXRD (versions : list value) : Unstructured :=
  <["spec" := VMap (<["group" := VStr "example.org"]>
                      (<["names" := VMap (<["kind" := VStr "XExampleResource"]> ∅)]>
                         (<["claimNames" :=
                              VMap (<["kind" := VStr "ExampleResourceClaim"]> ∅)]>
                            (<["versions" := VList versions]> ∅))))]>
    (NewResource "apiextensions.crossplane.io/v1" "CompositeResourceDefinition"
       "xexampleresources.example.org").

Definition matchingComp (apiVersion : string) : Composition :=
  {| comp_name := "matching-comp";
     comp_labels := ∅;
     CompositeTypeRef := {| ref_apiVersion := apiVersion;
                            ref_kind := "XExampleResource" |};
     Mode := Some "Pipeline";
     Pipeline := [] |}.

Definition claimCaches (apiVersion : string) (versions : list value)
  : ClusterClient.Caches :=
  {| ClusterClient.compositions := {[ "matching-comp" := matchingComp apiVersion ]};
     ClusterClient.functions := ∅;
     ClusterClient.xrds := [exampleXRD versions];
     ClusterClient.xrdsLoaded := true |}.

(** An XRD that offers no claim, and a cache that holds it in front of
    the XRD of the claim test cases. *)
Definition plainXRD : Unstructured :=
  <["spec" := VMap (<["group" := VStr "example.org"]>
                      (<["names" := VMap (<["kind" := VStr "XOther"]> ∅)]> ∅))]>
    (NewResource "apiextensions.crossplane.io/v1" "CompositeResourceDefinition"
       "xothers.example.org").


(** [ExampleResourceClaim/test-claim] with a direct composition
    reference. *)
Definition testClaim : Unstructured :=
  <["spec" := VMap (<["compositionRef" :=
                        VMap (<["name" := VStr "matching-comp"]> ∅)]> ∅)]>
    (NewResource "example.org/v1" "ExampleResourceClaim" "test-claim").

(** An API server that fails the first list call and then answers with
    an empty list. *)
Definition flakyList (w : nat) : (list Unstructured + error) * nat :=
  match w with
  | 0 => (inr (New "list error"), 1)
  | S _ => (inl [], S w)
  end.

Definition coldCaches : ClusterClient.Caches :=
  {| ClusterClient.compositions := ∅;
     ClusterClient.functions := ∅;
     ClusterClient.xrds := [];
     ClusterClient.xrdsLoaded := false |}.

(** Builders of the resource manager's tests. *)
Definition stringMapValue (m : list (string * string)) : value :=
  VMap (list_to_map (prod_map id VStr <$> m)).
Definition WithLabels (m : list (string * string)) (obj : Unstructured) : Unstructured :=
  setMetadataField obj "labels" (stringMapValue m).
Definition WithAnnotations (m : list (string * string)) (obj : Unstructured)
  : Unstructured :=
  setMetadataField obj "annotations" (stringMapValue m).
Definition WithGenerateName (n : string) (obj : Unstructured) : Unstructured :=
  setMetadataField obj "generateName" (VStr n).
Definition WithUID (uid : string) (obj : Unstructured) : Unstructured :=
  setMetadataField obj "uid" (VStr uid).

Definition parentXR : Unstructured :=
  WithUID "parent-uid" (NewResource "example.org/v1" "XR" "parent-xr").

(** A composed resource of [parent-xr] in the slot [slot]. *)
Definition composedAs (name slot : string) : Unstructured :=
  WithAnnotations [("crossplane.io/composition-resource-name", slot)]
    (WithLabels [("crossplane.io/composite", "parent-xr")]
       (NewResource "example.org/v1" "TestResource" name)).

(** The desired object of the generate-name test case. *)
Definition desiredGenerated : Unstructured :=
  WithGenerateName "test-resource-" (composedAs "" "resource-a").

(** A cluster with no object by name and the two candidates of the test
    case under the owner label; the world counts the calls. *)
Definition getNotFound (gvk : ClusterClient.GroupVersionKind) (ns name : string)
  (w : nat) : (Unstructured + ResourceManager.GetError) * nat :=
  (inr ResourceManager.NotFound, S w).
Definition listTwoCandidates (ns : string) (gvk : ClusterClient.GroupVersionKind)
  (sel : gmap string string) (w : nat) : (list Unstructured + error) * nat :=
  (if bool_decide (sel !! "crossplane.io/composite" = Some "parent-xr")
   then inl [composedAs "test-resource-abc123" "resource-a";
             composedAs "test-resource-abc123" "resource-b"]
   else inl [],
   S w).
Definition listFails (ns : string) (gvk : ClusterClient.GroupVersionKind)
  (sel : gmap string string) (w : nat) : (list Unstructured + error) * nat :=
  (inr (New "error looking up resources"), S w).

(** The child of the owner-reference test case with three references. *)
Definition ownerRef (apiVersion kind name uid : string)
  : ResourceManager.OwnerReference :=
  {| ResourceManager.or_apiVersion := apiVersion;
     ResourceManager.or_kind := kind;
     ResourceManager.or_name := name;
     ResourceManager.or_uid := uid;
     ResourceManager.or_controller := None;
     ResourceManager.or_blockOwnerDeletion := None |}.

Definition childWithOwners : Unstructured :=
  ResourceManager.SetOwnerReferences
    (NewResource "example.org/v1" "Child" "child-resource")
    [ownerRef "example.org/v1" "XR" "parent-xr" EmptyString;
     ownerRef "other.org/v1" "OtherKind" "other-name" EmptyString;
     ownerRef "example.org/v1" "XR" "different-parent" EmptyString;
     ownerRef "apps/v1" "Deployment" "kept" "foobar"].

(** A UID generator that counts. *)
Definition countingUUID (w : nat) : string * nat :=
  ("generated-" +:+ String (ascii_of_nat (48 + w)) EmptyString, S w).

(** A rendered object, and the same object as the API server holds it:
    with a UID and a resource version, a status, and resource
    references. *)
Definition renderedBucket : Unstructured :=
  <["spec" := VMap (<["region" := VStr "eu-west-1"]> ∅)]>
    (NewResource "s3.example.org/v1" "Bucket" "my-bucket").

Definition liveBucket : Unstructured :=
  <["spec" := VMap (<["resourceRefs" := VList [VStr "ref-1"]]>
                      (<["region" := VStr "eu-west-1"]> ∅))]>
    (<["status" := VMap (<["ready" := VBool true]> ∅)]>
       (<["metadata" := VMap (<["resourceVersion" := VStr "42"]>
                                (<["uid" := VStr "abc-123"]>
                                   (<["name" := VStr "my-bucket"]> ∅)))]>
          renderedBucket)).

Definition yamlStub (obj : Unstructured) : string + error := inl (GetName obj).
Definition lineDiffStub (a b : string) : list DiffFormatter.Diff :=
  [{| DiffFormatter.Type_ := DiffFormatter.DiffDelete; DiffFormatter.Text := a |};
   {| DiffFormatter.Type_ := DiffFormatter.DiffInsert; DiffFormatter.Text := b |}].

End Fixtures.

(** *** The line formatters ([FullDiffFormatter], [CompactDiffFormatter]) *)

Module LineFormat.
Import DiffFormatter.
Local Open Scope Z_scope.

(** Terminal colours. *)
Definition escape : string := String (ascii_of_nat 27) EmptyString.
Definition ColorRed : string := escape +:+ "[31m".
Definition ColorGreen : string := escape +:+ "[32m".
Definition ColorReset : string := escape +:+ "[0m".

Record DiffOptions := {
  UseColors : bool;
  AddPrefix : string;
  DeletePrefix : string;
  ContextPrefix : string;
  ContextLines : Z;
  ChunkSeparator : string;
  Compact : bool;
}.

Definition DefaultDiffOptions : DiffOptions :=
  {| UseColors := true;
     AddPrefix := "+ ";
     DeletePrefix := "- ";
     ContextPrefix := "  ";
     ContextLines := 3;
     ChunkSeparator := "...";
     Compact := false |}.

Definition CompactDiffOptions : DiffOptions :=
  {| UseColors := true;
     AddPrefix := "+ ";
     DeletePrefix := "- ";
     ContextPrefix := "  ";
     ContextLines := 3;
     ChunkSeparator := "...";
     Compact := true |}.

(** Go's [int] on a 64-bit platform: arithmetic wraps around. *)
Definition int (z : Z) : Z := (z + 2 ^ 63) mod 2 ^ 64 - 2 ^ 63.

(** The line feed, [strings.Split(s, "\n")] and
    [strings.HasSuffix(s, "\n")]. *)
Definition lineFeed : ascii := ascii_of_nat 10.

Fixpoint Split (s : string) : list string :=
  match s with
  | EmptyString => [EmptyString]
  | String c rest =>
      if Ascii.eqb c lineFeed then EmptyString :: Split rest
      else match Split rest with
           | line :: lines => String c line :: lines
           | [] => [String c EmptyString]
           end
  end.

Fixpoint HasSuffix (s : string) : bool :=
  match s with
  | EmptyString => false
  | String c rest =>
      match rest with
      | EmptyString => Ascii.eqb c lineFeed
      | String _ _ => HasSuffix rest
      end
  end.

(** A [strings.Builder] that is only ever written one line at a time: the
    lines written so far, each followed by a line feed in [String()]. *)
Fixpoint builderString (lines : list string) : string :=
  match lines with
  | [] => EmptyString
  | line :: rest => line +:+ String lineFeed (builderString rest)
  end.

Definition formatLine (line : string) (diffType : Operation) (options : DiffOptions)
  : string :=
  let '(prefix, colorStart, colorEnd) :=
    match diffType with
    | DiffInsert =>
        (AddPrefix options,
         if UseColors options then ColorGreen else EmptyString,
         if UseColors options then ColorReset else EmptyString)
    | DiffDelete =>
        (DeletePrefix options,
         if UseColors options then ColorRed else EmptyString,
         if UseColors options then ColorReset else EmptyString)
    | DiffEqual => (ContextPrefix options, EmptyString, EmptyString)
    end in
  if UseColors options && negb (bool_decide (colorStart = EmptyString))
  then colorStart +:+ prefix +:+ line +:+ colorEnd
  else prefix +:+ line.

(** [lines[:len(lines)-1]] when the text ends in a line feed. *)
Definition textLines (text : string) : list string :=
  let lines := Split text in
  if HasSuffix text && (0 <? length lines)%nat then removelast lines else lines.

Definition processLines (diff : Diff) (options : DiffOptions) : list string * bool :=
  let lines := textLines (Text diff) in
  let hasTrailingNewline := HasSuffix (Text diff) in
  let result := (fun line => formatLine line (Type_ diff) options) <$> lines in
  let result :=
    if hasTrailingNewline && (length lines =? 0)%nat
    then result ++ [formatLine EmptyString (Type_ diff) options]
    else result in
  (result, hasTrailingNewline).

(** [FullDiffFormatter.Format]: the lines written to the builder, and the
    string returned. *)
Definition fullLines (diffs : list Diff) (options : DiffOptions) : list string :=
  foldl (fun builder diff => builder ++ (processLines diff options).1) [] diffs.

Definition FullFormat (diffs : list Diff) (options : DiffOptions) : string :=
  builderString (fullLines diffs options).

(** The compact formatter indexes slices; [None] is the run-time panic of
    an index out of range. *)
Record lineItem := {
  Type__ : Operation;
  Content : string;
  Formatted : string;
}.

Definition index {A} (l : list A) (i : Z) : option A :=
  if i <? 0 then None else l !! Z.to_nat i.

Definition len {A} (l : list A) : Z := Z.of_nat (length l).

(** The loop [for i := from; i < to; i++]. *)
Definition indices (from to : Z) : list Z := seqZ from (to - from).

Fixpoint forEach {S} (idxs : list Z) (body : Z -> S -> option S) (s : S) : option S :=
  match idxs with
  | [] => Some s
  | i :: rest =>
      match body i s with
      | Some s' => forEach rest body s'
      | None => None
      end
  end.

(** The items one diff contributes to [allLines]. *)
Definition lineItems (diff : Diff) (options : DiffOptions) : option (list lineItem) :=
  let '(formattedLines, hasTrailingNewline) := processLines diff options in
  forEach (indices 0 (len formattedLines))
    (fun i items =>
       match index formattedLines i with
       | None => None
       | Some formatted =>
           let isEmptyTrailer :=
             hasTrailingNewline && (len formattedLines =? 1) && (i =? 0) in
           match
             (if negb isEmptyTrailer then index (Split (Text diff)) i
              else Some EmptyString)
           with
           | None => None
           | Some content =>
               Some (items ++ [{| Type__ := Type_ diff;
                                  Content := content;
                                  Formatted := formatted |}])
           end
       end)
    [].

Fixpoint allLinesFrom (allLines : list lineItem) (diffs : list Diff)
  (options : DiffOptions) : option (list lineItem) :=
  match diffs with
  | [] => Some allLines
  | diff :: rest =>
      match lineItems diff options with
      | Some items => allLinesFrom (allLines ++ items) rest options
      | None => None
      end
  end.

(** [t != diffmatchpatch.DiffEqual]. *)
Definition notEqual (t : Operation) : bool :=
  match t with
  | DiffEqual => false
  | DiffDelete | DiffInsert => true
  end.

Record changeBlock := {
  StartIdx : Z;
  EndIdx : Z;
}.

(** The loop that identifies the change blocks, from line [i] on, and the
    final test of [currentBlock]. *)
Fixpoint identifyBlocks (lines : list lineItem) (i : Z)
  (changeBlocks : list changeBlock) (currentBlock : option changeBlock)
  : list changeBlock :=
  match lines with
  | [] =>
      match currentBlock with
      | Some block => changeBlocks ++ [block]
      | None => changeBlocks
      end
  | line :: rest =>
      if notEqual (Type__ line)
      then
        match currentBlock with
        | None =>
            identifyBlocks rest (i + 1) changeBlocks
              (Some {| StartIdx := i; EndIdx := i |})
        | Some block =>
            identifyBlocks rest (i + 1) changeBlocks
              (Some {| StartIdx := StartIdx block; EndIdx := i |})
        end
      else
        match currentBlock with
        | Some block => identifyBlocks rest (i + 1) (changeBlocks ++ [block]) None
        | None => identifyBlocks rest (i + 1) changeBlocks None
        end
  end.

(** The builder and [lastPrintedIdx]. *)
Record printer := {
  builder : list string;
  lastPrintedIdx : Z;
}.

Definition printLine (allLines : list lineItem) (i : Z) (p : printer)
  : option printer :=
  match index allLines i with
  | Some line => Some {| builder := builder p ++ [Formatted line];
                         lastPrintedIdx := i |}
  | None => None
  end.

Section Blocks.

Variable allLines : list lineItem.
Variable options : DiffOptions.

Definition contextEndOf (block : changeBlock) : Z :=
  Z.min (len allLines) (int (int (EndIdx block + ContextLines options) + 1)).

(** Where the context before a block starts, with the separator written
    when the previous context ends before it. *)
Definition startContext (prev : option changeBlock) (block : changeBlock)
  (p : printer) : Z * printer :=
  let contextStart := Z.max 0 (int (StartIdx block - ContextLines options)) in
  match prev with
  | None => (contextStart, p)
  | Some prevBlock =>
      let prevContextEnd := contextEndOf prevBlock in
      if prevContextEnd <? contextStart
      then (contextStart,
            {| builder := builder p ++ [ChunkSeparator options];
               lastPrintedIdx := -1 |})
      else (Z.max (int (lastPrintedIdx p + 1)) contextStart, p)
  end.

Definition printContextBefore (contextStart : Z) (block : changeBlock) (p : printer)
  : option printer :=
  forEach (indices contextStart (StartIdx block))
    (fun i p => if lastPrintedIdx p <? i then printLine allLines i p else Some p) p.

Definition printChanges (block : changeBlock) (p : printer) : option printer :=
  forEach (indices (StartIdx block) (EndIdx block + 1)) (printLine allLines) p.

Definition printContextAfter (block : changeBlock) (p : printer) : option printer :=
  forEach (indices (EndIdx block + 1) (contextEndOf block)) (printLine allLines) p.

(** One round of the loop over the change blocks; [prev] is
    [changeBlocks[blockIdx-1]], absent for the first block. *)
Definition printBlock (prev : option changeBlock) (block : changeBlock) (p : printer)
  : option printer :=
  let '(contextStart, p) := startContext prev block p in
  match printContextBefore contextStart block p with
  | None => None
  | Some p =>
      match printChanges block p with
      | None => None
      | Some p => printContextAfter block p
      end
  end.

Fixpoint printBlocks (prev : option changeBlock) (blocks : list changeBlock)
  (p : printer) : option printer :=
  match blocks with
  | [] => Some p
  | block :: rest =>
      match printBlock prev block p with
      | Some p' => printBlocks (Some block) rest p'
      | None => None
      end
  end.

(** The second half of [CompactDiffFormatter.Format], from [allLines]
    on. *)
Definition compactLines : option (list string) :=
  let changeBlocks := identifyBlocks allLines 0 [] None in
  if (length changeBlocks =? 0)%nat then Some []
  else
    match printBlocks None changeBlocks {| builder := []; lastPrintedIdx := -1 |} with
    | Some p => Some (builder p)
    | None => None
    end.

End Blocks.

(** [CompactDiffFormatter.Format]. *)
Definition CompactFormat (diffs : list Diff) (options : DiffOptions) : option string :=
  match allLinesFrom [] diffs options with
  | None => None
  | Some allLines =>
      match compactLines allLines options with
      | Some lines => Some (builderString lines)
      | None => None
      end
  end.

(** The lines [from] to [to - 1] of a list. *)
Definition slice {A} (from to : Z) (l : list A) : list A :=
  take (Z.to_nat (to - from)) (drop (Z.to_nat from) l).

(** A change block lies inside a list of [n] lines. *)
Definition inRange (n : Z) (block : changeBlock) : Prop :=
  0 <= StartIdx block /\ StartIdx block <= EndIdx block /\ EndIdx block < n.

(** The separator a block writes first, if any, and the first line it
    prints, when the number of context lines is in the usual range. *)
Definition firstPrinted (allLines : list lineItem) (options : DiffOptions)
  (prev : option changeBlock) (block : changeBlock) (p : printer) : list string * Z :=
  let contextStart := Z.max 0 (StartIdx block - ContextLines options) in
  match prev with
  | None => ([], contextStart)
  | Some prevBlock =>
      if Z.min (len allLines) (EndIdx prevBlock + ContextLines options + 1)
         <? contextStart
      then ([ChunkSeparator options], contextStart)
      else ([], Z.min (StartIdx block) (Z.max (lastPrintedIdx p + 1) contextStart))
  end.

(** What the formatters show of a line: its type and its formatted text;
    and the lines a list of diffs is expected to show. *)
Definition shown (item : lineItem) : Operation * string :=
  (Type__ item, Formatted item).

Definition expectedLines (diffs : list Diff) (options : DiffOptions)
  : list (Operation * string) :=
  concat ((fun diff =>
             (fun line => (Type_ diff, formatLine line (Type_ diff) options))
               <$> textLines (Text diff)) <$> diffs).

(** A text with its final line feed, added when it lacks one. *)
Definition terminated (text : string) : string :=
  if HasSuffix text then text else text +:+ String lineFeed EmptyString.

(** [NewFormatter] and [FormatDiff]. *)
Definition NewFormatter (compact : bool) : list Diff -> DiffOptions -> option string :=
  if compact then CompactFormat
  else fun diffs options => Some (FullFormat diffs options).

Definition FormatDiff (diffs : list Diff) (options : DiffOptions) : option string :=
  NewFormatter (Compact options) diffs options.

End LineFormat.

(** *** The full formatter on operations as numbers *)

Module Numbered.
Import LineFormat.
Local Open Scope Z_scope.

(** [diffmatchpatch.Operation] is an [int8] with the three named values
    below.  The switches of the formatters have no default case, so the
    formatters are defined on every other value as well. *)
Definition Operation : Type := Z.
Definition DiffDelete : Operation := -1.
Definition DiffInsert : Operation := 1.
Definition DiffEqual : Operation := 0.

(** [diffmatchpatch.Diff]. *)
Record Diff := {
  Type_ : Operation;
  Text : string;
}.

(** The three named operations as numbers. *)
Definition ofOperation (t : DiffFormatter.Operation) : Operation :=
  match t with
  | DiffFormatter.DiffDelete => DiffDelete
  | DiffFormatter.DiffInsert => DiffInsert
  | DiffFormatter.DiffEqual => DiffEqual
  end.

Definition ofDiff (diff : DiffFormatter.Diff) : Diff :=
  {| Type_ := ofOperation (DiffFormatter.Type_ diff);
     Text := DiffFormatter.Text diff |}.

(** [formatLine] of the later revision: for an operation that is none of
    the three, prefix and colours stay empty. *)
Definition formatLine (line : string) (diffType : Operation) (options : DiffOptions)
  : string :=
  let '(prefix, colorStart, colorEnd) :=
    if diffType =? DiffInsert then
      (AddPrefix options,
       if UseColors options then ColorGreen else EmptyString,
       if UseColors options then ColorReset else EmptyString)
    else if diffType =? DiffDelete then
      (DeletePrefix options,
       if UseColors options then ColorRed else EmptyString,
       if UseColors options then ColorReset else EmptyString)
    else if diffType =? DiffEqual then
      (ContextPrefix options, EmptyString, EmptyString)
    else (EmptyString, EmptyString, EmptyString) in
  if UseColors options && negb (bool_decide (colorStart = EmptyString))
  then colorStart +:+ prefix +:+ line +:+ colorEnd
  else prefix +:+ line.

Definition processLines (diff : Diff) (options : DiffOptions) : list string * bool :=
  let lines := textLines (Text diff) in
  let hasTrailingNewline := HasSuffix (Text diff) in
  let result := (fun line => formatLine line (Type_ diff) options) <$> lines in
  let result :=
    if hasTrailingNewline && (length lines =? 0)%nat
    then result ++ [formatLine EmptyString (Type_ diff) options]
    else result in
  (result, hasTrailingNewline).

(** [FullDiffFormatter.Format] of the later revision. *)
Definition FullFormat (diffs : list Diff) (options : DiffOptions) : string :=
  builderString
    (foldl (fun builder diff => builder ++ (processLines diff options).1) [] diffs).

End Numbered.

(** *** The earlier revision of the formatter ([diff_formatter.go]) *)

Module Earlier.
Import LineFormat Numbered.
Local Open Scope Z_scope.

(** The colour variables set from the options. *)
Definition addColor (options : DiffOptions) : string :=
  if UseColors options then ColorGreen else EmptyString.
Definition delColor (options : DiffOptions) : string :=
  if UseColors options then ColorRed else EmptyString.
Definition resetColor (options : DiffOptions) : string :=
  if UseColors options then ColorReset else EmptyString.

(** One round of the loop of [FullDiffFormatter.Format]: the switch writes
    nothing for an operation that is none of the three. *)
Definition writeDiff (options : DiffOptions) (builder : list string) (diff : Diff)
  : list string :=
  let lines := textLines (Text diff) in
  let hasTrailingNewline := HasSuffix (Text diff) in
  if Type_ diff =? DiffInsert then
    let builder :=
      builder ++ ((fun line => addColor options +:+ AddPrefix options +:+ line
                               +:+ resetColor options) <$> lines) in
    if hasTrailingNewline && (length lines =? 0)%nat
    then builder ++ [addColor options +:+ AddPrefix options +:+ resetColor options]
    else builder
  else if Type_ diff =? DiffDelete then
    let builder :=
      builder ++ ((fun line => delColor options +:+ DeletePrefix options +:+ line
                               +:+ resetColor options) <$> lines) in
    if hasTrailingNewline && (length lines =? 0)%nat
    then builder ++ [delColor options +:+ DeletePrefix options +:+ resetColor options]
    else builder
  else if Type_ diff =? DiffEqual then
    let builder :=
      builder ++ ((fun line => ContextPrefix options +:+ line) <$> lines) in
    if hasTrailingNewline && (length lines =? 0)%nat
    then builder ++ [ContextPrefix options]
    else builder
  else builder.

Definition FullFormat (diffs : list Diff) (options : DiffOptions) : string :=
  builderString (foldl (writeDiff options) [] diffs).

End Earlier.

(** *** All resources ([DefaultDiffProcessor.ProcessAll]) *)

Module Batch.
Import K8s Errors Render.

Section WithProcessResource.

Context {W : Type}.

(** [p.ProcessResource]. *)
Variable ProcessResource : Unstructured -> Eff W (option error).

(** [fmt.Sprintf("%s/%s", res.GetKind(), res.GetName())]. *)
Definition resourceID (res : Unstructured) : string :=
  GetKind res +:+ "/" +:+ GetName res.

(** The loop over the resources, with the errors collected so far. *)
Fixpoint processEach (resources : list Unstructured) (errs : list error)
  : Eff W (list error) :=
  match resources with
  | [] => ret errs
  | res :: rest =>
      bind (ProcessResource res)
        (fun result =>
           match result with
           | Some err =>
               processEach rest
                 (errs ++ [Wrap err ("unable to process resource " +:+ resourceID res)])
           | None => processEach rest errs
           end)
  end.

(** [ProcessAll]; the error returned is [errors.Join(errs...)], given here
    by the errors it joins. *)
Definition ProcessAll (resources : list Unstructured) : Eff W (option (list error)) :=
  if (length resources =? 0)%nat then ret None
  else
    bind (processEach resources [])
      (fun errs => if (0 <? length errs)%nat then ret (Some errs) else ret None).

(** What [ProcessResource] returns for each resource in turn, when each is
    processed in the state the one before it left. *)
Fixpoint outcomes (resources : list Unstructured) : Eff W (list (option error)) :=
  match resources with
  | [] => ret []
  | res :: rest =>
      bind (ProcessResource res)
        (fun result => bind (outcomes rest) (fun results => ret (result :: results)))
  end.

End WithProcessResource.

(** The failures among the outcomes, each under the name of its
    resource. *)
Definition failures (resources : list Unstructured) (results : list (option error))
  : list error :=
  omap (fun '(res, result) =>
          (fun err => Wrap err ("unable to process resource " +:+ resourceID res))
            <$> result)
       (zip resources results).

End Batch.

(** *** Vocabulary for the progress of the render loop *)

Module Progress.
Import K8s.

(** Every list is the one before it with at least one more element at the
    end. *)
Fixpoint growing (prev : list Unstructured) (rest : list (list Unstructured)) : Prop :=
  match rest with
  | [] => True
  | next :: rest' =>
      (exists added, added <> [] /\ next = prev ++ added) /\ growing next rest'
  end.

(** The first list is [first], and the lists grow from there. *)
Definition growingFrom (first : list Unstructured) (lists : list (list Unstructured))
  : Prop :=
  match lists with
  | [] => True
  | l :: rest => l = first /\ growing l rest
  end.

(** The resource was in a successful answer of the provider. *)
Definition providedIn (log : list Render.Call) (r : Unstructured) : Prop :=
  exists reqs answer, Render.CallProvide reqs (inl answer) ∈ log /\ r ∈ answer.

End Progress.

(** *** The earlier revision of the processor ([diff_processor.go], second
    document) *)

Module EarlierProcessor.
Import K8s Errors ClusterClient.

(** [schema.GroupVersionResource] and the [MatchLabels] of a
    [metav1.LabelSelector]. *)
Record GroupVersionResource := {
  gvr_Group : string;
  gvr_Version : string;
  Resource : string;
}.

Abbreviation LabelSelector := (gmap string string).

(** The fields of a pipeline step and of a composition that the earlier
    processor reads; [Input] is [step.Input.Raw], absent when [step.Input]
    is nil. *)
Record PipelineStep := {
  FunctionRefName : string;
  Input : option string;
}.

Record Composition := {
  Mode : option string;
  Pipeline : list PipelineStep;
}.

Definition notPipeline (comp : Composition) : bool :=
  match Mode comp with
  | None => true
  | Some m => negb (bool_decide (m = Api.CompositionModePipeline))
  end.

(** [Unstructured.GroupVersionKind]: empty altogether when the API version
    does not parse. *)
Definition objectGVK (obj : Unstructured) : GroupVersionKind :=
  match ParseGroupVersion (GetAPIVersion obj) with
  | Some (group, version) =>
      {| Group := group; Version := version; Kind := GetKind obj |}
  | None => {| Group := EmptyString; Version := EmptyString; Kind := EmptyString |}
  end.

(** [unstructured.NestedSlice] and [unstructured.NestedMap] along a path;
    a missing field and a field of another type both count as not
    found. *)
Definition NestedSlice (obj : Unstructured) (path : list string) : option (list value) :=
  match NestedField obj path with
  | Some (VList l) => Some l
  | _ => None
  end.

Definition NestedMapAt (obj : Unstructured) (path : list string) : option Unstructured :=
  match NestedField obj path with
  | Some (VMap m) => Some m
  | _ => None
  end.

Section WithLibraries.

(** [Unstructured.UnmarshalJSON], [strings.ToLower] and the [%q] verb. *)
Variable UnmarshalJSON : string -> Unstructured + error.
Variable ToLower : string -> string.
Variable Quote : string -> string.

(** [fmt.Sprintf("%ss", strings.ToLower(kind))]. *)
Definition naivePlural (kind : string) : string := ToLower kind +:+ "s".

(** The loop over the entries of [spec.extraResources], appending to the
    two slices. *)
Fixpoint scanExtraResources (extraResources : list value)
  (resources : list GroupVersionResource) (selectors : list LabelSelector)
  : (list GroupVersionResource * list LabelSelector) + error :=
  match extraResources with
  | [] => inl (resources, selectors)
  | er :: rest =>
      match er with
      | VMap erMap =>
          let apiVersion := default EmptyString (NestedString erMap ["apiVersion"]) in
          let kind := default EmptyString (NestedString erMap ["kind"]) in
          let selector := default ∅ (NestedMapAt erMap ["selector"; "matchLabels"]) in
          if bool_decide (apiVersion = EmptyString) || bool_decide (kind = EmptyString)
          then scanExtraResources rest resources selectors
          else
            match ParseGroupVersion apiVersion with
            | None =>
                inr (Wrap (New ("unexpected GroupVersion string: " +:+ apiVersion))
                       ("cannot parse group version " +:+ Quote apiVersion))
            | Some (group, version) =>
                scanExtraResources rest
                  (resources ++ [{| gvr_Group := group;
                                    gvr_Version := version;
                                    Resource := naivePlural kind |}])
                  (selectors ++ [omap stringEntry selector])
            end
      | _ => scanExtraResources rest resources selectors
      end
  end.

(** The loop over the pipeline steps. *)
Fixpoint scanSteps (steps : list PipelineStep)
  (resources : list GroupVersionResource) (selectors : list LabelSelector)
  : (list GroupVersionResource * list LabelSelector) + error :=
  match steps with
  | [] => inl (resources, selectors)
  | step :: rest =>
      match Input step with
      | Some raw =>
          if negb (bool_decide (FunctionRefName step = "function-extra-resources"))
          then scanSteps rest resources selectors
          else
            match UnmarshalJSON raw with
            | inr err =>
                inr (Wrap err "cannot unmarshal function-extra-resources input")
            | inl input =>
                match NestedSlice input ["spec"; "extraResources"] with
                | None => scanSteps rest resources selectors
                | Some extraResources =>
                    match scanExtraResources extraResources resources selectors with
                    | inr err => inr err
                    | inl (resources', selectors') =>
                        scanSteps rest resources' selectors'
                    end
                end
            end
      | None => scanSteps rest resources selectors
      end
  end.

Definition IdentifyNeededExtraResources (comp : Composition)
  : (list GroupVersionResource * list LabelSelector) + error :=
  if notPipeline comp then inl ([], [])
  else scanSteps (Pipeline comp) [] [].

End WithLibraries.

Section WithClient.

Context {W : Type}.

Variable ToLower : string -> string.

(** [client.GetResource] and [client.GetResourcesByLabel]. *)
Variable GetResource :
  GroupVersionKind -> string -> string -> W ->
  (Unstructured + ResourceManager.GetError) * W.
Variable GetResourcesByLabel :
  string -> GroupVersionResource -> LabelSelector -> W ->
  (list Unstructured + error) * W.

(** [fetchCurrentObject]: the current object, whether the desired one is
    new, and the error. *)
Definition fetchCurrentObject (composite : string) (desired : Unstructured) (w : W)
  : (option Unstructured * bool * option error) * W :=
  let gvk := objectGVK desired in
  let name := GetName desired in
  let namespace := GetNamespace desired in
  if negb (bool_decide (composite = EmptyString))
  then
    let sel : LabelSelector := {[ "crossplane.io/composite" := composite ]} in
    let gvr := {| gvr_Group := Group gvk;
                  gvr_Version := Version gvk;
                  Resource := naivePlural ToLower (Kind gvk) |} in
    let '(r, w') := GetResourcesByLabel namespace gvr sel w in
    match r with
    | inr err => ((None, false, Some (Wrap err "cannot get current object")), w')
    | inl currents =>
        if (1 <? length currents)%nat
        then ((None, false,
               Some (New ("more than one matching resource found for "
                          +:+ Kind gvk +:+ "/" +:+ name))), w')
        else
          match currents with
          | [current] => ((Some current, false, None), w')
          | _ => ((None, true, None), w')
          end
    end
  else
    let '(r, w') := GetResource gvk namespace name w in
    match r with
    | inl current => ((Some current, false, None), w')
    | inr ResourceManager.NotFound => ((None, true, None), w')
    | inr (ResourceManager.OtherError err) =>
        ((None, false, Some (Wrap err "cannot get current object")), w')
    end.

End WithClient.

End EarlierProcessor.

(** *** Concrete inputs for the formatters and the earlier processor *)

Module MoreFixtures.
Import K8s Errors DiffFormatter LineFormat.

(** A line of text with its line feed. *)
Definition textLine (s : string) : string := s +:+ String lineFeed EmptyString.

Definition deleted (s : string) : Diff := {| Type_ := DiffDelete; Text := textLine s |}.
Definition inserted (s : string) : Diff := {| Type_ := DiffInsert; Text := textLine s |}.
Definition unchanged (s : string) : Diff := {| Type_ := DiffEqual; Text := textLine s |}.

(** No colours; with and without prefixes. *)
Definition plainOptions (contextLines : Z) : DiffOptions :=
  {| UseColors := false;
     AddPrefix := "+";
     DeletePrefix := "-";
     ContextPrefix := " ";
     ContextLines := contextLines;
     ChunkSeparator := "...";
     Compact := true |}.

Definition bareOptions : DiffOptions :=
  {| UseColors := false;
     AddPrefix := EmptyString;
     DeletePrefix := EmptyString;
     ContextPrefix := EmptyString;
     ContextLines := 3;
     ChunkSeparator := "...";
     Compact := false |}.

(** A changed line, an unchanged one, a changed one, an unchanged one. *)
Definition nearbyChanges : list Diff :=
  [deleted "a"; unchanged "b"; inserted "c"; unchanged "d"].

(** A replaced line in the middle of a text; the last diff ends without a
    line feed. *)
Definition replacedLine : list Diff :=
  [{| Type_ := DiffEqual; Text := textLine "w" +:+ textLine "x" |};
   deleted "old"; inserted "new";
   {| Type_ := DiffEqual; Text := textLine "y" +:+ "z" |}].

(** [strings.ToLower] on ASCII letters, and [%q] on a string that needs no
    escape. *)
Definition lowerLetter (c : ascii) : ascii :=
  let n := nat_of_ascii c in
  if (65 <=? n)%nat && (n <=? 90)%nat then ascii_of_nat (n + 32) else c.

Fixpoint lowerASCII (s : string) : string :=
  match s with
  | EmptyString => EmptyString
  | String c rest => String (lowerLetter c) (lowerASCII rest)
  end.

Definition quoted (s : string) : string :=
  String (ascii_of_nat 34) s +:+ String (ascii_of_nat 34) EmptyString.

(** The input of a [function-extra-resources] step that asks for the
    config maps labelled [app: web], with one entry that has no kind;
    the decoder stands for [UnmarshalJSON] on that input. *)
Definition extraResourcesInput : Unstructured :=
  <["spec" := VMap (<["extraResources" :=
      VList [VMap (<["apiVersion" := VStr "v1"]>
                     (<["kind" := VStr "ConfigMap"]>
                        (<["selector" :=
                             VMap (<["matchLabels" :=
                                       VMap (<["app" := VStr "web"]> ∅)]> ∅)]> ∅)));
             VMap (<["apiVersion" := VStr "v1"]> ∅);
             VStr "not a map"]]> ∅)]> ∅.

Definition decodeInput (raw : string) : Unstructured + error :=
  inl extraResourcesInput.

Definition extraResourcesComp : EarlierProcessor.Composition :=
  {| EarlierProcessor.Mode := Some "Pipeline";
     EarlierProcessor.Pipeline :=
       [{| EarlierProcessor.FunctionRefName := "function-go-templating";
           EarlierProcessor.Input := Some "{}" |};
        {| EarlierProcessor.FunctionRefName := "function-extra-resources";
           EarlierProcessor.Input := Some "{}" |}] |}.

(** A cluster that holds two objects of the kind under the composite, and
    a [GetResource] that must not be called. *)
Definition twoUnderComposite (ns : string) (gvr : EarlierProcessor.GroupVersionResource)
  (sel : gmap string string) (w : nat) : (list Unstructured + error) * nat :=
  (inl [NewResource "example.org/v1" "TestResource" "first";
        NewResource "example.org/v1" "TestResource" "second"], S w).

Definition getFails (gvk : ClusterClient.GroupVersionKind) (ns name : string) (w : nat)
  : (Unstructured + ResourceManager.GetError) * nat :=
  (inr (ResourceManager.OtherError (New "must not be called")), S w).

(** A cluster in its first state, with an empty call log. *)
Definition start : Render.Env nat := {| Render.world := 0%nat; Render.calls := [] |}.

(** An XR that has only a [generateName]. *)
Definition generatedXR : Unstructured :=
  <["apiVersion" := VStr "example.org/v1"]>
    (<["kind" := VStr "XR1"]>
       (<["metadata" := VMap (<["generateName" := VStr "my-xr-"]> ∅)]> ∅)).

End MoreFixtures.

(** ** Part II: properties *)

(** *** Strings *)

Section StringFacts.

Lemma append_cons a (s t : string) : String a s +:+ t = String a (s +:+ t).
Proof. reflexivity. Qed.

Lemma string_length_app (s t : string) :
  String.length (s +:+ t) = String.length s + String.length t.
Proof.
  induction s as [|a s IH]; [done|].
  rewrite append_cons. simpl. by rewrite IH.
Qed.

Lemma string_app_cancel_r (k1 k2 t : string) : k1 +:+ t = k2 +:+ t -> k1 = k2.
Proof.
  revert k2. induction k1 as [|a k1 IH]; intros [|c k2] H; [done| | |].
  - apply (f_equal String.length) in H.
    rewrite append_cons in H. simpl in H. rewrite !string_length_app in H.
    simpl in H. lia.
  - apply (f_equal String.length) in H.
    rewrite append_cons in H. simpl in H. rewrite !string_length_app in H.
    simpl in H. lia.
  - rewrite !append_cons in H. injection H as -> H. f_equal. by apply IH.
Qed.

End StringFacts.

(** *** The render loop *)

Section RenderLoopFacts.
Import K8s Errors Api Render.

Context {W : Type}.
Variable RenderFunc : Inputs -> W -> (Outputs * option error) * W.
Variable ProvideRequirements :
  list Requirement -> W -> (list Unstructured + error) * W.
Variable xr : Unstructured.
Variable comp : Composition.
Variable fns : list Function.

Local Abbreviation iter := (renderIteration RenderFunc ProvideRequirements xr comp fns).
Local Abbreviation loop := (renderLoop RenderFunc ProvideRequirements xr comp fns).
Local Abbreviation inputsAt st :=
  {| CompositeResource := xr; Composition_ := comp; Functions := fns;
     ExtraResources := renderResources st |}.

(** The inner loop touches neither the iteration counter nor the last
    render result. *)
Lemma addDiscovered_frame l st b :
  iteration (addDiscovered l st b).1 = iteration st /\
  lastOutput (addDiscovered l st b).1 = lastOutput st /\
  lastRenderErr (addDiscovered l st b).1 = lastRenderErr st.
Proof.
  revert st b. induction l as [|res l IH]; intros st b; simpl; [done|].
  destruct (negb _); [|apply IH].
  destruct (IH {| renderResources := renderResources st ++ [res];
                  discoveredResources := discoveredResources st ++ [res];
                  discoveredResourcesMap :=
                    <[seenKey res := true]> (discoveredResourcesMap st);
                  lastOutput := lastOutput st;
                  lastRenderErr := lastRenderErr st;
                  iteration := iteration st |} true) as (H1 & H2 & H3).
  by rewrite H1, H2, H3.
Qed.

Lemma addDiscovered_found_true l st : (addDiscovered l st true).2 = true.
Proof.
  revert st. induction l as [|res l IH]; intros st; simpl; [done|].
  destruct (negb _); apply IH.
Qed.

(** [newResourcesFound] ends up set exactly when some resolved resource
    has a key the map did not hold before. *)
Lemma addDiscovered_found l st b :
  (addDiscovered l st b).2 =
  b || existsb (fun r => negb (isDiscovered (discoveredResourcesMap st) (seenKey r))) l.
Proof.
  revert st b. induction l as [|res l IH]; intros st b; simpl.
  - by rewrite orb_false_r.
  - destruct (negb (isDiscovered _ (seenKey res))) eqn:E; simpl.
    + rewrite addDiscovered_found_true. by rewrite orb_true_r.
    + apply IH.
Qed.

Lemma isDiscovered_insert m k k' :
  isDiscovered m k' = true -> isDiscovered (<[k := true]> m) k' = true.
Proof.
  unfold isDiscovered. intros H.
  destruct (decide (k = k')) as [->|Hne].
  - by rewrite lookup_insert_eq.
  - by rewrite lookup_insert_ne.
Qed.

(** Whatever the inner loop adds was resolved in this round and had an
    unseen key. *)
Lemma addDiscovered_elem l st b y :
  y ∈ renderResources (addDiscovered l st b).1 ->
  y ∈ renderResources st \/
  (y ∈ l /\ isDiscovered (discoveredResourcesMap st) (seenKey y) = false).
Proof.
  revert st b. induction l as [|res l IH]; intros st b; simpl; [by left|].
  destruct (isDiscovered (discoveredResourcesMap st) (seenKey res)) eqn:E; simpl.
  - intros H. destruct (IH _ _ H) as [?|[? ?]]; [by left|right].
    split; [apply elem_of_cons; by right|done].
  - intros H. destruct (IH _ _ H) as [Hin|[Hin Hns]]; simpl in *.
    + apply elem_of_app in Hin as [?|Hin]; [by left|].
      apply list_elem_of_singleton in Hin as ->. right. split; [apply elem_of_cons; by left|done].
    + right. split; [apply elem_of_cons; by right|].
      destruct (isDiscovered (discoveredResourcesMap st) (seenKey y)) eqn:E'; [|done].
      by rewrite (isDiscovered_insert _ (seenKey res) _ E') in Hns.
Qed.

Lemma seenInvariant_initial : seenInvariant initialState.
Proof. split; simpl; [constructor|]. intros r Hr. by apply elem_of_nil in Hr. Qed.

Lemma addDiscovered_invariant l st b :
  seenInvariant st -> seenInvariant (addDiscovered l st b).1.
Proof.
  revert st b. induction l as [|res l IH]; intros st b Hinv; simpl; [done|].
  destruct (isDiscovered (discoveredResourcesMap st) (seenKey res)) eqn:E; simpl.
  - by apply IH.
  - apply IH. destruct Hinv as [Hnd Hseen]. split; simpl.
    + rewrite fmap_app. apply NoDup_app. split; [done|]. split.
      * intros k Hk Hk'. apply list_elem_of_singleton in Hk'. subst k.
        apply list_elem_of_fmap in Hk as (r & Hkr & Hr).
        specialize (Hseen r Hr). rewrite <- Hkr in Hseen. congruence.
      * apply NoDup_singleton.
    + intros r Hr. apply elem_of_app in Hr as [Hr|Hr].
      * apply isDiscovered_insert. by apply Hseen.
      * apply list_elem_of_singleton in Hr as ->.
        unfold isDiscovered. by rewrite lookup_insert_eq.
Qed.

(** Unfolding one round of the [for] statement. *)
Lemma renderLoop_unfold n st e :
  loop (S n) st e =
  match iter st e with
  | (inl stop, e') => (stop, e')
  | (inr st', e') => loop n st' e'
  end.
Proof.
  simpl. unfold bind. destruct (iter st e) as [[stop|st'] e']; done.
Qed.

Lemma renderedExtras_app l1 l2 :
  renderedExtras (l1 ++ l2) = renderedExtras l1 ++ renderedExtras l2.
Proof. unfold renderedExtras. apply omap_app. Qed.

Lemma afterProvide_spec st r :
  seenInvariant st ->
  match afterProvide st r with
  | inr st' =>
      iteration st' = iteration st /\ lastOutput st' = lastOutput st /\
      lastRenderErr st' = lastRenderErr st /\ seenInvariant st'
  | inl (exit, st') =>
      iteration st' = iteration st /\ lastOutput st' = lastOutput st /\
      lastRenderErr st' = lastRenderErr st /\ resolutionExit exit
  end.
Proof.
  intros Hinv. unfold afterProvide. destruct r as [additional|perr]; [|done].
  destruct (Nat.eqb (length additional) 0); [done|].
  destruct (addDiscovered_frame additional st false) as (Hit & Hout & Herr).
  pose proof (addDiscovered_invariant additional st false Hinv) as Hinv'.
  destruct (addDiscovered additional st false) as [st' found]; simpl in *.
  by destruct found.
Qed.

(** The loop goes round again exactly when the provider succeeded with
    at least one resource whose key was not recorded yet. *)
Lemma afterProvide_continues st r :
  (exists st', afterProvide st r = inr st') <->
  (exists additional, r = inl additional /\
     exists x, x ∈ additional /\
               isDiscovered (discoveredResourcesMap st) (seenKey x) = false).
Proof.
  unfold afterProvide. destruct r as [additional|perr].
  2:{ split; [by intros [? ?]|by intros (? & ? & ?)]. }
  pose proof (addDiscovered_found additional st false) as Hfound.
  destruct (Nat.eqb (length additional) 0) eqn:Elen.
  - apply Nat.eqb_eq, nil_length_inv in Elen. subst additional. split.
    + by intros [? ?].
    + intros (? & [= <-] & x & Hx & _). by apply elem_of_nil in Hx.
  - destruct (addDiscovered additional st false) as [st' found]; simpl in *.
    subst found. split.
    + intros [st'' H]. exists additional. split; [done|].
      destruct (existsb _ additional) eqn:Eex; [|done].
      apply existsb_exists in Eex as (x & Hx & Hneg).
      exists x. split; [by apply list_elem_of_In|].
      by apply negb_true_iff in Hneg.
    + intros (? & [= <-] & x & Hx & Hns).
      assert (existsb (fun r => negb (isDiscovered (discoveredResourcesMap st)
                                         (seenKey r))) additional = true) as ->.
      { apply existsb_exists. exists x. split; [by apply list_elem_of_In|].
        by rewrite Hns. }
      by eexists.
Qed.

Lemma afterRender_spec st output renderErr e :
  seenInvariant st -> lastOutput st = output -> lastRenderErr st = renderErr ->
  exists new,
    calls (afterRender ProvideRequirements st output renderErr e).2
    = calls e ++ new /\
    renderedExtras new = [] /\
    match (afterRender ProvideRequirements st output renderErr e).1 with
    | inr st' => iteration st' = iteration st /\ seenInvariant st'
    | inl (exit, st') => iteration st' = iteration st /\ exitFacts exit st'
    end.
Proof.
  intros Hinv Hout Herr. unfold afterRender.
  assert (Hrest : exists new,
    calls ((if Nat.eqb (requirementCount output) 0
            then ret (W:=W) (inl (ExitNoRequirements, st))
            else bind (callProvide ProvideRequirements (default [] (Requirements output)))
                      (fun r => ret (afterProvide st r))) e).2 = calls e ++ new /\
    renderedExtras new = [] /\
    match ((if Nat.eqb (requirementCount output) 0
            then ret (W:=W) (inl (ExitNoRequirements, st))
            else bind (callProvide ProvideRequirements (default [] (Requirements output)))
                      (fun r => ret (afterProvide st r))) e).1 with
    | inr st' => iteration st' = iteration st /\ seenInvariant st'
    | inl (exit, st') => iteration st' = iteration st /\ exitFacts exit st'
    end).
  { destruct (Nat.eqb (requirementCount output) 0) eqn:Ereq.
    - apply Nat.eqb_eq in Ereq. exists []. simpl. rewrite app_nil_r, Hout.
      by repeat split.
    - apply Nat.eqb_neq in Ereq. unfold bind, callProvide, ret.
      destruct (ProvideRequirements _ (world e)) as [r w2]; simpl.
      eexists. split; [done|]. split; [done|].
      pose proof (afterProvide_spec st r Hinv) as Hspec.
      destruct (afterProvide st r) as [[exit st']|st'].
      + destruct Hspec as (Hit & Hout' & _ & Hexit). split; [done|].
        destruct exit; simpl in *; try done; by rewrite Hout', Hout.
      + by destruct Hspec as (Hit & _ & _ & Hinv'). }
  destruct renderErr as [err|]; [|by destruct (hasRequirements output)].
  destruct (hasRequirements output) eqn:Ehas; [done|].
  exists []. simpl. rewrite app_nil_r. repeat split; [done|].
  rewrite Hout. unfold hasRequirements in Ehas. by destruct (Requirements output).
Qed.

Lemma renderIteration_spec st e :
  seenInvariant st ->
  exists new,
    calls (iter st e).2 = calls e ++ new /\
    renderedExtras new = [renderResources st] /\
    match (iter st e).1 with
    | inr st' => iteration st' = S (iteration st) /\ seenInvariant st'
    | inl (exit, st') => iteration st' = S (iteration st) /\ exitFacts exit st'
    end.
Proof.
  intros Hinv. unfold renderIteration, bind, callRender.
  destruct (RenderFunc _ _) as [[output renderErr] w1]; simpl.
  match goal with
  | |- context [afterRender _ ?s _ _ ?env] =>
      destruct (afterRender_spec s output renderErr env Hinv eq_refl eq_refl)
        as (new & Hcalls & Hextras & Hres)
  end.
  exists (CallRender (inputsAt st) output renderErr :: new).
  split; [|split].
  - rewrite Hcalls. simpl. by rewrite <- app_assoc.
  - change (renderedExtras (?c :: ?l)) with (renderResources st :: renderedExtras l).
    by rewrite Hextras.
  - exact Hres.
Qed.

(** The loop as a whole: how far the counter moves, what the renderer was
    handed, and what holds at the exit taken. *)
Lemma renderLoop_spec n : forall st e,
  seenInvariant st ->
  exists new,
    calls (loop n st e).2 = calls e ++ new /\
    length (renderedExtras new) = iteration (loop n st e).1.2 - iteration st /\
    Forall (fun extras => NoDup (seenKey <$> extras)) (renderedExtras new) /\
    iteration st <= iteration (loop n st e).1.2 <= iteration st + n /\
    match (loop n st e).1.1 with
    | ExitMaxIterations => iteration (loop n st e).1.2 = iteration st + n
    | exit => exitFacts exit (loop n st e).1.2
    end.
Proof.
  induction n as [|n IH]; intros st e Hinv.
  - exists []. simpl. rewrite app_nil_r. repeat split; try lia. constructor.
  - rewrite renderLoop_unfold.
    destruct (renderIteration_spec st e Hinv) as (new1 & Hcalls & Hextras & Hres).
    destruct (iter st e) as [[[exit st']|st'] e']; simpl in *.
    + destruct Hres as [Hit Hexit]. exists new1.
      rewrite Hextras, Hit. simpl. repeat split; try lia; try done.
      * constructor; [apply Hinv|constructor].
      * by destruct exit.
    + destruct Hres as [Hit Hinv'].
      destruct (IH st' e' Hinv') as (new2 & Hcalls2 & Hlen & Hnd & Hbound & Hexit).
      exists (new1 ++ new2). rewrite Hcalls2, Hcalls, <- app_assoc.
      rewrite renderedExtras_app, Hextras, length_app, Hlen. simpl.
      repeat split; try lia.
      * constructor; [apply Hinv|done].
      * destruct ((loop n st' e').1.1); try done. lia.
Qed.

Lemma seenComplete_initial : seenComplete initialState.
Proof. intros k Hk. by vm_compute in Hk. Qed.

Lemma addDiscovered_complete l : forall st b,
  seenComplete st -> seenComplete (addDiscovered l st b).1.
Proof.
  induction l as [|res l IH]; intros st b Hc; simpl; [done|].
  destruct (negb _); [|by apply IH].
  apply IH. intros k Hk. simpl in *. unfold isDiscovered in Hk.
  destruct (decide (seenKey res = k)) as [<-|Hne].
  - exists res. split; [|done]. apply elem_of_app. right. by left.
  - rewrite lookup_insert_ne in Hk by done.
    destruct (Hc k Hk) as (y & Hy & Hky). exists y. split; [|done].
    apply elem_of_app. by left.
Qed.

(** When nothing new is found, the inner loop leaves the state alone. *)
Lemma addDiscovered_nothing l : forall st,
  (addDiscovered l st false).2 = false ->
  (addDiscovered l st false).1 = st /\
  forall x, x ∈ l -> isDiscovered (discoveredResourcesMap st) (seenKey x) = true.
Proof.
  induction l as [|res l IH]; intros st H; simpl in *.
  { split; [done|]. by intros x ?%elem_of_nil. }
  destruct (isDiscovered (discoveredResourcesMap st) (seenKey res)) eqn:E; simpl in *.
  - destruct (IH st H) as [Hst Hall]. split; [done|].
    intros x [->|Hx]%elem_of_cons; [done|by apply Hall].
  - by rewrite addDiscovered_found_true in H.
Qed.

Lemma afterProvide_exit st r exit st' :
  afterProvide st r = inl (exit, st') ->
  st' = st /\
  match exit with
  | ExitProvideFailed err => r = inr err
  | ExitNoResources => r = inl []
  | ExitNoNewResources =>
      exists answer,
        r = inl answer /\ answer <> [] /\
        forall x, x ∈ answer ->
                  isDiscovered (discoveredResourcesMap st) (seenKey x) = true
  | _ => False
  end.
Proof.
  unfold afterProvide. destruct r as [answer|err]; [|by intros [= <- <-]].
  destruct (Nat.eqb (length answer) 0) eqn:Elen.
  { apply Nat.eqb_eq, nil_length_inv in Elen. subst. by intros [= <- <-]. }
  pose proof (addDiscovered_nothing answer st) as Hnone.
  destruct (addDiscovered answer st false) as [st1 found]; simpl in *.
  destruct found; simpl; [done|]. intros [= <- <-].
  destruct (Hnone eq_refl) as [-> Hall]. split; [done|].
  exists answer. split; [done|]. split; [|done].
  intros ->. by simpl in Elen.
Qed.

Lemma afterProvide_next st r st' :
  seenInvariant st -> seenComplete st ->
  afterProvide st r = inr st' ->
  seenComplete st' /\
  lastOutput st' = lastOutput st /\ lastRenderErr st' = lastRenderErr st /\
  exists answer x,
    r = inl answer /\ x ∈ answer /\
    forall y, y ∈ renderResources st -> seenKey y <> seenKey x.
Proof.
  intros [_ Hseen] Hc Hnext.
  destruct (proj1 (afterProvide_continues st r) (ex_intro _ st' Hnext))
    as (answer & -> & x & Hx & Hnew).
  unfold afterProvide in Hnext.
  destruct (Nat.eqb (length answer) 0); [done|].
  pose proof (addDiscovered_complete answer st false Hc) as Hc'.
  destruct (addDiscovered_frame answer st false) as (_ & Hout & Herr).
  destruct (addDiscovered answer st false) as [st1 found]; simpl in *.
  destruct found; simpl in Hnext; [|done]. injection Hnext as <-.
  split; [done|]. split; [done|]. split; [done|].
  exists answer, x. split; [done|]. split; [done|].
  intros y Hy Hkey. specialize (Hseen y Hy). rewrite Hkey in Hseen. congruence.
Qed.

(** One iteration: its calls, and what they show when the loop is left or
    goes round again. *)
Lemma renderIteration_last st e :
  seenInvariant st -> seenComplete st ->
  exists last,
    calls (iter st e).2 = calls e ++ last /\
    match (iter st e).1 with
    | inl (exit, st') => exit <> ExitMaxIterations /\ lastIteration exit st' last
    | inr st' => seenComplete st' /\ lastIteration ExitMaxIterations st' last
    end.
Proof.
  intros Hinv Hc. unfold renderIteration, bind, callRender.
  destruct (RenderFunc _ _) as [[output renderErr] w1]; simpl.
  set (st1 := {| renderResources := renderResources st;
                 discoveredResources := discoveredResources st;
                 discoveredResourcesMap := discoveredResourcesMap st;
                 lastOutput := output; lastRenderErr := renderErr;
                 iteration := S (iteration st) |}).
  set (e1 := {| world := w1;
                calls := calls e ++ [CallRender (inputsAt st) output renderErr] |}).
  assert (Hinv1 : seenInvariant st1) by exact Hinv.
  assert (Hc1 : seenComplete st1) by exact Hc.
  assert (Hrest : exists last,
    calls ((if Nat.eqb (requirementCount output) 0
            then ret (W:=W) (inl (ExitNoRequirements, st1))
            else bind (callProvide ProvideRequirements (default [] (Requirements output)))
                      (fun r => ret (afterProvide st1 r))) e1).2 = calls e ++ last /\
    match ((if Nat.eqb (requirementCount output) 0
            then ret (W:=W) (inl (ExitNoRequirements, st1))
            else bind (callProvide ProvideRequirements (default [] (Requirements output)))
                      (fun r => ret (afterProvide st1 r))) e1).1 with
    | inl (exit, st') => exit <> ExitMaxIterations /\ lastIteration exit st' last
    | inr st' => seenComplete st' /\ lastIteration ExitMaxIterations st' last
    end).
  { destruct (Nat.eqb (requirementCount output) 0) eqn:Ereq.
    - apply Nat.eqb_eq in Ereq. eexists. simpl. split; [done|]. split; [done|].
      by exists (inputsAt st).
    - apply Nat.eqb_neq in Ereq. unfold bind, callProvide, ret.
      assert (Hreqs : exists reqs, Requirements output = Some reqs /\ reqs <> []).
      { unfold requirementCount in Ereq. destruct (Requirements output) as [reqs|]; [|done].
        exists reqs. split; [done|]. by intros ->. }
      destruct Hreqs as (reqs & Hreqs & Hne). rewrite Hreqs. simpl.
      destruct (ProvideRequirements reqs w1) as [r w2]; simpl.
      exists [CallRender (inputsAt st) output renderErr; CallProvide reqs r].
      split; [by rewrite <- app_assoc|].
      pose proof (afterProvide_exit st1 r) as Hexit.
      pose proof (afterProvide_next st1 r) as Hnext.
      destruct (afterProvide st1 r) as [[exit st']|st'].
      + destruct (Hexit exit st' eq_refl) as [-> Hcase].
        split; [by destruct exit|]. exists (inputsAt st). simpl.
        destruct exit; try done.
        * subst r. by exists reqs.
        * subst r. by exists reqs.
        * destruct Hcase as (answer & -> & Hanswer & Hall).
          exists reqs, answer. repeat split; try done.
          intros x Hx. by apply Hc, Hall.
      + destruct (Hnext st' Hinv1 Hc1 eq_refl)
          as (Hc' & Hout & Herr & answer & x & -> & Hx & Hnew).
        split; [done|]. exists (inputsAt st). simpl. rewrite Hout, Herr. simpl.
        by exists reqs, answer, x. }
  unfold afterRender.
  destruct renderErr as [err|]; [|by destruct (hasRequirements output)].
  destruct (hasRequirements output) eqn:Ehas; [done|].
  eexists. simpl. split; [done|]. split; [done|]. exists (inputsAt st). simpl.
  unfold hasRequirements in Ehas. by destruct (Requirements output).
Qed.

(** The loop, once entered: the log ends with the calls of its last
    iteration. *)
Lemma renderLoop_last n : forall st e,
  seenInvariant st -> seenComplete st ->
  exists earlier last,
    calls (loop (S n) st e).2 = calls e ++ earlier ++ last /\
    lastIteration (loop (S n) st e).1.1 (loop (S n) st e).1.2 last.
Proof.
  induction n as [|n IH]; intros st e Hinv Hc.
  - rewrite renderLoop_unfold.
    destruct (renderIteration_last st e Hinv Hc) as (last & Hcalls & Hcase).
    exists [], last.
    destruct (iter st e) as [[[exit st']|st'] e']; simpl in *; [by destruct Hcase|].
    by destruct Hcase.
  - rewrite renderLoop_unfold.
    destruct (renderIteration_last st e Hinv Hc) as (last & Hcalls & Hcase).
    pose proof (renderIteration_spec st e Hinv)
      as (new1 & _ & _ & Hres).
    destruct (iter st e) as [[[exit st']|st'] e']; cbn [fst snd] in *.
    + exists [], last. by destruct Hcase.
    + destruct Hres as [_ Hinv']. destruct Hcase as [Hc' _].
      destruct (IH st' e' Hinv' Hc') as (earlier & last' & Hcalls' & Hlast).
      exists (last ++ earlier), last'. split; [|done].
      by rewrite Hcalls', Hcalls, <- !app_assoc.
Qed.

(** C1, as amended.  Every run of the render loop of
    [RenderWithRequirements] performs at most [maxIterations] = 10
    iterations, one render call each, and the call log ends with the
    calls of the iteration at which the loop was left: a render call
    whose output has no requirements; a render call followed by a
    provider call that answered with no resource at all, or only with
    resources whose seen-set key is the key of a resource the renderer
    had already been handed; a failed render call without a requirements
    collection, or a failed provider call (the two aborts); or, after
    exactly 10 iterations, a tenth iteration whose provider call still
    answered with a resource under a new key. *)
Theorem render_loop_bounded (e : Env W) :
  let r := loop maxIterations initialState e in
  exists new earlier i,
    let output := lastOutput r.1.2 in
    let render := CallRender i output (lastRenderErr r.1.2) in
    calls r.2 = calls e ++ new /\
    length (renderedExtras new) = iteration r.1.2 /\
    iteration r.1.2 <= 10 /\
    match r.1.1 with
    | ExitNoRequirements =>
        new = earlier ++ [render] /\ requirementCount output = 0
    | ExitNoResources =>
        exists reqs,
          Requirements output = Some reqs /\ reqs <> [] /\
          new = earlier ++ [render; CallProvide reqs (inl [])]
    | ExitNoNewResources =>
        exists reqs answer,
          Requirements output = Some reqs /\ reqs <> [] /\
          new = earlier ++ [render; CallProvide reqs (inl answer)] /\
          answer <> [] /\
          forall x, x ∈ answer ->
                    exists y, y ∈ ExtraResources i /\ seenKey y = seenKey x
    | ExitRenderFailed err =>
        new = earlier ++ [render] /\ lastRenderErr r.1.2 = Some err /\
        Requirements output = None
    | ExitProvideFailed err =>
        exists reqs,
          Requirements output = Some reqs /\ reqs <> [] /\
          new = earlier ++ [render; CallProvide reqs (inr err)]
    | ExitMaxIterations =>
        iteration r.1.2 = 10 /\
        exists reqs answer x,
          Requirements output = Some reqs /\ reqs <> [] /\
          new = earlier ++ [render; CallProvide reqs (inl answer)] /\
          x ∈ answer /\
          forall y, y ∈ ExtraResources i -> seenKey y <> seenKey x
    end.
Proof.
  intros r. subst r.
  destruct (renderLoop_spec maxIterations initialState e seenInvariant_initial)
    as (new & Hcalls & Hlen & _ & Hbound & Hexit).
  assert (Hten : iteration (loop maxIterations initialState e).1.2 <= 10).
  { change (iteration initialState + maxIterations) with 10 in Hbound. lia. }
  assert (Hmax : (loop maxIterations initialState e).1.1 = ExitMaxIterations ->
                 iteration (loop maxIterations initialState e).1.2 = 10).
  { intros Hmax. rewrite Hmax in Hexit. exact Hexit. }
  destruct (renderLoop_last 9 initialState e seenInvariant_initial seenComplete_initial)
    as (earlier & last & Hcalls' & i & Hlast).
  change (S 9) with maxIterations in *.
  assert (Hnew : new = earlier ++ last).
  { rewrite Hcalls in Hcalls'. by apply app_inv_head in Hcalls'. }
  exists new, earlier, i. cbv zeta in Hlast. cbv zeta.
  simpl in Hlen. rewrite Nat.sub_0_r in Hlen.
  split; [done|]. split; [done|]. split; [done|]. rewrite Hnew.
  destruct ((loop maxIterations initialState e).1.1).
  - destruct Hlast as (-> & ? & ?). done.
  - destruct Hlast as (-> & ?). done.
  - destruct Hlast as (reqs & ? & ? & ->). by exists reqs.
  - destruct Hlast as (reqs & ? & ? & ->). by exists reqs.
  - destruct Hlast as (reqs & answer & ? & ? & -> & ? & ?). by exists reqs, answer.
  - destruct Hlast as (reqs & answer & x & ? & ? & -> & ? & ?).
    split; [by apply Hmax|]. by exists reqs, answer, x.
Qed.

(** Whatever the composition's mode, [RenderWithRequirements] makes at
    most ten render calls. *)
Corollary RenderWithRequirements_render_calls e new :
  calls (RenderWithRequirements RenderFunc ProvideRequirements xr comp fns e).2
  = calls e ++ new ->
  length (renderedExtras new) <= 10.
Proof.
  destruct (notPipeline comp) eqn:Emode.
  - unfold RenderWithRequirements. rewrite Emode.
    unfold callRender. destruct (RenderFunc _ _) as [[o err] w']; cbn [snd calls].
    intros <-%app_inv_head. simpl. lia.
  - unfold RenderWithRequirements. rewrite Emode. unfold bind at 1. unfold ret.
    change (maxIterations - iteration initialState) with maxIterations.
    destruct (renderLoop_spec maxIterations initialState e seenInvariant_initial)
      as (new' & Hcalls & Hlen & _ & Hbound & _).
    destruct (loop maxIterations initialState e) as [r e']; cbn [fst snd] in *.
    rewrite Hcalls. intros <-%app_inv_head. rewrite Hlen.
    unfold maxIterations in Hbound. simpl in Hbound. lia.
Qed.

(** A render call that returns an error, case by case.  If its output
    has no requirements collection (nil), the loop is left at once and
    the result is empty outputs with the error wrapped in [cannot render
    resources].  If the collection is there but empty, the loop is left
    at once with that output and the error as it came.  If the collection
    is not empty, the render-failure check does not abort: the provider
    is asked, and the loop goes round again exactly when it answers with
    at least one resource not seen before; otherwise the loop ends there,
    with the provider's error, or with the last output and the render
    error as it came. *)
Lemma render_error_cases st e n output err w1 :
  RenderFunc (inputsAt st) (world e) = ((output, Some err), w1) ->
  let e1 := {| world := w1;
               calls := calls e ++ [CallRender (inputsAt st) output (Some err)] |} in
  (Requirements output = None ->
     (loop (S n) st e).2 = e1 /\
     loopResult (loop (S n) st e).1
     = (emptyOutputs, Some (Wrap err "cannot render resources"))) /\
  (Requirements output = Some [] ->
     (loop (S n) st e).2 = e1 /\
     loopResult (loop (S n) st e).1 = (output, Some err)) /\
  (requirementCount output <> 0 ->
     let reqs := default [] (Requirements output) in
     let r := (ProvideRequirements reqs w1).1 in
     calls (iter st e).2 = calls e1 ++ [CallProvide reqs r] /\
     ((exists st', (iter st e).1 = inr st') <->
      (exists additional, r = inl additional /\
         exists x, x ∈ additional /\
                   isDiscovered (discoveredResourcesMap st) (seenKey x) = false)) /\
     (forall exit st', (iter st e).1 = inl (exit, st') ->
        match exit with
        | ExitProvideFailed perr => r = inr perr
        | ExitNoResources | ExitNoNewResources =>
            loopResult (exit, st') = (output, Some err)
        | _ => False
        end)).
Proof.
  intros Hrender e1. split; [|split].
  - intros Hnil. rewrite renderLoop_unfold.
    unfold renderIteration, bind, callRender. rewrite Hrender. simpl.
    unfold afterRender, hasRequirements. rewrite Hnil. done.
  - intros Hempty. rewrite renderLoop_unfold.
    unfold renderIteration, bind, callRender. rewrite Hrender. simpl.
    unfold afterRender, hasRequirements, requirementCount. rewrite Hempty. done.
  - intros Hcount reqs r.
    unfold renderIteration, bind, callRender. rewrite Hrender. simpl.
    unfold afterRender.
    assert (hasRequirements output = true) as ->.
    { unfold hasRequirements, requirementCount in *.
      by destruct (Requirements output). }
    apply Nat.eqb_neq in Hcount. rewrite Hcount.
    unfold bind, callProvide, ret. simpl. subst r reqs.
    destruct (ProvideRequirements _ w1) as [r w2]; simpl.
    set (st1 := {| renderResources := renderResources st;
                   discoveredResources := discoveredResources st;
                   discoveredResourcesMap := discoveredResourcesMap st;
                   lastOutput := output; lastRenderErr := Some err;
                   iteration := S (iteration st) |}).
    split; [done|]. split.
    + apply (afterProvide_continues st1 r).
    + intros exit st' Hexit. unfold afterProvide in Hexit.
      destruct r as [additional|perr]; [|by injection Hexit as <- <-].
      destruct (Nat.eqb (length additional) 0); [by injection Hexit as <- <-|].
      destruct (addDiscovered_frame additional st1 false) as (_ & Hout & Herr).
      destruct (addDiscovered additional st1 false) as [st'' found]; simpl in *.
      destruct found; simpl in Hexit; [done|]. injection Hexit as <- <-.
      unfold loopResult. simpl. by rewrite Hout, Herr.
Qed.

Lemma addDiscovered_records l : forall st b r,
  r ∈ l ->
  isDiscovered (discoveredResourcesMap (addDiscovered l st b).1) (seenKey r) = true.
Proof.
  assert (Hmono : forall l st b k,
    isDiscovered (discoveredResourcesMap st) k = true ->
    isDiscovered (discoveredResourcesMap (addDiscovered l st b).1) k = true).
  { clear l. induction l as [|res l IH]; intros st b k Hk; simpl; [done|].
    destruct (negb _); apply IH; [|done]. simpl. by apply isDiscovered_insert. }
  induction l as [|res l IH]; intros st b r Hr; [by apply elem_of_nil in Hr|].
  apply elem_of_cons in Hr as [->|Hr]; simpl.
  - destruct (isDiscovered (discoveredResourcesMap st) (seenKey res)) eqn:E; simpl.
    + by apply Hmono.
    + apply Hmono. simpl. unfold isDiscovered. by rewrite lookup_insert_eq.
  - destruct (negb _); by apply IH.
Qed.

Lemma NoDup_fmap_same_key {A B} (f : A -> B) (l : list A) x y :
  NoDup (f <$> l) -> x ∈ l -> y ∈ l -> f x = f y -> x = y.
Proof.
  induction l as [|a l IH]; intros Hnd Hx Hy Hf; [by apply elem_of_nil in Hx|].
  rewrite fmap_cons in Hnd. apply NoDup_cons in Hnd as [Hni Hnd].
  apply elem_of_cons in Hx as [->|Hx]; apply elem_of_cons in Hy as [->|Hy];
    [done| | |by apply IH].
  - exfalso. apply Hni. rewrite Hf. by apply list_elem_of_fmap_2.
  - exfalso. apply Hni. rewrite <- Hf. by apply list_elem_of_fmap_2.
Qed.

Lemma RenderWithRequirements_pipeline e :
  notPipeline comp = false ->
  RenderWithRequirements RenderFunc ProvideRequirements xr comp fns e
  = (loopResult (loop maxIterations initialState e).1,
     (loop maxIterations initialState e).2).
Proof.
  unfold RenderWithRequirements. intros ->. unfold bind at 1. unfold ret.
  change (maxIterations - iteration initialState) with maxIterations.
  by destruct (loop maxIterations initialState e).
Qed.

(** Every render call of [RenderWithRequirements] is handed extra
    resources with pairwise distinct seen-set keys. *)
Lemma RenderWithRequirements_extras e new :
  calls (RenderWithRequirements RenderFunc ProvideRequirements xr comp fns e).2
  = calls e ++ new ->
  Forall (fun extras => NoDup (seenKey <$> extras)) (renderedExtras new).
Proof.
  destruct (notPipeline comp) eqn:Emode.
  - unfold RenderWithRequirements. rewrite Emode.
    unfold callRender. destruct (RenderFunc _ _) as [[o err] w']; cbn [snd calls].
    intros <-%app_inv_head. repeat constructor.
  - rewrite (RenderWithRequirements_pipeline e Emode). cbn [snd].
    destruct (renderLoop_spec maxIterations initialState e seenInvariant_initial)
      as (new' & Hcalls & _ & Hnd & _).
    rewrite Hcalls. by intros <-%app_inv_head.
Qed.

(** C10.  The seen-set key of the render loop is [apiVersion/name]: two
    distinct resources with the same apiVersion and name (differing in
    kind or namespace) have the same key, so once the first has passed
    the inner loop its key is recorded, the second is classified as
    already discovered and is not added, and no render call of
    [RenderWithRequirements] is ever handed both; the key of removal
    detection, [apiVersion/kind/name], does tell different kinds apart. *)
Theorem seen_key_collision r1 r2 :
  GetAPIVersion r1 = GetAPIVersion r2 -> GetName r1 = GetName r2 -> r1 <> r2 ->
  seenKey r1 = seenKey r2 /\
  (forall l st b, r1 ∈ l ->
     isDiscovered (discoveredResourcesMap (addDiscovered l st b).1) (seenKey r1)
     = true) /\
  (forall st l b,
     isDiscovered (discoveredResourcesMap st) (seenKey r1) = true ->
     r2 ∉ renderResources st ->
     r2 ∉ renderResources (addDiscovered l st b).1) /\
  (forall e new,
     calls (RenderWithRequirements RenderFunc ProvideRequirements xr comp fns e).2
     = calls e ++ new ->
     forall extras, extras ∈ renderedExtras new -> ~ (r1 ∈ extras /\ r2 ∈ extras)) /\
  (GetKind r1 <> GetKind r2 ->
   ResourceManager.resourceKey r1 <> ResourceManager.resourceKey r2).
Proof.
  intros Hv Hn Hne.
  assert (Hkey : seenKey r1 = seenKey r2) by (unfold seenKey; by rewrite Hv, Hn).
  split; [done|]. split; [|split; [|split]].
  - intros l st b Hin. by apply addDiscovered_records.
  - intros st l b Hseen Hnot Hin.
    apply addDiscovered_elem in Hin as [Hin|[_ Huns]]; [done|].
    rewrite <- Hkey in Huns. congruence.
  - intros e new Hcalls extras Hex [H1 H2].
    pose proof (RenderWithRequirements_extras e new Hcalls) as Hall.
    rewrite Forall_forall in Hall. specialize (Hall extras Hex).
    apply Hne. by apply (NoDup_fmap_same_key seenKey extras).
  - intros Hk Heq. unfold ResourceManager.resourceKey in Heq.
    rewrite Hv, Hn in Heq. apply (inj (String.app _)) in Heq.
    apply (inj (String.app _)) in Heq.
    by apply string_app_cancel_r in Heq.
Qed.

End RenderLoopFacts.

(** *** The render loop on concrete collaborators *)

Section RenderLoopExamples.
Import K8s Errors Api Render Fixtures.

(** C1, as stated, fails: the renderer asks for a resource the cluster
    does not have, the provider resolves the requirement to nothing, and
    the loop is left after one iteration whose output still carries the
    requirement. *)
Lemma render_loop_exit_counterexample :
  let r := renderLoop demandingRender emptyProvider myXR pipelineComp []
             maxIterations initialState env0 in
  ~ (requirementCount (lastOutput r.1.2) = 0 \/ iteration r.1.2 = 10).
Proof. vm_compute. intros [H|H]; discriminate H. Qed.

(** The same run, exit by exit. *)
Example render_loop_exit_example :
  let r := renderLoop demandingRender emptyProvider myXR pipelineComp []
             maxIterations initialState env0 in
  r.1.1 = ExitNoResources /\ iteration r.1.2 = 1 /\
  requirementCount (lastOutput r.1.2) = 1.
Proof. by vm_compute. Qed.

(** A renderer that never stops asking, against a cluster that always has
    one more resource, is cut off after ten render calls. *)
Example render_loop_cap_example :
  let r := renderLoop countingRender freshProvider myXR pipelineComp []
             maxIterations initialState {| world := 0; calls := [] |} in
  r.1.1 = ExitMaxIterations /\ iteration r.1.2 = 10 /\
  length (renderedExtras (calls r.2)) = 10 /\
  length (renderResources r.1.2) = 10.
Proof. by vm_compute. Qed.

(** A render call that fails with a non-empty requirements collection
    does not abort the loop: with a cluster that has the resource the loop
    goes round again, and with one that has not it ends at the provider's
    empty answer, as it does without a render error. *)
Example render_error_goes_on_example :
  (exists st',
     (renderIteration failingRender configProvider myXR pipelineComp []
        initialState env0).1 = inr st') /\
  (renderLoop failingRender emptyProvider myXR pipelineComp []
     maxIterations initialState env0).1.1 = ExitNoResources.
Proof.
  split; [|by vm_compute].
  destruct (render_error_cases failingRender configProvider myXR pipelineComp []
              initialState env0 0 demandOutput renderFailure tt eq_refl)
    as (_ & _ & H).
  destruct (H ltac:(discriminate)) as (_ & Hiff & _).
  apply Hiff. exists [sharedConfigMap]. split; [reflexivity|].
  exists sharedConfigMap. split; [constructor|reflexivity].
Qed.

(** In that run [RenderWithRequirements] hands back the last output with
    the render error as it came. *)
Example render_error_unwrapped_example :
  (RenderWithRequirements failingRender emptyProvider myXR pipelineComp [] env0).1
  = (demandOutput, Some renderFailure).
Proof. by vm_compute. Qed.

(** C3.  The abort half of the claim fails on the code for a render call
    that returns an error together with a requirements collection that is
    there but empty.  The output has no requirement to use, yet
    [RenderWithRequirements] does not abort with the error wrapped in
    [cannot render resources], as it does for a nil collection: the
    reflection test only asks whether the field is nil, the loop is left
    at the no-requirements check, and the caller gets that output with
    the render error as it came, after one render call and no provider
    call. *)
Theorem render_error_empty_requirements :
  let inputs := {| CompositeResource := myXR; Composition_ := pipelineComp;
                   Functions := []; ExtraResources := [] |} in
  let r := RenderWithRequirements emptyHandedRender emptyProvider myXR pipelineComp []
             env0 in
  emptyHandedRender inputs tt = ((emptyRequirementsOutput, Some renderFailure), tt) /\
  requirementCount emptyRequirementsOutput = 0 /\
  r.1 = (emptyRequirementsOutput, Some renderFailure) /\
  r.1 <> (emptyOutputs, Some (Wrap renderFailure "cannot render resources")) /\
  calls r.2 = [CallRender inputs emptyRequirementsOutput (Some renderFailure)] /\
  (RenderWithRequirements fatalRender emptyProvider myXR pipelineComp [] env0).1
  = (emptyOutputs, Some (Wrap renderFailure "cannot render resources")).
Proof.
  cbv zeta. split; [reflexivity|]. split; [reflexivity|].
  split; [by vm_compute|]. split; [|split; by vm_compute].
  vm_compute. discriminate.
Qed.

Lemma seen_key_collision_witness :
  seenKey sharedConfigMap = seenKey sharedSecret /\
  ResourceManager.resourceKey sharedConfigMap <> ResourceManager.resourceKey sharedSecret.
Proof.
  assert (Hne : sharedConfigMap <> sharedSecret).
  { intros H. apply (f_equal GetKind) in H. vm_compute in H. discriminate H. }
  destruct (seen_key_collision demandingRender twinProvider myXR pipelineComp []
              sharedConfigMap sharedSecret eq_refl eq_refl Hne)
    as (Hkey & _ & _ & _ & Hrk).
  split; [exact Hkey|]. apply Hrk. vm_compute. discriminate.
Defined.

(** The provider answers with both twins in every round; only the first
    reaches the renderer. *)
Example seen_key_collision_example :
  renderedExtras
    (calls (RenderWithRequirements demandingRender twinProvider myXR pipelineComp []
              env0).2)
  = [[]; [sharedConfigMap]].
Proof. by vm_compute. Qed.

End RenderLoopExamples.

(** *** Compositions that are not in Pipeline mode *)

Section NonPipelineFacts.
Import K8s Errors Api Render Processor.

Context {W Diffs : Type}.
Variable RenderFunc : Inputs -> W -> (Outputs * option error) * W.
Variable ProvideRequirements :
  list Requirement -> W -> (list Unstructured + error) * W.
Variable FromUnstructured : Unstructured -> Unstructured + error.
Variable Merge : Unstructured -> Unstructured -> Unstructured + error.
Variable ValidateResources : Unstructured -> list Unstructured -> option error.
Variable CalculateDiffs : Unstructured -> Outputs -> Diffs * option error.
Variable RenderDiffs : Diffs -> option error.

(** C4, as amended.  Called on a composition whose mode is unset or not
    [Pipeline], [RenderWithRequirements] performs exactly one render
    call, with empty extra resources, returns what that call returns and
    never asks the requirements provider.  [ProcessResource] does not get
    that far for such a composition: [GetFunctionsFromPipeline] rejects
    it first, and the resource fails, without any render call, with that
    error wrapped in [cannot get functions from pipeline]. *)
Theorem non_pipeline_single_render caches res xr comp fns e :
  notPipeline comp = true ->
  (let i := {| CompositeResource := xr; Composition_ := comp;
               Functions := fns; ExtraResources := [] |} in
   let r := RenderFunc i (world e) in
   RenderWithRequirements RenderFunc ProvideRequirements xr comp fns e
   = (r.1, {| world := r.2; calls := calls e ++ [CallRender i r.1.1 r.1.2] |})) /\
  (SanitizeXR FromUnstructured res = inl xr ->
   ClusterClient.FindMatchingComposition caches res = inl comp ->
   exists err,
     ClusterClient.GetFunctionsFromPipeline caches comp = inr err /\
     (err = New "Unsupported Composition; no Mode found." \/
      exists m, Mode comp = Some m /\
                err = New ("Unsupported composition Mode '" +:+ m
                           +:+ "'; supported types are [Pipeline]")) /\
     ProcessResource RenderFunc ProvideRequirements (DefaultClusterClient caches)
       FromUnstructured Merge ValidateResources CalculateDiffs RenderDiffs res e
     = (Some (Wrap err "cannot get functions from pipeline"), e)).
Proof.
  intros Hmode. split.
  - unfold RenderWithRequirements. rewrite Hmode. unfold callRender.
    by destruct (RenderFunc _ _) as [[o err] w'].
  - intros Hxr Hcomp.
    assert (Hfn : exists err,
      ClusterClient.GetFunctionsFromPipeline caches comp = inr err /\
      (err = New "Unsupported Composition; no Mode found." \/
       exists m, Mode comp = Some m /\
                 err = New ("Unsupported composition Mode '" +:+ m
                            +:+ "'; supported types are [Pipeline]"))).
    { unfold ClusterClient.GetFunctionsFromPipeline, notPipeline in *.
      destruct (Mode comp) as [m|]; [|eexists; split; [done|by left]].
      apply negb_true_iff in Hmode. rewrite Hmode.
      eexists. split; [done|]. right. by exists m. }
    destruct Hfn as (err & Hfn & Hmsg). exists err. split; [done|]. split; [done|].
    unfold ProcessResource. rewrite Hxr. simpl. by rewrite Hcomp, Hfn.
Qed.

End NonPipelineFacts.

Section NonPipelineExamples.
Import K8s Errors Api Render Processor Fixtures.

(** C4, as stated, fails: for a cached composition in mode [NonPipeline]
    [ProcessResource] performs no render call at all. *)
Lemma non_pipeline_counterexample :
  ClusterClient.FindMatchingComposition (cachesWith nonPipelineComp) myXR
  = inl nonPipelineComp /\
  notPipeline nonPipelineComp = true /\
  ~ (renderedExtras
       (calls (ProcessResource quietRender emptyProvider
                 (DefaultClusterClient (cachesWith nonPipelineComp))
                 convertOk mergeOver validateOk noDiffs printOk myXR env0).2)
     = [[]]).
Proof. split; [by vm_compute|]. split; [by vm_compute|]. vm_compute. discriminate. Qed.

(** What it fails with. *)
Example non_pipeline_error_example :
  fmap Error
    (ProcessResource quietRender emptyProvider
       (DefaultClusterClient (cachesWith nonPipelineComp))
       convertOk mergeOver validateOk noDiffs printOk myXR env0).1
  = Some ("cannot get functions from pipeline: " +:+
          "Unsupported composition Mode 'NonPipeline'; supported types are [Pipeline]").
Proof. by vm_compute. Qed.

(** A Pipeline composition does reach the renderer. *)
Example pipeline_reaches_render_example :
  let r := ProcessResource quietRender emptyProvider
             (DefaultClusterClient (cachesWith pipelineComp))
             convertOk mergeOver validateOk noDiffs printOk myXR env0 in
  r.1 = None /\ renderedExtras (calls r.2) = [[]].
Proof. by vm_compute. Qed.

Lemma non_pipeline_single_render_witness :
  notPipeline nonPipelineComp = true /\
  renderedExtras
    (calls (RenderWithRequirements quietRender emptyProvider myXR nonPipelineComp []
              env0).2) = [[]] /\
  providedRequests
    (calls (RenderWithRequirements quietRender emptyProvider myXR nonPipelineComp []
              env0).2) = [] /\
  (ProcessResource quietRender emptyProvider
     (DefaultClusterClient (cachesWith nonPipelineComp))
     convertOk mergeOver validateOk noDiffs printOk myXR env0).2 = env0.
Proof.
  destruct (non_pipeline_single_render (Diffs:=unit) quietRender emptyProvider
              convertOk mergeOver validateOk noDiffs printOk
              (cachesWith nonPipelineComp) myXR myXR nonPipelineComp [] env0 eq_refl)
    as [Hrender Hprocess].
  split; [reflexivity|]. rewrite Hrender. split; [reflexivity|]. split; [reflexivity|].
  destruct (Hprocess eq_refl eq_refl) as (err & _ & _ & ->). reflexivity.
Defined.

End NonPipelineExamples.

(** *** Composition matching *)

Section CompositionMatching.
Import K8s Errors Api ClusterClient.












End CompositionMatching.

Section CompositionMatchingExamples.
Import K8s Errors Api ClusterClient Fixtures.


(** The rows of the test table that select by type. *)
Example no_matching_composition_example :
  fmap Error
    (match FindMatchingComposition
             (cachesWith {| comp_name := "non-matching-comp"; comp_labels := ∅;
                            CompositeTypeRef :=
                              {| ref_apiVersion := "example.org/v1";
                                 ref_kind := "OtherXR" |};
                            Mode := Some "Pipeline"; Pipeline := [] |})
             myXR with
     | inl _ => None
     | inr err => Some err
     end)
  = Some "no composition found for example.org/v1, Kind=XR1".
Proof. by vm_compute. Qed.

Example different_versions_example :
  fmap Error
    (match FindMatchingComposition
             (cachesWith {| comp_name := "version-mismatch-comp"; comp_labels := ∅;
                            CompositeTypeRef :=
                              {| ref_apiVersion := "example.org/v2";
                                 ref_kind := "XR1" |};
                            Mode := Some "Pipeline"; Pipeline := [] |})
             myXR with
     | inl _ => None
     | inr err => Some err
     end)
  = Some "no composition found for example.org/v1, Kind=XR1".
Proof. by vm_compute. Qed.

Example matching_composition_example :
  FindMatchingComposition (cachesWith pipelineComp) myXR = inl pipelineComp.
Proof. by vm_compute. Qed.


Example claim_effective_type_example :
  effectiveGVK
    [plainXRD; exampleXRD [xrdVersion "v1" false; xrdVersion "v2" true;
                           xrdVersion "v3alpha1" false]]
    testClaim
  = inl {| Group := "example.org"; Version := "v2"; Kind := "XExampleResource" |}.
Proof. by vm_compute. Qed.

(** A composition for the claim's own version v1 is not compatible. *)
Example claim_own_version_example :
  fmap Error
    (match FindMatchingComposition
             (claimCaches "example.org/v1"
                [xrdVersion "v1" false; xrdVersion "v2" true])
             testClaim with
     | inl _ => None
     | inr err => Some err
     end)
  = Some ("composition matching-comp is not compatible with "
          +:+ "example.org/v2, Kind=XExampleResource").
Proof. by vm_compute. Qed.

End CompositionMatchingExamples.

(** *** The XRD cache *)

Section XRDCacheFacts.
Import K8s Errors Api ClusterClient.

Context {W : Type}.
Variable listXRDs : W -> (list Unstructured + error) * W.

Lemma successfulLists_app l1 l2 :
  successfulLists (l1 ++ l2) = successfulLists l1 ++ successfulLists l2.
Proof. unfold successfulLists. apply omap_app. Qed.

(** With the flag set, calls are answered from the cache. *)
Lemma GetXRDsTimes_loaded n c a :
  xrdsLoaded c = true ->
  GetXRDsTimes listXRDs n c a = (replicate n (inl (xrds c)), c, a).
Proof.
  intros Hloaded. induction n as [|n IH]; [done|].
  simpl. unfold GetXRDs. rewrite Hloaded. by rewrite IH.
Qed.

Lemma GetXRDs_success c a l c1 a1 :
  GetXRDs listXRDs c a = (inl l, c1, a1) ->
  xrdsLoaded c1 = true /\ xrds c1 = l.
Proof.
  unfold GetXRDs. destruct (xrdsLoaded c) eqn:Eloaded.
  - by intros [= <- <- <-].
  - destruct (listXRDs (server a)) as [[l'|err] w']; [|done].
    by intros [= <- <- <-].
Qed.

Lemma GetXRDsTimes_calls n : forall c a,
  exists new,
    listCalls (GetXRDsTimes listXRDs n c a).2 = listCalls a ++ new /\
    length (successfulLists new) <= 1 /\
    (xrdsLoaded c = true -> new = []).
Proof.
  induction n as [|n IH]; intros c a.
  { exists []. simpl. rewrite app_nil_r. split; [done|]. split; [lia|done]. }
  destruct (xrdsLoaded c) eqn:Eloaded.
  { rewrite GetXRDsTimes_loaded by done. exists []. simpl. rewrite app_nil_r.
    split; [done|]. split; [lia|done]. }
  simpl. unfold GetXRDs. rewrite Eloaded.
  destruct (listXRDs (server a)) as [[l|err] w'].
  - rewrite GetXRDsTimes_loaded by done. exists [inl l]. simpl.
    split; [done|]. split; [lia|done].
  - destruct (IH c {| server := w'; listCalls := listCalls a ++ [inr err] |})
      as (new & Hcalls & Hlen & _).
    destruct (GetXRDsTimes listXRDs n c _) as [[rs c'] a']. simpl in *.
    exists (inr err :: new). rewrite Hcalls, <- app_assoc.
    split; [done|]. split; [exact Hlen|done].
Qed.

(** C6.  [GetXRDs] is memoised.  A successful call, whatever list it
    returns (the empty one included), sets the loaded flag, and every
    later call returns that same list without a list call to the API;
    over any number of calls from any cache state, at most one list call
    succeeds, and none is made when the flag was already set. *)
Theorem get_xrds_memoised :
  (forall c a l c1 a1,
     GetXRDs listXRDs c a = (inl l, c1, a1) ->
     xrdsLoaded c1 = true /\ xrds c1 = l /\
     forall n, GetXRDsTimes listXRDs n c1 a1 = (replicate n (inl l), c1, a1)) /\
  (forall n c a,
     exists new,
       listCalls (GetXRDsTimes listXRDs n c a).2 = listCalls a ++ new /\
       length (successfulLists new) <= 1 /\
       (xrdsLoaded c = true -> new = [])).
Proof.
  split.
  - intros c a l c1 a1 Hcall.
    destruct (GetXRDs_success c a l c1 a1 Hcall) as [Hloaded Hxrds].
    split; [done|]. split; [done|]. intros n.
    rewrite (GetXRDsTimes_loaded n c1 a1 Hloaded). by rewrite Hxrds.
  - intros n c a. apply GetXRDsTimes_calls.
Qed.

End XRDCacheFacts.

Section XRDCacheExamples.
Import K8s Errors Api ClusterClient Fixtures.

(** Four calls against a server that fails once and then returns an empty
    list: two list calls are made, one succeeds, and the last two calls
    are served from the cache. *)
Example get_xrds_example :
  GetXRDsTimes flakyList 4 coldCaches {| server := 0; listCalls := [] |}
  = ([inr (Wrap (New "list error") "cannot list XRDs"); inl []; inl []; inl []],
     {| compositions := ∅; functions := ∅; xrds := []; xrdsLoaded := true |},
     {| server := 2; listCalls := [inr (New "list error"); inl []] |}).
Proof. reflexivity. Qed.

Lemma get_xrds_memoised_witness :
  GetXRDs flakyList coldCaches {| server := 1; listCalls := [] |}
  = (inl [],
     {| compositions := ∅; functions := ∅; xrds := []; xrdsLoaded := true |},
     {| server := 2; listCalls := [inl []] |}) /\
  GetXRDsTimes flakyList 3
    {| compositions := ∅; functions := ∅; xrds := []; xrdsLoaded := true |}
    {| server := 2; listCalls := [inl []] |}
  = ([inl []; inl []; inl []],
     {| compositions := ∅; functions := ∅; xrds := []; xrdsLoaded := true |},
     {| server := 2; listCalls := [inl []] |}).
Proof.
  split; [reflexivity|].
  destruct (get_xrds_memoised flakyList) as [Hcached _].
  destruct (Hcached coldCaches {| server := 1; listCalls := [] |} [] _ _ eq_refl)
    as (_ & _ & Hlater).
  exact (Hlater 3).
Defined.

End XRDCacheExamples.

(** *** The resource manager *)

Section FetchFacts.
Import K8s Errors Api ClusterClient ResourceManager.

Context {W : Type}.
Variable GetResource :
  GroupVersionKind -> string -> string -> W -> (Unstructured + GetError) * W.
Variable GetResourcesByLabel :
  string -> GroupVersionKind -> gmap string string -> W ->
  (list Unstructured + error) * W.

Lemma sameSlot_spec desired cand :
  sameSlot desired cand = true <->
  (exists a, GetAnnotations desired !! slotAnnotation = Some a /\
             GetAnnotations cand !! slotAnnotation = Some a) /\
  String.prefix (GetGenerateName desired) (GetName cand) = true.
Proof.
  unfold sameSlot. destruct (GetAnnotations desired !! slotAnnotation) as [a|].
  - rewrite andb_true_iff, bool_decide_eq_true. split.
    + intros [Ha Hp]. split; [by exists a|done].
    + intros [(a' & [= <-] & Ha) Hp]. done.
  - split; [done|]. by intros [(a & ? & _) _].
Qed.

Lemma filter_none {A} (P : A -> bool) (l : list A) :
  Forall (fun x => P x = false) l -> List.filter P l = [].
Proof.
  induction 1 as [|x l Hx _ IH]; simpl; [done|]. by rewrite Hx.
Qed.

Lemma filter_one {A} (P : A -> bool) (before after : list A) (x : A) :
  P x = true -> Forall (fun y => P y = false) (before ++ after) ->
  List.filter P (before ++ x :: after) = [x].
Proof.
  intros Hx [Hb Ha]%Forall_app.
  rewrite List.filter_app. simpl. rewrite Hx.
  by rewrite (filter_none P before Hb), (filter_none P after Ha).
Qed.

Lemma filter_two {A} (P : A -> bool) (l1 l2 l3 : list A) (x y : A) :
  P x = true -> P y = true ->
  exists a b rest, List.filter P (l1 ++ x :: l2 ++ y :: l3) = a :: b :: rest.
Proof.
  intros Hx Hy. rewrite List.filter_app. simpl. rewrite Hx.
  rewrite List.filter_app. simpl. rewrite Hy.
  destruct (List.filter P l1) as [|a [|b rest]]; simpl.
  - destruct (List.filter P l2) as [|b rest]; simpl; by eauto.
  - destruct (List.filter P l2) as [|b rest]; simpl; by eauto.
  - by eauto.
Qed.

Lemma sameSlot_false desired cand :
  ~ ((exists a, GetAnnotations desired !! slotAnnotation = Some a /\
                GetAnnotations cand !! slotAnnotation = Some a) /\
     String.prefix (GetGenerateName desired) (GetName cand) = true) ->
  sameSlot desired cand = false.
Proof.
  intros H. destruct (sameSlot desired cand) eqn:E; [|done].
  by apply sameSlot_spec in E.
Qed.

(** C7.  For a desired object with a [generateName] that is not found
    by name (it has no name, or the direct get answers not-found):
    without a composite it is new; with one, the candidates are listed
    once, under the owner label [crossplane.io/composite = <composite
    name>] in the desired namespace and type, and a candidate survives
    when it carries the desired [composition-resource-name] annotation
    and its name starts with the desired [generateName].  When exactly
    one of the listed candidates survives, that candidate is returned as
    the current object with [isNew = false]; when none or at least two
    survive, or the list call fails, the result is [isNew = true] with no
    current object and no error. *)
Theorem fetch_by_generate_name composite desired w w1 :
  GetGenerateName desired <> EmptyString ->
  (GetName desired = EmptyString /\ w1 = w) \/
  (GetName desired <> EmptyString /\
   GetResource (GroupVersionKindOf desired) (GetNamespace desired)
     (GetName desired) w = (inr NotFound, w1)) ->
  let survives cand :=
    (exists a,
       GetAnnotations desired !! "crossplane.io/composition-resource-name" = Some a /\
       GetAnnotations cand !! "crossplane.io/composition-resource-name" = Some a) /\
    String.prefix (GetGenerateName desired) (GetName cand) = true in
  let fetched := FetchCurrentObject GetResource GetResourcesByLabel composite desired w in
  let new := {| current := None; isNew := true; fetchErr := None |} in
  match composite with
  | None => fetched = (new, w1)
  | Some xr =>
      let r := GetResourcesByLabel (GetNamespace desired) (GroupVersionKindOf desired)
                 {[ "crossplane.io/composite" := GetName xr ]} w1 in
      fetched.2 = r.2 /\
      (forall err, r.1 = inr err -> fetched.1 = new) /\
      (forall candidates,
         r.1 = inl candidates ->
         (forall before cur after,
            candidates = before ++ cur :: after ->
            survives cur ->
            Forall (fun cand => ~ survives cand) (before ++ after) ->
            fetched.1 = {| current := Some cur; isNew := false; fetchErr := None |}) /\
         (Forall (fun cand => ~ survives cand) candidates -> fetched.1 = new) /\
         (forall l1 a l2 b l3,
            candidates = l1 ++ a :: l2 ++ b :: l3 ->
            survives a -> survives b -> fetched.1 = new))
  end.
Proof.
  intros _ Hdirect survives fetched new.
  assert (Hfetch : forall c,
    FetchCurrentObject GetResource GetResourcesByLabel c desired w
    = fetchBySlot GetResourcesByLabel c desired w1).
  { intros c. unfold FetchCurrentObject.
    destruct Hdirect as [[Hname ->]|[Hname Hget]].
    - by rewrite Hname.
    - rewrite bool_decide_eq_false_2 by done. by rewrite Hget. }
  subst fetched. rewrite Hfetch. destruct composite as [xr|]; [|done].
  simpl. change ownerLabel with "crossplane.io/composite".
  assert (Hsurv : forall cand, survives cand -> sameSlot desired cand = true).
  { intros cand. apply sameSlot_spec. }
  assert (Hnot : forall l, Forall (fun cand => ~ survives cand) l ->
                           Forall (fun cand => sameSlot desired cand = false) l).
  { intros l Hl. eapply Forall_impl; [exact Hl|]. intros cand. apply sameSlot_false. }
  destruct (GetResourcesByLabel _ _ _ w1) as [[candidates|err] w'] eqn:Elist; simpl.
  - split; [by destruct (List.filter _ candidates) as [|? [|]]|].
    split; [done|]. intros ? [= <-]. split; [|split].
    + intros before cur after -> Hcur Hothers.
      by rewrite (filter_one _ before after cur (Hsurv _ Hcur) (Hnot _ Hothers)).
    + intros Hnone. by rewrite (filter_none _ candidates (Hnot _ Hnone)).
    + intros l1 a l2 b l3 -> Ha Hb.
      destruct (filter_two (sameSlot desired) l1 l2 l3 a b (Hsurv _ Ha) (Hsurv _ Hb))
        as (x & y & rest & ->). done.
  - split; [done|]. split; [done|]. by intros.
Qed.

End FetchFacts.

Section OwnerRefFacts.
Import K8s Errors Api ClusterClient ResourceManager.

Context {W : Type}.
Variable NewUUID : W -> string * W.

Lemma extractOwnerReference_value r m :
  ownerReferenceValue r = VMap m -> extractOwnerReference m = r.
Proof.
  intros [= <-]. destruct r as [a k n u [c|] [b|]]; by vm_compute.
Qed.

Lemma GetOwnerReferences_values (refs : list OwnerReference) :
  omap (fun v => match v with
                 | VMap m => Some (extractOwnerReference m)
                 | _ => None
                 end) (ownerReferenceValue <$> refs) = refs.
Proof.
  induction refs as [|r refs IH]; [done|].
  rewrite fmap_cons. simpl. f_equal; [|exact IH].
  by apply extractOwnerReference_value.
Qed.

Lemma metadata_field_set obj f v g :
  match obj !! "metadata" with
  | Some (VMap _) | None =>
      NestedField (setMetadataField obj f v) ["metadata"; g]
      = if decide (f = g) then Some v else NestedField obj ["metadata"; g]
  | Some _ => setMetadataField obj f v = obj
  end.
Proof.
  unfold setMetadataField, NestedField, NestedMap.
  destruct (obj !! "metadata") as [[| | | | |md]|] eqn:Emd; try done.
  - rewrite lookup_insert_eq. destruct (decide (f = g)) as [->|Hne].
    + by rewrite lookup_insert_eq.
    + by rewrite lookup_insert_ne.
  - rewrite lookup_insert_eq. destruct (decide (f = g)) as [->|Hne].
    + by rewrite lookup_insert_eq.
    + by rewrite lookup_insert_ne.
Qed.

Lemma setMetadataField_frame obj f v k :
  k <> "metadata" -> setMetadataField obj f v !! k = obj !! k.
Proof.
  intros Hk. unfold setMetadataField.
  destruct (obj !! "metadata") as [[| | | | |md]|]; try done;
    by rewrite lookup_insert_ne.
Qed.

Lemma GetOwnerReferences_Set child (refs : list OwnerReference) :
  GetOwnerReferences (SetOwnerReferences child refs) = refs \/
  (SetOwnerReferences child refs = child /\ GetOwnerReferences child = []).
Proof.
  pose proof (metadata_field_set child "ownerReferences"
                (VList (ownerReferenceValue <$> refs)) "ownerReferences") as Hset.
  unfold SetOwnerReferences.
  destruct (child !! "metadata") as [[| | | | |md]|] eqn:Emd;
    try (right; split; [done|];
         unfold GetOwnerReferences, NestedField, NestedMap; by rewrite Emd).
  - left. unfold GetOwnerReferences. rewrite Hset, decide_True by done.
    apply GetOwnerReferences_values.
  - left. unfold GetOwnerReferences. rewrite Hset, decide_True by done.
    apply GetOwnerReferences_values.
Qed.

Lemma SetOwnerReferences_frame child (refs : list OwnerReference) f :
  f <> "ownerReferences" ->
  NestedField (SetOwnerReferences child refs) ["metadata"; f]
  = NestedField child ["metadata"; f].
Proof.
  intros Hf.
  pose proof (metadata_field_set child "ownerReferences"
                (VList (ownerReferenceValue <$> refs)) f) as Hset.
  unfold SetOwnerReferences.
  destruct (child !! "metadata") as [[| | | | |md]|] eqn:Emd;
    try (by rewrite Hset); by rewrite Hset, decide_False.
Qed.

Lemma refUpdated_mono parent new1 new2 r r' :
  refUpdated parent new2 r r' ->
  (forall x, x ∈ new2 -> x ∈ new1) -> refUpdated parent new1 r r'.
Proof.
  intros [H|[H|(H1 & H2 & uid & Hin & H3)]] Hsub; [by left|by right; left|].
  right. right. split; [done|]. split; [done|]. exists uid. split; [by apply Hsub|done].
Qed.

Lemma updateOwnerRefList_spec parent refs : forall u,
  exists new,
    generated (updateOwnerRefList NewUUID parent refs u).2 = generated u ++ new /\
    Forall2 (refUpdated parent new) refs (updateOwnerRefList NewUUID parent refs u).1.
Proof.
  induction refs as [|r refs IH]; intros u.
  { exists []. simpl. rewrite app_nil_r. split; [done|constructor]. }
  simpl. unfold updateOwnerRef.
  destruct (bool_decide (or_uid r = EmptyString)) eqn:Euid.
  - apply bool_decide_eq_true in Euid.
    destruct (refersTo parent r) eqn:Eref.
    + destruct (IH u) as (new & Hgen & Hall).
      destruct (updateOwnerRefList NewUUID parent refs u) as [rest' u'']. simpl in *.
      exists new. split; [done|]. constructor; [|done]. right. left. done.
    + destruct (NewUUID (source u)) as [uid w'].
      destruct (IH {| source := w'; generated := generated u ++ [uid] |})
        as (new & Hgen & Hall).
      destruct (updateOwnerRefList NewUUID parent refs _) as [rest' u'']. simpl in *.
      exists (uid :: new). rewrite Hgen, <- app_assoc. split; [done|].
      constructor.
      * right. right. split; [done|]. split; [done|]. exists uid.
        split; [apply elem_of_cons; by left|done].
      * eapply Forall2_impl; [exact Hall|]. intros x y Hxy.
        eapply refUpdated_mono; [exact Hxy|]. intros z Hz.
        apply elem_of_cons. by right.
  - apply bool_decide_eq_false in Euid. destruct (IH u) as (new & Hgen & Hall).
    destruct (updateOwnerRefList NewUUID parent refs u) as [rest' u'']. simpl in *.
    exists new. split; [done|]. constructor; [|done]. by left.
Qed.

(** One UID is drawn for each reference that has none and does not name
    the parent. *)
Lemma updateOwnerRefList_draws parent refs : forall u,
  length (generated (updateOwnerRefList NewUUID parent refs u).2)
  = length (generated u)
    + length (filter (fun ref => or_uid ref = EmptyString /\
                                 ~ (or_apiVersion ref = GetAPIVersion parent /\
                                    or_kind ref = GetKind parent /\
                                    or_name ref = GetName parent)) refs).
Proof.
  induction refs as [|r refs IH]; intros u; simpl; [lia|].
  unfold updateOwnerRef.
  destruct (bool_decide (or_uid r = EmptyString)) eqn:Euid.
  - apply bool_decide_eq_true in Euid.
    destruct (refersTo parent r) eqn:Eref.
    + specialize (IH u).
      destruct (updateOwnerRefList NewUUID parent refs u) as [rest' u'']. simpl in *.
      rewrite filter_cons_False; [done|]. intros [_ Hn]. apply Hn.
      unfold refersTo in Eref.
      apply andb_true_iff in Eref as [Eref Hn']. apply andb_true_iff in Eref as [Hv Hk].
      by apply bool_decide_eq_true in Hv, Hk, Hn'.
    + destruct (NewUUID (source u)) as [uid w'].
      specialize (IH {| source := w'; generated := generated u ++ [uid] |}).
      destruct (updateOwnerRefList NewUUID parent refs _) as [rest' u'']. simpl in *.
      rewrite filter_cons_True.
      * rewrite IH, length_app. simpl. lia.
      * split; [done|]. intros (Hv & Hk & Hn). unfold refersTo in Eref.
        by rewrite !bool_decide_eq_true_2 in Eref.
  - apply bool_decide_eq_false in Euid. specialize (IH u).
    destruct (updateOwnerRefList NewUUID parent refs u) as [rest' u'']. simpl in *.
    rewrite filter_cons_False; [done|]. by intros [? _].
Qed.

(** C8.  [UpdateOwnerRefs parent child] rewrites the child's owner
    references one by one and in place.  A reference with an empty UID
    that names the parent's apiVersion, kind and name ends with the
    parent's UID; any other reference with an empty UID ends with a UID
    drawn from the generator in this call, one draw per such reference;
    a reference that has a UID keeps it.  No other field of a reference
    changes, and nothing of the child outside
    [metadata.ownerReferences] changes. *)
Theorem update_owner_refs_frame parent child u :
  let r := UpdateOwnerRefs NewUUID (Some parent) child u in
  exists new,
    generated r.2 = generated u ++ new /\
    length new
    = length (filter (fun ref => or_uid ref = EmptyString /\
                                 ~ (or_apiVersion ref = GetAPIVersion parent /\
                                    or_kind ref = GetKind parent /\
                                    or_name ref = GetName parent))
                (GetOwnerReferences child)) /\
    Forall2
      (fun ref ref' =>
         or_apiVersion ref' = or_apiVersion ref /\
         or_kind ref' = or_kind ref /\
         or_name ref' = or_name ref /\
         or_controller ref' = or_controller ref /\
         or_blockOwnerDeletion ref' = or_blockOwnerDeletion ref /\
         ((or_uid ref <> EmptyString /\ or_uid ref' = or_uid ref) \/
          (or_uid ref = EmptyString /\
           or_apiVersion ref = GetAPIVersion parent /\
           or_kind ref = GetKind parent /\
           or_name ref = GetName parent /\
           or_uid ref' = GetUID parent) \/
          (or_uid ref = EmptyString /\
           ~ (or_apiVersion ref = GetAPIVersion parent /\
              or_kind ref = GetKind parent /\
              or_name ref = GetName parent) /\
           or_uid ref' ∈ new)))
      (GetOwnerReferences child) (GetOwnerReferences r.1) /\
    (forall k, k <> "metadata" -> r.1 !! k = child !! k) /\
    (forall f, f <> "ownerReferences" ->
               NestedField r.1 ["metadata"; f] = NestedField child ["metadata"; f]).
Proof.
  intros r. subst r. unfold UpdateOwnerRefs.
  destruct (updateOwnerRefList_spec parent (GetOwnerReferences child) u)
    as (new & Hgen & Hall).
  pose proof (updateOwnerRefList_draws parent (GetOwnerReferences child) u) as Hdraws.
  destruct (updateOwnerRefList NewUUID parent (GetOwnerReferences child) u)
    as [refs' u'] eqn:Eupd. simpl in *.
  exists new. split; [done|]. split.
  { rewrite Hgen, length_app in Hdraws. lia. }
  assert (Hrel : Forall2
      (fun ref ref' =>
         or_apiVersion ref' = or_apiVersion ref /\
         or_kind ref' = or_kind ref /\
         or_name ref' = or_name ref /\
         or_controller ref' = or_controller ref /\
         or_blockOwnerDeletion ref' = or_blockOwnerDeletion ref /\
         ((or_uid ref <> EmptyString /\ or_uid ref' = or_uid ref) \/
          (or_uid ref = EmptyString /\
           or_apiVersion ref = GetAPIVersion parent /\
           or_kind ref = GetKind parent /\
           or_name ref = GetName parent /\
           or_uid ref' = GetUID parent) \/
          (or_uid ref = EmptyString /\
           ~ (or_apiVersion ref = GetAPIVersion parent /\
              or_kind ref = GetKind parent /\
              or_name ref = GetName parent) /\
           or_uid ref' ∈ new)))
      (GetOwnerReferences child) refs').
  { eapply Forall2_impl; [exact Hall|].
    intros x y [[H ->]|[(H1 & H2 & ->)|(H1 & H2 & uid & Hin & ->)]]; simpl.
    - do 5 (split; [done|]). by left.
    - do 5 (split; [done|]). right. left. unfold refersTo in H2.
      apply andb_true_iff in H2 as [H2 Hn]. apply andb_true_iff in H2 as [Hv Hk].
      apply bool_decide_eq_true in Hv, Hk, Hn. done.
    - do 5 (split; [done|]). right. right. split; [done|]. split; [|done].
      intros (Hv & Hk & Hn).
      unfold refersTo in H2. rewrite !bool_decide_eq_true_2 in H2 by done. done. }
  split; [|split].
  - destruct (GetOwnerReferences_Set child refs') as [->|[-> Hnil]]; [done|].
    rewrite Hnil in *. apply Forall2_nil_inv_l in Hrel. by subst refs'.
  - intros k Hk. by apply setMetadataField_frame.
  - intros f Hf. by apply SetOwnerReferences_frame.
Qed.

End OwnerRefFacts.

Section ResourceManagerExamples.
Import K8s Errors Api ClusterClient ResourceManager Fixtures.

(** The generate-name row of the test table: of the two candidates under
    the owner label, the one in slot [resource-a] is the current object. *)
Example fetch_generated_example :
  FetchCurrentObject getNotFound listTwoCandidates (Some parentXR) desiredGenerated 0
  = ({| current := Some (composedAs "test-resource-abc123" "resource-a");
        isNew := false; fetchErr := None |}, 1).
Proof. by vm_compute. Qed.

(** A failed list, a foreign name prefix, and two survivors all give a new
    object. *)
Example fetch_list_failure_example :
  FetchCurrentObject getNotFound listFails (Some parentXR) desiredGenerated 0
  = ({| current := None; isNew := true; fetchErr := None |}, 1).
Proof. by vm_compute. Qed.

Example fetch_prefix_mismatch_example :
  FetchCurrentObject getNotFound
    (fun ns gvk sel w => (inl [composedAs "different-prefix-abc123" "resource-a"], S w))
    (Some parentXR) desiredGenerated 0
  = ({| current := None; isNew := true; fetchErr := None |}, 1).
Proof. by vm_compute. Qed.

Example fetch_ambiguous_example :
  FetchCurrentObject getNotFound
    (fun ns gvk sel w =>
       (inl [composedAs "test-resource-abc123" "resource-a";
             composedAs "test-resource-def456" "resource-a"], S w))
    (Some parentXR) desiredGenerated 0
  = ({| current := None; isNew := true; fetchErr := None |}, 1).
Proof. by vm_compute. Qed.

Lemma fetch_by_generate_name_witness :
  GetGenerateName desiredGenerated <> EmptyString /\
  GetName desiredGenerated = EmptyString /\
  FetchCurrentObject getNotFound listTwoCandidates (Some parentXR) desiredGenerated 0
  = ({| current := Some (composedAs "test-resource-abc123" "resource-a");
        isNew := false; fetchErr := None |}, 1).
Proof.
  assert (H1 : GetGenerateName desiredGenerated <> EmptyString)
    by (vm_compute; discriminate).
  assert (H2 : GetName desiredGenerated = EmptyString) by reflexivity.
  split; [exact H1|]. split; [exact H2|].
  destruct (fetch_by_generate_name getNotFound listTwoCandidates (Some parentXR)
              desiredGenerated 0 0 H1 (or_introl (conj H2 eq_refl)))
    as (Hworld & _ & Hlisted).
  destruct (Hlisted _ eq_refl) as (Hone & _ & _).
  specialize (Hone [] (composedAs "test-resource-abc123" "resource-a")
                [composedAs "test-resource-abc123" "resource-b"] eq_refl).
  apply injective_projections; [|exact Hworld].
  apply Hone.
  - split; [by exists "resource-a"|reflexivity].
  - apply Forall_singleton. intros [(a & Ha & Hb) _].
    vm_compute in Ha. injection Ha as <-. vm_compute in Hb. discriminate Hb.
Defined.

(** The owner-reference row with several references: the parent's gets
    the parent's UID, the two others with an empty UID get generated
    ones, and the one that had a UID keeps it. *)
Example update_owner_refs_example :
  GetOwnerReferences
    (UpdateOwnerRefs countingUUID (Some parentXR) childWithOwners
       {| source := 0; generated := [] |}).1
  = [ownerRef "example.org/v1" "XR" "parent-xr" "parent-uid";
     ownerRef "other.org/v1" "OtherKind" "other-name" "generated-0";
     ownerRef "example.org/v1" "XR" "different-parent" "generated-1";
     ownerRef "apps/v1" "Deployment" "kept" "foobar"].
Proof. by vm_compute. Qed.

Example resource_key_example :
  resourceKey (WithNamespace "test-namespace"
                 (NewResource "example.org/v1" "TestResource" "test-resource"))
  = "example.org/v1/TestResource/test-resource".
Proof. by vm_compute. Qed.

End ResourceManagerExamples.

(** *** Diff normalisation *)

Section DiffFacts.
Import K8s Errors DiffFormatter.

Variable Marshal : Unstructured -> string + error.
Variable GetLineDiff : string -> string -> list Diff.

Lemma removeFields_lookup fields (m : Unstructured) k :
  removeFields fields m !! k = if decide (k ∈ fields) then None else m !! k.
Proof.
  unfold removeFields. revert m.
  induction fields as [|f fields IH]; intros m.
  - destruct (decide (k ∈ [])) as [Hin|]; [|done]. by apply elem_of_nil in Hin.
  - change (foldl (fun acc field => delete field acc) m (f :: fields))
      with (foldl (fun acc field => delete field acc) (delete f m) fields).
    rewrite IH. destruct (decide (k ∈ fields)) as [Hin|Hnin].
    + rewrite decide_True; [done|]. apply elem_of_cons. by right.
    + destruct (decide (k = f)) as [->|Hne].
      * rewrite lookup_delete_eq, decide_True; [done|]. apply elem_of_cons. by left.
      * rewrite lookup_delete_ne by done. rewrite decide_False; [done|].
        intros [?|?]%elem_of_cons; done.
Qed.

Lemma cleanupForDiff_lookup obj k :
  cleanupForDiff obj !! k =
  if decide (k = "status") then None
  else if decide (k = "spec") then cleanSpec obj
  else if decide (k = "metadata") then cleanMetadata obj
  else obj !! k.
Proof.
  unfold cleanupForDiff, cleanSpec, cleanMetadata, SetNestedMap.
  destruct (decide (k = "status")) as [->|Hstatus]; [by rewrite lookup_delete_eq|].
  rewrite lookup_delete_ne by done.
  assert (Hspec : forall o : Unstructured,
    NestedMap (match NestedMap obj "metadata" with
               | Some metadata =>
                   <["metadata" := VMap (removeFields fieldsToRemove metadata)]> obj
               | None => obj
               end) "spec" = NestedMap obj "spec").
  { intros _. unfold NestedMap. destruct (obj !! "metadata") as [[| | | | |md]|]; try done.
    by rewrite lookup_insert_ne. }
  rewrite (Hspec obj).
  destruct (decide (k = "spec")) as [->|Hsp].
  - destruct (NestedMap obj "spec") as [spec|] eqn:Espec.
    + by rewrite lookup_insert_eq.
    + unfold NestedMap. destruct (obj !! "metadata") as [[| | | | |md]|]; try done.
      by rewrite lookup_insert_ne.
  - assert (Hk : forall (o : Unstructured),
      (match NestedMap obj "spec" with
       | Some spec => <["spec" := VMap (delete "resourceRefs" spec)]> o
       | None => o
       end) !! k = o !! k).
    { intros o. destruct (NestedMap obj "spec"); [by rewrite lookup_insert_ne|done]. }
    rewrite Hk. destruct (decide (k = "metadata")) as [->|Hmd].
    + destruct (NestedMap obj "metadata"); [by rewrite lookup_insert_eq|done].
    + destruct (NestedMap obj "metadata"); [by rewrite lookup_insert_ne|done].
Qed.

Lemma removeFields_insert f v (md : Unstructured) :
  f ∈ fieldsToRemove ->
  removeFields fieldsToRemove (<[f := v]> md) = removeFields fieldsToRemove md.
Proof.
  intros Hf. apply map_eq. intros k. rewrite !removeFields_lookup.
  destruct (decide (k ∈ fieldsToRemove)) as [|Hk]; [done|].
  rewrite lookup_insert_ne; [done|]. by intros ->.
Qed.

Lemma removeFields_delete f (md : Unstructured) :
  f ∈ fieldsToRemove ->
  removeFields fieldsToRemove (delete f md) = removeFields fieldsToRemove md.
Proof.
  intros Hf. apply map_eq. intros k. rewrite !removeFields_lookup.
  destruct (decide (k ∈ fieldsToRemove)) as [|Hk]; [done|].
  rewrite lookup_delete_ne; [done|]. by intros ->.
Qed.

Lemma NestedMap_insert_eq (o : Unstructured) k m :
  NestedMap (<[k := VMap m]> o) k = Some m.
Proof. unfold NestedMap. by rewrite lookup_insert_eq. Qed.

Lemma NestedMap_insert_ne (o : Unstructured) k k' v :
  k <> k' -> NestedMap (<[k := v]> o) k' = NestedMap o k'.
Proof. intros H. unfold NestedMap. by rewrite lookup_insert_ne. Qed.

Lemma NestedMap_delete_ne (o : Unstructured) k k' :
  k <> k' -> NestedMap (delete k o) k' = NestedMap o k'.
Proof. intros H. unfold NestedMap. by rewrite lookup_delete_ne. Qed.

(** The normal form does not see an edit of a stripped field. *)
Lemma cleanupForDiff_edit o o' :
  volatileEdit o o' -> cleanupForDiff o = cleanupForDiff o'.
Proof.
  intros Hedit. apply map_eq. intros k. rewrite !cleanupForDiff_lookup.
  destruct (decide (k = "status")) as [|Hst]; [done|].
  unfold cleanSpec, cleanMetadata.
  destruct Hedit as [o v|o|o md f v Hmd Hf|o md f Hmd Hf|o spec v Hsp|o spec Hsp].
  - rewrite !NestedMap_insert_ne by done. by rewrite !lookup_insert_ne by done.
  - rewrite !NestedMap_delete_ne by done. by rewrite !lookup_delete_ne by done.
  - rewrite NestedMap_insert_eq, Hmd, removeFields_insert by done.
    rewrite NestedMap_insert_ne by done.
    destruct (decide (k = "spec")) as [->|]; [by rewrite lookup_insert_ne|].
    destruct (decide (k = "metadata")); [done|]. by rewrite lookup_insert_ne.
  - rewrite NestedMap_insert_eq, Hmd, removeFields_delete by done.
    rewrite NestedMap_insert_ne by done.
    destruct (decide (k = "spec")) as [->|]; [by rewrite lookup_insert_ne|].
    destruct (decide (k = "metadata")); [done|]. by rewrite lookup_insert_ne.
  - rewrite NestedMap_insert_eq, Hsp, delete_insert_eq.
    rewrite NestedMap_insert_ne by done.
    destruct (decide (k = "spec")); [done|].
    destruct (decide (k = "metadata")) as [->|]; [by rewrite lookup_insert_ne|].
    by rewrite lookup_insert_ne.
  - rewrite NestedMap_insert_eq, Hsp, delete_delete_eq.
    rewrite NestedMap_insert_ne by done.
    destruct (decide (k = "spec")); [done|].
    destruct (decide (k = "metadata")) as [->|]; [by rewrite lookup_insert_ne|].
    by rewrite lookup_insert_ne.
Qed.

Lemma cleanupForDiff_differOnlyVolatile c d :
  differOnlyVolatile c d -> cleanupForDiff c = cleanupForDiff d.
Proof.
  unfold differOnlyVolatile. intros H.
  induction H as [o|o1 o2 o3 [Hstep|Hstep] _ IH]; [done| |].
  - by rewrite (cleanupForDiff_edit _ _ Hstep).
  - by rewrite <- (cleanupForDiff_edit _ _ Hstep).
Qed.

Lemma NestedField_metadata (obj : Unstructured) f :
  NestedField obj ["metadata"; f]
  = match NestedMap obj "metadata" with
    | Some md => md !! f
    | None => None
    end.
Proof. done. Qed.

(** C9.  [cleanupForDiff] strips [metadata.resourceVersion], [uid],
    [generation], [creationTimestamp], [managedFields], [selfLink] and
    [ownerReferences], the whole [status], and [spec.resourceRefs], and
    keeps every other metadata field and every other top-level field;
    the line diffs of every diff [GenerateDiffWithOptions] returns are
    computed from the serialised cleaned objects; and two objects that
    differ only in stripped fields have the same cleaned form and give
    the equal diff, which has no line diffs. *)
Theorem cleanup_normalises_before_diff :
  (forall obj,
     (forall f, f ∈ ["resourceVersion"; "uid"; "generation"; "creationTimestamp";
                     "managedFields"; "selfLink"; "ownerReferences"] ->
                NestedField (cleanupForDiff obj) ["metadata"; f] = None) /\
     cleanupForDiff obj !! "status" = None /\
     NestedField (cleanupForDiff obj) ["spec"; "resourceRefs"] = None /\
     (forall f, f ∉ fieldsToRemove ->
                NestedField (cleanupForDiff obj) ["metadata"; f]
                = NestedField obj ["metadata"; f]) /\
     (forall k, k <> "metadata" -> k <> "spec" -> k <> "status" ->
                cleanupForDiff obj !! k = obj !! k)) /\
  (forall current desired d,
     GenerateDiffWithOptions Marshal GetLineDiff current desired = inl d ->
     LineDiffs d <> [] ->
     exists currentStr desiredStr,
       match current with
       | Some c => Marshal (cleanupForDiff c)
       | None => inl EmptyString
       end = inl currentStr /\
       match desired with
       | Some c => Marshal (cleanupForDiff c)
       | None => inl EmptyString
       end = inl desiredStr /\
       LineDiffs d = GetLineDiff currentStr desiredStr) /\
  (forall c d,
     differOnlyVolatile c d ->
     cleanupForDiff c = cleanupForDiff d /\
     GenerateDiffWithOptions Marshal GetLineDiff (Some c) (Some d)
     = inl {| ResourceKind := GetKind c;
              ResourceName := GetName c;
              DiffType_ := DiffTypeEqual;
              LineDiffs := [];
              Current := Some c;
              Desired := Some d |}).
Proof.
  split; [|split].
  - intros obj.
    assert (Hmeta : forall f,
      NestedField (cleanupForDiff obj) ["metadata"; f]
      = if decide (f ∈ fieldsToRemove) then None
        else NestedField obj ["metadata"; f]).
    { intros f. rewrite !NestedField_metadata. unfold NestedMap at 1.
      rewrite cleanupForDiff_lookup. simpl. unfold cleanMetadata.
      destruct (NestedMap obj "metadata") as [md|] eqn:Emd.
      - by rewrite removeFields_lookup.
      - unfold NestedMap in Emd.
        destruct (obj !! "metadata") as [[| | | | |md]|]; try done;
          by destruct (decide (f ∈ fieldsToRemove)). }
    split; [|split; [|split; [|split]]].
    + intros f Hf. rewrite Hmeta. by rewrite decide_True.
    + by rewrite cleanupForDiff_lookup.
    + change (NestedField (cleanupForDiff obj) ["spec"; "resourceRefs"])
        with (match NestedMap (cleanupForDiff obj) "spec" with
              | Some sp => sp !! "resourceRefs"
              | None => None
              end).
      unfold NestedMap. rewrite cleanupForDiff_lookup. simpl. unfold cleanSpec.
      destruct (NestedMap obj "spec") as [sp|] eqn:Esp.
      * by rewrite lookup_delete_eq.
      * unfold NestedMap in Esp.
        by destruct (obj !! "spec") as [[| | | | |sp]|].
    + intros f Hf. rewrite Hmeta. by rewrite decide_False.
    + intros k H1 H2 H3. rewrite cleanupForDiff_lookup.
      by rewrite !decide_False.
  - intros current desired d. unfold GenerateDiffWithOptions.
    destruct (diffTypeOf current desired) as [diffType|]; [|done].
    destruct (semanticallyEqual current desired); [by intros [= <-]|].
    unfold asString.
    destruct (match current with Some o => _ | None => _ end) as [currentStr|];
      [|done].
    destruct (match desired with Some o => _ | None => _ end) as [desiredStr|];
      [|done].
    destruct (bool_decide (desiredStr = currentStr)); [by intros [= <-]|].
    destruct (Nat.eqb (length (GetLineDiff currentStr desiredStr)) 0);
      [by intros [= <-]|].
    intros [= <-] _. by exists currentStr, desiredStr.
  - intros c d Hdiff.
    pose proof (cleanupForDiff_differOnlyVolatile c d Hdiff) as Hclean.
    split; [done|]. unfold GenerateDiffWithOptions. simpl.
    rewrite (bool_decide_eq_true_2 _ Hclean), orb_true_r. done.
Qed.

(** The earlier revision of the function leaves [spec] alone. *)
Remark cleanupForDiff_earlier_keeps_spec obj :
  cleanupForDiff_earlier obj !! "spec" = obj !! "spec".
Proof.
  unfold cleanupForDiff_earlier, SetNestedMap. rewrite lookup_delete_ne by done.
  destruct (NestedMap obj "metadata"); [by rewrite lookup_insert_ne|done].
Qed.

End DiffFacts.

Section DiffExamples.
Import K8s Errors DiffFormatter Fixtures.

Lemma live_and_rendered_differ_only_volatile :
  differOnlyVolatile renderedBucket liveBucket.
Proof.
  unfold differOnlyVolatile, liveBucket.
  eapply rtc_l.
  { left. apply (edit_metadata_set renderedBucket
                   (<["name" := VStr "my-bucket"]> ∅) "uid" (VStr "abc-123"));
      [reflexivity|]. unfold fieldsToRemove. set_solver. }
  eapply rtc_l.
  { left. apply (edit_metadata_set _
                   (<["uid" := VStr "abc-123"]> (<["name" := VStr "my-bucket"]> ∅))
                   "resourceVersion" (VStr "42")); [reflexivity|].
    unfold fieldsToRemove. set_solver. }
  eapply rtc_l.
  { left. apply (edit_status_set _ (VMap (<["ready" := VBool true]> ∅))). }
  eapply rtc_l.
  { left. apply (edit_resourceRefs_set _ (<["region" := VStr "eu-west-1"]> ∅)
                   (VList [VStr "ref-1"])). reflexivity. }
  assert (Heq : forall a b : Unstructured, a = b -> rtc (sc volatileEdit) a b)
    by (by intros a b ->).
  apply Heq. by vm_compute.
Qed.

Lemma cleanup_normalises_before_diff_witness :
  cleanupForDiff renderedBucket = cleanupForDiff liveBucket /\
  GenerateDiffWithOptions yamlStub lineDiffStub (Some renderedBucket) (Some liveBucket)
  = inl {| ResourceKind := "Bucket";
           ResourceName := "my-bucket";
           DiffType_ := DiffTypeEqual;
           LineDiffs := [];
           Current := Some renderedBucket;
           Desired := Some liveBucket |}.
Proof.
  destruct (cleanup_normalises_before_diff yamlStub lineDiffStub) as (_ & _ & H).
  exact (H renderedBucket liveBucket live_and_rendered_differ_only_volatile).
Defined.

(** A change of a field that is kept does give a diff, computed on the
    cleaned objects. *)
Example real_change_example :
  match GenerateDiffWithOptions yamlStub lineDiffStub
          (Some liveBucket) (Some (SetName renderedBucket "other-bucket")) with
  | inl d => DiffType_ d = DiffTypeModified /\
             LineDiffs d = lineDiffStub "my-bucket" "other-bucket"
  | inr _ => False
  end.
Proof. by vm_compute. Qed.

(** The earlier revision keeps the resource references of the live
    object, so there the two objects do not clean to the same form. *)
Example cleanupForDiff_earlier_example :
  cleanupForDiff_earlier renderedBucket <> cleanupForDiff_earlier liveBucket.
Proof.
  intros H. apply (f_equal (fun o : Unstructured => o !! "spec")) in H.
  vm_compute in H. discriminate H.
Qed.

End DiffExamples.

(** *** The line formatters *)

Section LineFormatFacts.
Import DiffFormatter LineFormat.
Local Open Scope Z_scope.

Lemma string_app_assoc (a b c : string) : (a +:+ b) +:+ c = a +:+ (b +:+ c).
Proof. induction a as [|x a IH]; [done|]. rewrite !append_cons. by rewrite IH. Qed.

Lemma string_app_nil_r (a : string) : a +:+ EmptyString = a.
Proof. induction a as [|x a IH]; [done|]. rewrite append_cons. by rewrite IH. Qed.

Lemma builderString_app (a b : list string) :
  builderString (a ++ b) = builderString a +:+ builderString b.
Proof.
  induction a as [|line a IH]; [done|].
  simpl. rewrite IH, string_app_assoc. by rewrite append_cons.
Qed.

Lemma Split_cons (s : string) : exists line lines, Split s = line :: lines.
Proof.
  induction s as [|c r (h & t & IH)]; simpl; [eauto|].
  destruct (Ascii.eqb c lineFeed); [eauto|]. rewrite IH. eauto.
Qed.

(** A text that ends in a line feed splits into at least two pieces, and
    its lines without the last, empty piece spell the text; a text that
    does not end in one lacks just the final line feed. *)
Lemma HasSuffix_cons (c : ascii) (r : string) :
  r <> EmptyString -> HasSuffix (String c r) = HasSuffix r.
Proof. by destruct r. Qed.

Lemma builderString_cons (line : string) (lines : list string) :
  builderString (line :: lines) = line +:+ String lineFeed (builderString lines).
Proof. done. Qed.

Lemma Split_spec (s : string) :
  if HasSuffix s
  then (exists line lines, removelast (Split s) = line :: lines)
       /\ builderString (removelast (Split s)) = s
  else builderString (Split s) = s +:+ String lineFeed EmptyString.
Proof.
  induction s as [|c r IH]; [done|].
  destruct (decide (r = EmptyString)) as [->|Hne].
  { simpl. destruct (Ascii.eqb c lineFeed) eqn:Hc; [|done].
    apply Ascii.eqb_eq in Hc as ->. split; [eauto|done]. }
  rewrite (HasSuffix_cons c r Hne). cbn [Split].
  destruct (Split_cons r) as (h & t & Hr). rewrite Hr in *.
  destruct (HasSuffix r).
  - destruct IH as [(l & ls & Hrm) IH].
    destruct t as [|x t]; [done|].
    change (removelast (h :: x :: t)) with (h :: removelast (x :: t)) in IH.
    rewrite builderString_cons in IH.
    destruct (Ascii.eqb c lineFeed) eqn:Hc.
    + apply Ascii.eqb_eq in Hc as ->.
      change (removelast (EmptyString :: h :: x :: t))
        with (EmptyString :: h :: removelast (x :: t)).
      split; [eauto|]. rewrite !builderString_cons. by rewrite IH.
    + change (removelast (String c h :: x :: t))
        with (String c h :: removelast (x :: t)).
      split; [eauto|]. rewrite builderString_cons, append_cons. by rewrite IH.
  - rewrite builderString_cons in IH.
    destruct (Ascii.eqb c lineFeed) eqn:Hc.
    + apply Ascii.eqb_eq in Hc as ->.
      rewrite !builderString_cons. rewrite IH. done.
    + rewrite builderString_cons, !append_cons. by rewrite IH.
Qed.

Lemma textLines_unfold (s : string) :
  textLines s = if HasSuffix s then removelast (Split s) else Split s.
Proof.
  unfold textLines. destruct (Split_cons s) as (h & t & Hs).
  replace (0 <? length (Split s))%nat with true by (by rewrite Hs).
  by rewrite andb_true_r.
Qed.

Lemma textLines_cons (s : string) : exists line lines, textLines s = line :: lines.
Proof.
  rewrite textLines_unfold. pose proof (Split_spec s) as H.
  destruct (HasSuffix s); [by destruct H as [H _]|]. apply Split_cons.
Qed.

Lemma textLines_spec (s : string) :
  builderString (textLines s) = terminated s.
Proof.
  rewrite textLines_unfold. unfold terminated. pose proof (Split_spec s) as H.
  destruct (HasSuffix s); [by destruct H as [_ H]|done].
Qed.

(** The branch of [processLines] for a text that is just a line feed never
    adds a line: the formatted lines are the lines of the text, one for
    one, and there is always at least one. *)
Lemma processLines_lines (diff : Diff) (options : DiffOptions) :
  (processLines diff options).1
  = (fun line => formatLine line (Type_ diff) options) <$> textLines (Text diff).
Proof.
  unfold processLines. cbn [fst].
  destruct (textLines_cons (Text diff)) as (h & t & ->).
  by rewrite andb_false_r.
Qed.

Lemma formatLine_plain (line : string) (t : Operation) (options : DiffOptions) :
  UseColors options = false ->
  formatLine line t options
  = match t with
    | DiffInsert => AddPrefix options
    | DiffDelete => DeletePrefix options
    | DiffEqual => ContextPrefix options
    end +:+ line.
Proof. intros H. unfold formatLine. rewrite H. by destruct t. Qed.

Lemma foldl_app_flat {A B} (f : A -> list B) (acc : list B) (l : list A) :
  foldl (fun acc x => acc ++ f x) acc l = acc ++ concat (f <$> l).
Proof.
  revert acc. induction l as [|x l IH]; intros acc; simpl.
  - by rewrite app_nil_r.
  - rewrite IH. by rewrite <- app_assoc.
Qed.

Lemma foldl_pointwise {A B} (f g : A -> B -> A) (a : A) (l : list B) :
  (forall a b, f a b = g a b) -> foldl f a l = foldl g a l.
Proof.
  intros H. revert a. induction l as [|b l IH]; intros a; [done|].
  simpl. by rewrite H, IH.
Qed.

Lemma fullLines_concat (diffs : list Diff) (options : DiffOptions) :
  fullLines diffs options
  = concat ((fun diff =>
      (fun line => formatLine line (Type_ diff) options) <$> textLines (Text diff))
      <$> diffs).
Proof.
  unfold fullLines.
  rewrite (foldl_app_flat (fun diff => (processLines diff options).1)). simpl.
  f_equal. apply list_fmap_ext. intros _ diff _. apply processLines_lines.
Qed.

Lemma fullLines_app (diffs1 diffs2 : list Diff) (options : DiffOptions) :
  fullLines (diffs1 ++ diffs2) options
  = fullLines diffs1 options ++ fullLines diffs2 options.
Proof. by rewrite !fullLines_concat, fmap_app, concat_app. Qed.

(** X1. Without prefixes and colours the full format gives back the texts
    of the diffs one after the other, each ended by a line feed if it
    lacks one: no line is lost, added or reordered. *)
Theorem full_format_reproduces_text (diffs : list Diff) (options : DiffOptions) :
  UseColors options = false ->
  AddPrefix options = EmptyString ->
  DeletePrefix options = EmptyString ->
  ContextPrefix options = EmptyString ->
  FullFormat diffs options
  = foldr (fun diff rest => terminated (Text diff) +:+ rest) EmptyString diffs.
Proof.
  intros Hcol Hadd Hdel Hctx. unfold FullFormat. rewrite fullLines_concat.
  induction diffs as [|diff diffs IH]; [done|].
  cbn [fmap list_fmap concat foldr]. rewrite builderString_app, IH. f_equal.
  rewrite <- textLines_spec. f_equal.
  rewrite <- (list_fmap_id (textLines (Text diff))) at 2.
  apply list_fmap_ext. intros _ line _.
  rewrite formatLine_plain by done. rewrite Hadd, Hdel, Hctx. by destruct (Type_ diff).
Qed.

(** On the three named operations the numbered formatter is the one of
    the line formatters above. *)
Lemma formatLine_ofOperation line t options :
  Numbered.formatLine line (Numbered.ofOperation t) options = formatLine line t options.
Proof. by destruct t. Qed.

Lemma Numbered_processLines_lines (diff : Numbered.Diff) options :
  (Numbered.processLines diff options).1
  = (fun line => Numbered.formatLine line (Numbered.Type_ diff) options)
      <$> textLines (Numbered.Text diff).
Proof.
  unfold Numbered.processLines. cbn [fst].
  destruct (textLines_cons (Numbered.Text diff)) as (h & t & ->).
  by rewrite andb_false_r.
Qed.

Lemma Numbered_FullFormat_ofDiff (diffs : list DiffFormatter.Diff) options :
  Numbered.FullFormat (Numbered.ofDiff <$> diffs) options = FullFormat diffs options.
Proof.
  unfold Numbered.FullFormat, FullFormat, fullLines. f_equal.
  rewrite (foldl_app_flat (fun diff => (Numbered.processLines diff options).1)).
  rewrite (foldl_app_flat (fun diff => (processLines diff options).1)).
  f_equal. rewrite <- list_fmap_compose. f_equal.
  apply list_fmap_ext. intros _ diff _. unfold compose.
  rewrite Numbered_processLines_lines, processLines_lines. cbn [Numbered.ofDiff
    Numbered.Type_ Numbered.Text].
  apply list_fmap_ext. intros _ line _. apply formatLine_ofOperation.
Qed.

Lemma writeDiff_known options builder (diff : Numbered.Diff) :
  Numbered.Type_ diff = Numbered.DiffDelete \/
  Numbered.Type_ diff = Numbered.DiffInsert \/
  Numbered.Type_ diff = Numbered.DiffEqual ->
  Earlier.writeDiff options builder diff
  = builder ++ (Numbered.processLines diff options).1.
Proof.
  intros Hknown. rewrite Numbered_processLines_lines. unfold Earlier.writeDiff.
  destruct (textLines_cons (Numbered.Text diff)) as (h & t & Hl). rewrite Hl.
  rewrite andb_false_r. rewrite <- Hl.
  unfold Numbered.formatLine, Earlier.addColor, Earlier.delColor, Earlier.resetColor.
  destruct Hknown as [-> | [-> | ->]]; cbn [Z.eqb Numbered.DiffDelete Numbered.DiffInsert
                                         Numbered.DiffEqual Pos.eqb];
    destruct (UseColors options); try done.
  all: f_equal; apply list_fmap_ext; intros _ line _; cbn [andb];
    change (EmptyString +:+ ?x) with x; by rewrite string_app_nil_r.
Qed.

Lemma writeDiff_unknown options builder (diff : Numbered.Diff) :
  Numbered.Type_ diff <> Numbered.DiffDelete ->
  Numbered.Type_ diff <> Numbered.DiffInsert ->
  Numbered.Type_ diff <> Numbered.DiffEqual ->
  Earlier.writeDiff options builder diff = builder /\
  (Numbered.processLines diff options).1 = textLines (Numbered.Text diff).
Proof.
  intros Hd Hi He. split.
  - unfold Earlier.writeDiff.
    by rewrite (proj2 (Z.eqb_neq _ _) Hd), (proj2 (Z.eqb_neq _ _) Hi),
               (proj2 (Z.eqb_neq _ _) He).
  - rewrite Numbered_processLines_lines.
    rewrite <- (list_fmap_id (textLines (Numbered.Text diff))) at 2.
    apply list_fmap_ext. intros _ line _. unfold Numbered.formatLine.
    rewrite (proj2 (Z.eqb_neq _ _) Hd), (proj2 (Z.eqb_neq _ _) Hi),
            (proj2 (Z.eqb_neq _ _) He).
    by rewrite andb_false_r.
Qed.

Lemma terminated_nonempty text : terminated text <> EmptyString.
Proof.
  unfold terminated. destruct (HasSuffix text) eqn:E.
  - intros ->. done.
  - by destruct text.
Qed.

(** X2. The earlier and the later revision of the full formatter give the
    same output for every list of diffs whose operations are among
    [DiffDelete], [DiffInsert] and [DiffEqual], whatever the options.
    They part on any other operation value: for such a diff the earlier
    revision writes nothing, and the later one writes the lines of the
    text without prefix or colour. *)
Theorem full_format_revisions_agree options :
  (forall diffs : list DiffFormatter.Diff,
     Earlier.FullFormat (Numbered.ofDiff <$> diffs) options = FullFormat diffs options) /\
  (forall diffs : list Numbered.Diff,
     Forall (fun diff => Numbered.Type_ diff = Numbered.DiffDelete \/
                         Numbered.Type_ diff = Numbered.DiffInsert \/
                         Numbered.Type_ diff = Numbered.DiffEqual) diffs ->
     Earlier.FullFormat diffs options = Numbered.FullFormat diffs options) /\
  (forall diff : Numbered.Diff,
     Numbered.Type_ diff <> Numbered.DiffDelete ->
     Numbered.Type_ diff <> Numbered.DiffInsert ->
     Numbered.Type_ diff <> Numbered.DiffEqual ->
     Earlier.FullFormat [diff] options = EmptyString /\
     Numbered.FullFormat [diff] options = terminated (Numbered.Text diff) /\
     Earlier.FullFormat [diff] options <> Numbered.FullFormat [diff] options).
Proof.
  assert (Hknown : forall diffs : list Numbered.Diff,
     Forall (fun diff => Numbered.Type_ diff = Numbered.DiffDelete \/
                         Numbered.Type_ diff = Numbered.DiffInsert \/
                         Numbered.Type_ diff = Numbered.DiffEqual) diffs ->
     Earlier.FullFormat diffs options = Numbered.FullFormat diffs options).
  { intros diffs Hall. unfold Earlier.FullFormat, Numbered.FullFormat. f_equal.
    generalize (@nil string) as builder.
    induction Hall as [|diff diffs Hdiff _ IH]; intros builder; [done|].
    cbn [foldl]. rewrite writeDiff_known by done. apply IH. }
  split; [|split; [exact Hknown|]].
  - intros diffs. rewrite <- Numbered_FullFormat_ofDiff. apply Hknown.
    apply Forall_fmap, Forall_forall. intros diff _. simpl.
    destruct (DiffFormatter.Type_ diff); auto.
  - intros diff Hd Hi He.
    destruct (writeDiff_unknown options [] diff Hd Hi He) as [Hearlier Hlater].
    assert (H1 : Earlier.FullFormat [diff] options = EmptyString).
    { unfold Earlier.FullFormat. cbn [foldl]. by rewrite Hearlier. }
    assert (H2 : Numbered.FullFormat [diff] options = terminated (Numbered.Text diff)).
    { unfold Numbered.FullFormat. cbn [foldl app]. rewrite Hlater.
      apply textLines_spec. }
    split; [done|]. split; [done|]. rewrite H1, H2.
    intros H. by apply (terminated_nonempty (Numbered.Text diff)).
Qed.

(** An operation value of 2: nothing from the earlier revision, the bare
    line from the later one. *)
Example full_format_unknown_operation_example :
  let diff := {| Numbered.Type_ := 2; Numbered.Text := "region: eu" |} in
  Earlier.FullFormat [diff] DefaultDiffOptions = EmptyString /\
  Numbered.FullFormat [diff] DefaultDiffOptions
  = "region: eu" +:+ String lineFeed EmptyString.
Proof. by vm_compute. Qed.

(** **** Loops over indices *)

Lemma indices_nil (a b : Z) : b <= a -> indices a b = [].
Proof. intros. unfold indices. apply seqZ_nil. lia. Qed.

Lemma indices_cons (a b : Z) : a < b -> indices a b = a :: indices (a + 1) b.
Proof.
  intros. unfold indices. rewrite seqZ_cons by lia. f_equal. f_equal; lia.
Qed.

Lemma elem_of_indices (a b i : Z) : i ∈ indices a b <-> a <= i < b.
Proof. unfold indices. rewrite elem_of_seqZ. lia. Qed.

Lemma index_lookup {A} (l : list A) (i : Z) :
  0 <= i -> index l i = l !! Z.to_nat i.
Proof. intros. unfold index. by rewrite (proj2 (Z.ltb_ge i 0)). Qed.

Lemma index_is_Some {A} (l : list A) (i : Z) :
  0 <= i < len l -> is_Some (index l i).
Proof.
  intros [H0 H1]. rewrite index_lookup by done. apply lookup_lt_is_Some.
  unfold len in H1. lia.
Qed.

Lemma forEach_is_Some {S} (idxs : list Z) (body : Z -> S -> option S) (s : S) :
  (forall i s, i ∈ idxs -> is_Some (body i s)) -> is_Some (forEach idxs body s).
Proof.
  revert s. induction idxs as [|i idxs IH]; intros s H; simpl; [eauto|].
  destruct (H i s) as [s' ->]; [left|]. apply IH. intros j t Hj. apply H. by right.
Qed.

Lemma slice_nil {A} (a b : Z) (l : list A) : b <= a -> slice a b l = [].
Proof. intros. unfold slice. by replace (Z.to_nat (b - a)) with 0%nat by lia. Qed.

Lemma slice_cons {A} (a b : Z) (l : list A) (x : A) :
  0 <= a < b -> l !! Z.to_nat a = Some x ->
  slice a b l = x :: slice (a + 1) b l.
Proof.
  intros H Hx. unfold slice.
  rewrite (drop_S l x (Z.to_nat a) Hx).
  replace (Z.to_nat (b - a)) with (S (Z.to_nat (b - (a + 1)))) by lia.
  replace (Z.to_nat (a + 1)) with (S (Z.to_nat a)) by lia. done.
Qed.

Lemma slice_app_mid {A} (a b c : Z) (l : list A) :
  0 <= a <= b -> b <= c -> slice a b l ++ slice b c l = slice a c l.
Proof.
  intros Hab Hbc. unfold slice.
  replace (Z.to_nat (c - a)) with (Z.to_nat (b - a) + Z.to_nat (c - b))%nat by lia.
  rewrite <- take_take_drop. rewrite drop_drop.
  by replace (Z.to_nat a + Z.to_nat (b - a))%nat with (Z.to_nat b) by lia.
Qed.

Lemma printLine_Some (allLines : list lineItem) (i : Z) (p : printer) (x : lineItem) :
  0 <= i -> allLines !! Z.to_nat i = Some x ->
  printLine allLines i p
  = Some {| builder := builder p ++ [Formatted x]; lastPrintedIdx := i |}.
Proof. intros Hi Hx. unfold printLine. by rewrite index_lookup, Hx. Qed.

(** A loop that prints the lines [a] to [b - 1]. *)
Lemma forEach_printLine (allLines : list lineItem) (a b : Z) (p : printer) :
  0 <= a -> b <= len allLines ->
  forEach (indices a b) (printLine allLines) p
  = Some {| builder := builder p ++ (Formatted <$> slice a b allLines);
            lastPrintedIdx := if a <? b then b - 1 else lastPrintedIdx p |}.
Proof.
  intros Ha Hb.
  remember (Z.to_nat (b - a)) as n eqn:Hn. revert a p Ha Hn.
  induction n as [|n IH]; intros a p Ha Hn.
  - rewrite indices_nil, slice_nil by lia. simpl.
    rewrite (proj2 (Z.ltb_ge a b)) by lia. rewrite app_nil_r. by destruct p.
  - assert (a < b) as Hlt by lia.
    destruct (lookup_lt_is_Some_2 allLines (Z.to_nat a)) as [x Hx].
    { unfold len in Hb. lia. }
    rewrite indices_cons by done. cbn [forEach].
    rewrite (printLine_Some _ _ _ x) by done.
    rewrite IH by lia. cbn [builder lastPrintedIdx].
    rewrite (slice_cons a b allLines x) by (done || lia).
    rewrite fmap_cons, <- app_assoc. cbn [app].
    rewrite (proj2 (Z.ltb_lt a b)) by done.
    destruct (Z.ltb_spec (a + 1) b); [done|]. do 2 f_equal. lia.
Qed.

(** The guarded loop before a block prints every line when nothing at or
    after its start has been printed. *)
Lemma forEach_guarded (allLines : list lineItem) (a b : Z) (p : printer) :
  lastPrintedIdx p < a ->
  forEach (indices a b)
    (fun i p => if lastPrintedIdx p <? i then printLine allLines i p else Some p) p
  = forEach (indices a b) (printLine allLines) p.
Proof.
  remember (Z.to_nat (b - a)) as n eqn:Hn. revert a p Hn.
  induction n as [|n IH]; intros a p Hn Hlast.
  - by rewrite indices_nil by lia.
  - rewrite indices_cons by lia. cbn [forEach].
    rewrite (proj2 (Z.ltb_lt _ _) Hlast).
    unfold printLine at 1 3. destruct (index allLines a); [|done].
    apply IH; [lia|]. simpl. lia.
Qed.

(** **** The change blocks *)

Lemma identifyBlocks_acc (lines : list lineItem) (i : Z)
  (blocks : list changeBlock) (cur : option changeBlock) :
  identifyBlocks lines i blocks cur = blocks ++ identifyBlocks lines i [] cur.
Proof.
  revert i blocks cur. induction lines as [|line lines IH]; intros i blocks cur.
  - destruct cur; simpl; [done|by rewrite app_nil_r].
  - simpl. destruct (notEqual (Type__ line)), cur as [block|]; try apply IH.
    rewrite IH, (IH _ [block]). by rewrite app_assoc.
Qed.

(** Unchanged lines outside a block are skipped; a run of changed lines
    extends the current block. *)
Lemma identifyBlocks_equal (eqs rest : list lineItem) (i : Z) :
  Forall (fun line => notEqual (Type__ line) = false) eqs ->
  identifyBlocks (eqs ++ rest) i [] None = identifyBlocks rest (i + len eqs) [] None.
Proof.
  intros H. revert i. induction H as [|line eqs Hl _ IH]; intros i.
  - simpl. f_equal. unfold len. simpl. lia.
  - cbn [app identifyBlocks]. rewrite Hl, IH. f_equal. unfold len. simpl length. lia.
Qed.

Lemma identifyBlocks_changed (chg rest : list lineItem) (i s e : Z) :
  Forall (fun line => notEqual (Type__ line) = true) chg ->
  chg <> [] ->
  identifyBlocks (chg ++ rest) i [] (Some {| StartIdx := s; EndIdx := e |})
  = identifyBlocks rest (i + len chg) []
      (Some {| StartIdx := s; EndIdx := i + len chg - 1 |}).
Proof.
  intros H. revert i e. induction H as [|line chg Hl Hchg IH]; intros i e Hne; [done|].
  cbn [app identifyBlocks]. rewrite Hl. cbn [StartIdx].
  destruct chg as [|line' chg].
  - simpl. unfold len. simpl. do 2 f_equal. f_equal. lia.
  - rewrite IH by done. unfold len. simpl length. f_equal; [lia|]. do 2 f_equal. lia.
Qed.

Lemma identifyBlocks_inRange (lines : list lineItem) (i : Z)
  (blocks : list changeBlock) (cur : option changeBlock) :
  0 <= i ->
  Forall (inRange i) blocks ->
  (forall block, cur = Some block -> inRange i block) ->
  Forall (inRange (i + len lines)) (identifyBlocks lines i blocks cur).
Proof.
  assert (Hmono : forall n m block, n <= m -> inRange n block -> inRange m block).
  { unfold inRange. intros. lia. }
  revert i blocks cur. induction lines as [|line lines IH]; intros i blocks cur Hi Hb Hc.
  - replace (i + len []) with i by (unfold len; simpl; lia).
    simpl. destruct cur as [block|]; [|done].
    apply Forall_app. split; [done|]. apply Forall_singleton. by apply Hc.
  - replace (i + len (line :: lines)) with (i + 1 + len lines)
      by (unfold len; simpl length; lia).
    simpl. destruct (notEqual (Type__ line)), cur as [block|]; apply IH; try lia.
    all: try (eapply Forall_impl; [exact Hb|]; intros b; apply Hmono; lia).
    all: try done.
    + intros b [= <-]. specialize (Hc block eq_refl). unfold inRange in *. simpl. lia.
    + intros b [= <-]. unfold inRange. simpl. lia.
    + apply Forall_app. split.
      * eapply Forall_impl; [exact Hb|]. intros b; apply Hmono; lia.
      * apply Forall_singleton. apply (Hmono i); [lia|]. by apply Hc.
Qed.

(** **** No index is ever out of range *)

Section Safety.

Variable allLines : list lineItem.
Variable options : DiffOptions.

Lemma startContext_nonneg (prev : option changeBlock) (block : changeBlock)
  (p : printer) :
  0 <= (startContext allLines options prev block p).1.
Proof.
  unfold startContext. destruct prev as [prevBlock|]; [|simpl; lia].
  destruct (_ <? _); simpl; lia.
Qed.

Lemma printLine_is_Some (i : Z) (p : printer) :
  0 <= i < len allLines -> is_Some (printLine allLines i p).
Proof.
  intros H. unfold printLine. destruct (index_is_Some allLines i H) as [x ->]. eauto.
Qed.

Lemma printBlock_is_Some (prev : option changeBlock) (block : changeBlock)
  (p : printer) :
  inRange (len allLines) block -> is_Some (printBlock allLines options prev block p).
Proof.
  intros (Hs & Hse & He). unfold printBlock.
  pose proof (startContext_nonneg prev block p) as Hstart.
  destruct (startContext allLines options prev block p) as [contextStart p0].
  simpl in Hstart.
  destruct (forEach_is_Some (indices contextStart (StartIdx block))
              (fun i p => if lastPrintedIdx p <? i then printLine allLines i p
                          else Some p) p0) as [p1 H1].
  { intros i s Hi%elem_of_indices. destruct (_ <? _); [|eauto].
    apply printLine_is_Some. lia. }
  unfold printContextBefore. rewrite H1.
  destruct (forEach_is_Some (indices (StartIdx block) (EndIdx block + 1))
              (printLine allLines) p1) as [p2 H2].
  { intros i s Hi%elem_of_indices. apply printLine_is_Some. lia. }
  unfold printChanges. rewrite H2.
  apply forEach_is_Some. intros i s Hi%elem_of_indices.
  apply printLine_is_Some. unfold contextEndOf in Hi. lia.
Qed.

Lemma printBlocks_is_Some (prev : option changeBlock) (blocks : list changeBlock)
  (p : printer) :
  Forall (inRange (len allLines)) blocks ->
  is_Some (printBlocks allLines options prev blocks p).
Proof.
  intros H. revert prev p. induction H as [|block blocks Hb _ IH]; intros prev p.
  - simpl. eauto.
  - simpl. destruct (printBlock_is_Some prev block p Hb) as [p' ->]. apply IH.
Qed.

Lemma compactLines_is_Some : is_Some (compactLines allLines options).
Proof.
  unfold compactLines. destruct (_ =? _)%nat; [eauto|].
  destruct (printBlocks_is_Some None (identifyBlocks allLines 0 [] None)
              {| builder := []; lastPrintedIdx := -1 |}) as [p ->]; [|eauto].
  apply (identifyBlocks_inRange allLines 0 [] None); [lia|done|done].
Qed.

End Safety.

(** **** The flat list of lines *)

Lemma removelast_length_le {A} (l : list A) : (length (removelast l) <= length l)%nat.
Proof.
  induction l as [|x l IH]; [done|]. destruct l as [|y l]; [simpl; lia|].
  change (removelast (x :: y :: l)) with (x :: removelast (y :: l)).
  simpl length in *. lia.
Qed.

Lemma textLines_length_le (s : string) :
  (length (textLines s) <= length (Split s))%nat.
Proof.
  rewrite textLines_unfold. destruct (HasSuffix s); [apply removelast_length_le|done].
Qed.

(** What an item shows in the output: its type and its formatted line. *)
Lemma lineItems_loop (diff : Diff) (options : DiffOptions) (formattedLines : list string)
  (trailing : bool) (a : Z) (items : list lineItem) :
  0 <= a ->
  (length formattedLines <= length (Split (Text diff)))%nat ->
  exists more,
    forEach (indices a (len formattedLines))
      (fun i items =>
         match index formattedLines i with
         | None => None
         | Some formatted =>
             match
               (if negb (trailing && (len formattedLines =? 1) && (i =? 0))
                then index (Split (Text diff)) i
                else Some EmptyString)
             with
             | None => None
             | Some content =>
                 Some (items ++ [{| Type__ := Type_ diff;
                                    Content := content;
                                    Formatted := formatted |}])
             end
         end)
      items
    = Some (items ++ more)
    /\ (fun item => (Type__ item, Formatted item)) <$> more
       = (fun formatted => (Type_ diff, formatted))
           <$> drop (Z.to_nat a) formattedLines.
Proof.
  intros Ha Hlen.
  remember (Z.to_nat (len formattedLines - a)) as n eqn:Hn. revert a items Ha Hn.
  induction n as [|n IH]; intros a items Ha Hn.
  - exists []. rewrite indices_nil by lia. rewrite drop_ge by (unfold len in Hn; lia).
    split; [by rewrite app_nil_r|done].
  - assert (a < len formattedLines) as Hlt by lia.
    destruct (lookup_lt_is_Some_2 formattedLines (Z.to_nat a)) as [formatted Hf].
    { unfold len in Hlt. lia. }
    destruct (lookup_lt_is_Some_2 (Split (Text diff)) (Z.to_nat a)) as [piece Hp].
    { unfold len in Hlt. lia. }
    rewrite indices_cons by done. cbn [forEach].
    rewrite !index_lookup by done. rewrite Hf, Hp.
    set (content := if negb _ then Some piece else Some EmptyString).
    assert (exists c, content = Some c) as [c ->].
    { unfold content. destruct (negb _); eauto. }
    destruct (IH (a + 1) (items ++ [{| Type__ := Type_ diff; Content := c;
                                         Formatted := formatted |}]))
      as (more & Hloop & Hmore); [lia|lia|].
    eexists (_ :: more). split.
    + rewrite Hloop. by rewrite <- app_assoc.
    + rewrite (drop_S _ _ _ Hf), !fmap_cons, Hmore. cbn [Type__ Formatted].
      by replace (Z.to_nat (a + 1)) with (S (Z.to_nat a)) by lia.
Qed.

Lemma lineItems_spec (diff : Diff) (options : DiffOptions) :
  exists items,
    lineItems diff options = Some items
    /\ (fun item => (Type__ item, Formatted item)) <$> items
       = (fun line => (Type_ diff, formatLine line (Type_ diff) options))
           <$> textLines (Text diff).
Proof.
  unfold lineItems.
  destruct (processLines diff options) as [formattedLines trailing] eqn:Hpl.
  pose proof (processLines_lines diff options) as Hlines.
  rewrite Hpl in Hlines. cbn [fst] in Hlines.
  destruct (lineItems_loop diff options formattedLines trailing 0 [])
    as (more & Hloop & Hmore); [lia| |].
  { rewrite Hlines, length_fmap. apply textLines_length_le. }
  exists more. split; [exact Hloop|].
  rewrite Hmore. change (Z.to_nat 0) with 0%nat. rewrite drop_0, Hlines.
  by rewrite <- list_fmap_compose.
Qed.

(** The lines the formatters show: every line of every diff text, under
    the type of its diff. *)
Lemma allLinesFrom_spec (allLines : list lineItem) (diffs : list Diff)
  (options : DiffOptions) :
  exists items,
    allLinesFrom allLines diffs options = Some (allLines ++ items)
    /\ (fun item => (Type__ item, Formatted item)) <$> items
       = concat ((fun diff =>
           (fun line => (Type_ diff, formatLine line (Type_ diff) options))
             <$> textLines (Text diff)) <$> diffs).
Proof.
  revert allLines. induction diffs as [|diff diffs IH]; intros allLines.
  - exists []. by rewrite app_nil_r.
  - destruct (lineItems_spec diff options) as (items & Hitems & Hshape).
    destruct (IH (allLines ++ items)) as (more & Hmore & Hshape').
    exists (items ++ more). simpl. rewrite Hitems, Hmore.
    split; [by rewrite app_assoc|]. by rewrite fmap_app, Hshape, Hshape'.
Qed.

(** X3. The compact formatter never indexes a slice out of range: for
    every list of diffs and all options, also a negative or huge number
    of context lines, it returns a string, and so does [FormatDiff] in
    either mode. *)
Theorem compact_format_never_panics (diffs : list Diff) (options : DiffOptions) :
  (exists output, CompactFormat diffs options = Some output)
  /\ (exists output, FormatDiff diffs options = Some output).
Proof.
  assert (exists output, CompactFormat diffs options = Some output) as Hcompact.
  { unfold CompactFormat.
    destruct (allLinesFrom_spec [] diffs options) as (allLines & -> & _).
    destruct (compactLines_is_Some ([] ++ allLines) options) as [lines ->]. eauto. }
  split; [done|]. unfold FormatDiff, NewFormatter.
  destruct (Compact options); [done|eauto].
Qed.

(** **** What one block prints *)

Lemma int_small (z : Z) : - 2 ^ 63 <= z < 2 ^ 63 -> int z = z.
Proof. intros H. unfold int. rewrite Z.mod_small; lia. Qed.

Section ClosedForm.

Variable allLines : list lineItem.
Variable options : DiffOptions.

Hypothesis context_nonneg : 0 <= ContextLines options.
Hypothesis no_overflow : len allLines + ContextLines options + 1 < 2 ^ 63.

Lemma contextEndOf_spec (block : changeBlock) :
  inRange (len allLines) block ->
  contextEndOf allLines options block
  = Z.min (len allLines) (EndIdx block + ContextLines options + 1).
Proof using All.
  intros (Hs & Hse & He). unfold contextEndOf. rewrite !int_small; [done|lia|].
  rewrite int_small; lia.
Qed.

Lemma printBlock_spec (prev : option changeBlock) (block : changeBlock) (p : printer) :
  inRange (len allLines) block ->
  (forall prevBlock, prev = Some prevBlock -> inRange (len allLines) prevBlock) ->
  (prev = None -> lastPrintedIdx p = -1) ->
  -1 <= lastPrintedIdx p < len allLines ->
  printBlock allLines options prev block p
  = Some {| builder :=
              builder p ++ (firstPrinted allLines options prev block p).1
              ++ (Formatted <$> slice (firstPrinted allLines options prev block p).2
                                  (Z.min (len allLines)
                                     (EndIdx block + ContextLines options + 1))
                                  allLines);
            lastPrintedIdx :=
              Z.min (len allLines) (EndIdx block + ContextLines options + 1) - 1 |}.
Proof using All.
  intros Hb Hprev Hfirst Hlast. pose proof Hb as (Hs & Hse & He).
  unfold printBlock.
  assert (exists q from,
    startContext allLines options prev block p = (from, q)
    /\ builder q = builder p ++ (firstPrinted allLines options prev block p).1
    /\ lastPrintedIdx q < from
    /\ 0 <= from
    /\ (firstPrinted allLines options prev block p).2 = Z.min (StartIdx block) from)
    as (q & from & -> & Hq & Hguard & Hfrom & Hmin).
  { unfold startContext, firstPrinted.
    rewrite (int_small (StartIdx block - _)) by lia.
    destruct prev as [prevBlock|].
    - rewrite (contextEndOf_spec prevBlock) by eauto.
      rewrite (int_small (lastPrintedIdx p + 1)) by lia.
      destruct (_ <? _) eqn:Hsep.
      + eexists _, _. split; [done|]. simpl. repeat split; lia.
      + eexists _, _. split; [done|]. simpl. rewrite app_nil_r. repeat split; lia.
    - eexists _, _. split; [done|]. simpl. rewrite app_nil_r, Hfirst by done.
      repeat split; lia. }
  unfold printContextBefore. rewrite forEach_guarded by done.
  rewrite forEach_printLine by lia.
  unfold printChanges. rewrite forEach_printLine by (cbn [lastPrintedIdx]; lia).
  unfold printContextAfter. rewrite contextEndOf_spec by done.
  rewrite forEach_printLine by (cbn [lastPrintedIdx]; lia).
  cbn [builder lastPrintedIdx]. rewrite Hq, Hmin.
  set (n := len allLines) in *. set (c := ContextLines options) in *.
  set (s := StartIdx block) in *. set (e := EndIdx block) in *.
  f_equal. f_equal.
  - rewrite <- !app_assoc. f_equal. f_equal. rewrite <- !fmap_app. f_equal.
    destruct (Z.le_gt_cases from s).
    + rewrite (Z.min_r s from) by lia. rewrite app_assoc.
      rewrite (slice_app_mid from s (e + 1)) by lia.
      apply slice_app_mid; lia.
    + rewrite (Z.min_l s from) by lia. rewrite (slice_nil from s) by lia. simpl.
      apply slice_app_mid; lia.
  - rewrite (proj2 (Z.ltb_lt s (e + 1))) by lia.
    destruct (Z.ltb_spec (e + 1) (Z.min n (e + c + 1))); lia.
Qed.

End ClosedForm.

(** **** Slices of a list given in parts *)

Lemma len_app {A} (l1 l2 : list A) : len (l1 ++ l2) = len l1 + len l2.
Proof. unfold len. rewrite length_app. lia. Qed.

Lemma len_nonneg {A} (l : list A) : 0 <= len l.
Proof. unfold len. lia. Qed.

Lemma len_pos {A} (l : list A) : l <> [] -> 0 < len l.
Proof. destruct l; [done|]. unfold len. simpl. lia. Qed.

Lemma slice_tail {A} (a b : Z) (l1 l2 : list A) :
  0 <= a <= len l1 -> b = len l1 -> slice a b (l1 ++ l2) = drop (Z.to_nat a) l1.
Proof.
  intros Ha ->. unfold slice, len in *.
  rewrite drop_app_le by lia. apply take_app_length'. rewrite length_drop. lia.
Qed.

Lemma slice_head {A} (a b : Z) (l1 l2 : list A) :
  a = len l1 -> slice a b (l1 ++ l2) = take (Z.to_nat (b - len l1)) l2.
Proof.
  intros ->. unfold slice, len. by rewrite drop_app_length' by lia.
Qed.

Lemma slice_part {A} (a b : Z) (l1 l2 l3 : list A) :
  a = len l1 -> b = len l1 + len l2 -> slice a b (l1 ++ l2 ++ l3) = l2.
Proof.
  intros -> ->. rewrite slice_head by done. apply take_app_length'. unfold len. lia.
Qed.

Lemma identifyBlocks_run (chg rest : list lineItem) (i : Z) :
  Forall (fun line => notEqual (Type__ line) = true) chg ->
  chg <> [] ->
  identifyBlocks (chg ++ rest) i [] None
  = identifyBlocks rest (i + len chg) []
      (Some {| StartIdx := i; EndIdx := i + len chg - 1 |}).
Proof.
  intros H Hne. destruct chg as [|line chg]; [done|].
  apply Forall_cons in H as [Hl H].
  cbn [app identifyBlocks]. rewrite Hl.
  destruct chg as [|line' chg].
  - simpl. unfold len. simpl. do 2 f_equal. f_equal. lia.
  - rewrite identifyBlocks_changed by done. unfold len. simpl length.
    f_equal; [lia|]. do 2 f_equal. lia.
Qed.

Lemma identifyBlocks_close (eqs rest : list lineItem) (i : Z) (block : changeBlock) :
  Forall (fun line => notEqual (Type__ line) = false) eqs ->
  eqs <> [] ->
  identifyBlocks (eqs ++ rest) i [] (Some block)
  = block :: identifyBlocks rest (i + len eqs) [] None.
Proof.
  intros H Hne. destruct eqs as [|line eqs]; [done|].
  apply Forall_cons in H as [Hl H].
  cbn [app identifyBlocks]. rewrite Hl. rewrite identifyBlocks_acc.
  rewrite identifyBlocks_equal by done. cbn [app]. do 2 f_equal.
  unfold len. simpl length. lia.
Qed.

(** The blocks of unchanged lines, a run of changes, and unchanged lines
    again. *)
Lemma identifyBlocks_one (pre mid post : list lineItem) :
  Forall (fun line => notEqual (Type__ line) = false) pre ->
  Forall (fun line => notEqual (Type__ line) = true) mid ->
  mid <> [] ->
  Forall (fun line => notEqual (Type__ line) = false) post ->
  identifyBlocks (pre ++ mid ++ post) 0 [] None
  = [{| StartIdx := len pre; EndIdx := len pre + len mid - 1 |}].
Proof.
  intros Hpre Hmid Hne Hpost.
  rewrite identifyBlocks_equal by done. rewrite identifyBlocks_run by done.
  destruct post as [|line post]; [done|].
  rewrite <- (app_nil_r (line :: post)).
  rewrite identifyBlocks_close by done. done.
Qed.

Lemma compactLines_one (pre mid post : list lineItem) (options : DiffOptions) :
  Forall (fun line => notEqual (Type__ line) = false) pre ->
  Forall (fun line => notEqual (Type__ line) = true) mid ->
  mid <> [] ->
  Forall (fun line => notEqual (Type__ line) = false) post ->
  0 <= ContextLines options ->
  len (pre ++ mid ++ post) + ContextLines options + 1 < 2 ^ 63 ->
  compactLines (pre ++ mid ++ post) options
  = Some (Formatted <$>
            (drop (length pre - Z.to_nat (ContextLines options)) pre
             ++ mid ++ take (Z.to_nat (ContextLines options)) post)).
Proof.
  intros Hpre Hmid Hne Hpost Hc Hbound.
  pose proof (len_pos mid Hne) as Hmidlen.
  pose proof (len_nonneg pre). pose proof (len_nonneg post).
  unfold compactLines. rewrite identifyBlocks_one by done.
  cbn [length Nat.eqb printBlocks].
  pose proof Hbound as Hn. rewrite !len_app in Hn.
  rewrite printBlock_spec; [|done|done|..]; cycle 1.
  { unfold inRange. simpl. rewrite !len_app. lia. }
  { done. }
  { done. }
  { simpl. rewrite !len_app. lia. }
  cbn [builder firstPrinted fst snd app StartIdx EndIdx]. f_equal.
  set (c := ContextLines options) in *.
  rewrite !len_app.
  rewrite <- (slice_app_mid _ (len pre)) by lia.
  rewrite <- (slice_app_mid (len pre) (len pre + len mid)) by lia.
  rewrite (slice_tail _ (len pre)) by lia.
  rewrite (slice_part (len pre) (len pre + len mid)) by done.
  rewrite (app_assoc pre mid post).
  rewrite (slice_head (len pre + len mid)) by (by rewrite len_app).
  rewrite len_app. f_equal. f_equal.
  - f_equal. unfold len. lia.
  - f_equal. unfold len in *.
    destruct (Z.le_gt_cases (Z.of_nat (length post)) c).
    + rewrite !take_ge by lia. done.
    + f_equal. lia.
Qed.

Lemma slice_window {A} (a b : Z) (pre mid post : list A) :
  0 <= a <= len pre -> len pre + len mid <= b ->
  slice a b (pre ++ mid ++ post)
  = drop (Z.to_nat a) pre ++ mid ++ take (Z.to_nat (b - len pre - len mid)) post.
Proof.
  intros Ha Hb. pose proof (len_nonneg mid).
  rewrite <- (slice_app_mid _ (len pre)) by lia.
  rewrite <- (slice_app_mid (len pre) (len pre + len mid)) by lia.
  rewrite (slice_tail _ (len pre)) by lia.
  rewrite (slice_part (len pre) (len pre + len mid)) by done.
  rewrite (app_assoc pre mid post).
  rewrite (slice_head (len pre + len mid)) by (by rewrite len_app).
  rewrite len_app. do 3 f_equal. lia.
Qed.

Lemma identifyBlocks_two (pre m1 gap m2 post : list lineItem) :
  Forall (fun line => notEqual (Type__ line) = false) pre ->
  Forall (fun line => notEqual (Type__ line) = true) m1 -> m1 <> [] ->
  Forall (fun line => notEqual (Type__ line) = false) gap -> gap <> [] ->
  Forall (fun line => notEqual (Type__ line) = true) m2 -> m2 <> [] ->
  Forall (fun line => notEqual (Type__ line) = false) post ->
  identifyBlocks (pre ++ m1 ++ gap ++ m2 ++ post) 0 [] None
  = [{| StartIdx := len pre; EndIdx := len pre + len m1 - 1 |};
     {| StartIdx := len pre + len m1 + len gap;
        EndIdx := len pre + len m1 + len gap + len m2 - 1 |}].
Proof.
  intros Hpre Hm1 Hne1 Hgap Hneg Hm2 Hne2 Hpost.
  rewrite identifyBlocks_equal by done. rewrite identifyBlocks_run by done.
  rewrite identifyBlocks_close by done. rewrite identifyBlocks_run by done.
  f_equal. destruct post as [|line post]; [done|].
  rewrite <- (app_nil_r (line :: post)).
  rewrite identifyBlocks_close by done. done.
Qed.

(** Two runs of changes with [gap] between them. *)
Lemma compactLines_two (pre m1 gap m2 post : list lineItem) (options : DiffOptions) :
  Forall (fun line => notEqual (Type__ line) = false) pre ->
  Forall (fun line => notEqual (Type__ line) = true) m1 -> m1 <> [] ->
  Forall (fun line => notEqual (Type__ line) = false) gap -> gap <> [] ->
  Forall (fun line => notEqual (Type__ line) = true) m2 -> m2 <> [] ->
  Forall (fun line => notEqual (Type__ line) = false) post ->
  0 <= ContextLines options ->
  len (pre ++ m1 ++ gap ++ m2 ++ post) + ContextLines options + 1 < 2 ^ 63 ->
  let c := Z.to_nat (ContextLines options) in
  compactLines (pre ++ m1 ++ gap ++ m2 ++ post) options
  = Some ((Formatted <$> (drop (length pre - c) pre ++ m1))
          ++ (if (length gap <? c)%nat
              then Formatted <$> (take c (gap ++ m2 ++ post) ++ m2)
              else if (length gap <=? 2 * c)%nat
                   then Formatted <$> (gap ++ m2)
                   else (Formatted <$> take c gap)
                        ++ [ChunkSeparator options]
                        ++ (Formatted <$> (drop (length gap - c) gap ++ m2)))
          ++ (Formatted <$> take c post)).
Proof.
  intros Hpre Hm1 Hne1 Hgap Hneg Hm2 Hne2 Hpost Hc Hbound c.
  pose proof (len_pos m1 Hne1). pose proof (len_pos m2 Hne2).
  pose proof (len_pos gap Hneg).
  pose proof (len_nonneg pre). pose proof (len_nonneg post).
  unfold compactLines. rewrite identifyBlocks_two by done.
  cbn [length Nat.eqb printBlocks].
  pose proof Hbound as Hn. rewrite !len_app in Hn.
  set (b1 := {| StartIdx := len pre; EndIdx := len pre + len m1 - 1 |}).
  set (b2 := {| StartIdx := len pre + len m1 + len gap;
                EndIdx := len pre + len m1 + len gap + len m2 - 1 |}).
  assert (inRange (len (pre ++ m1 ++ gap ++ m2 ++ post)) b1) as Hb1.
  { unfold inRange. simpl. rewrite !len_app. lia. }
  assert (inRange (len (pre ++ m1 ++ gap ++ m2 ++ post)) b2) as Hb2.
  { unfold inRange. simpl. rewrite !len_app. lia. }
  rewrite printBlock_spec; [|done|done|done|done|done|]; cycle 1.
  { simpl. rewrite !len_app. lia. }
  rewrite printBlock_spec; [|done|done|done| | |]; cycle 1.
  { by intros ? [= <-]. }
  { done. }
  { cbn [lastPrintedIdx EndIdx b1]. rewrite !len_app. lia. }
  cbn [builder lastPrintedIdx firstPrinted fst snd app StartIdx EndIdx b1 b2].
  f_equal. rewrite !len_app.
  set (k := ContextLines options) in *.
  set (L := pre ++ m1 ++ gap ++ m2 ++ post).
  set (n := len pre + (len m1 + (len gap + (len m2 + len post)))).
  (* the first window *)
  assert (slice (Z.max 0 (len pre - k)) (Z.min n (len pre + len m1 - 1 + k + 1)) L
          = drop (length pre - c) pre ++ m1 ++ take c (gap ++ m2 ++ post)) as Hw1.
  { unfold L. rewrite slice_window by lia. f_equal.
    - f_equal. unfold len, c. lia.
    - f_equal. unfold c, n, len in *.
      destruct (Z.le_gt_cases (Z.of_nat (length (gap ++ m2 ++ post))) k) as [Hle|Hgt].
      + rewrite !take_ge; [done|..]; rewrite !length_app in *; lia.
      + f_equal. rewrite !length_app in *. lia. }
  destruct (Nat.ltb_spec (length gap) c) as [Hclose|Hfar1].
  - (* the second run starts inside the context after the first *)
    assert ((Z.min n (len pre + len m1 - 1 + k + 1)
              <? Z.max 0 (len pre + len m1 + len gap - k)) = false) as ->.
    { apply Z.ltb_ge. unfold c, n, len in *. lia. }
    cbn [fst snd app]. rewrite Hw1.
    replace (Z.min (len pre + len m1 + len gap)
               (Z.max (Z.min n (len pre + len m1 - 1 + k + 1) - 1 + 1)
                  (Z.max 0 (len pre + len m1 + len gap - k))))
      with (len (pre ++ m1 ++ gap))
      by (rewrite !len_app; unfold c, n, len in *; lia).
    replace L with ((pre ++ m1 ++ gap) ++ m2 ++ post)
      by (unfold L; by rewrite <- !app_assoc).
    rewrite slice_window; cycle 1.
    { pose proof (len_nonneg (pre ++ m1 ++ gap)). lia. }
    { rewrite !len_app. unfold c, n, len in *. lia. }
    rewrite (drop_ge (pre ++ m1 ++ gap)) by (unfold len; lia). cbn [app].
    rewrite !fmap_app, <- !app_assoc. do 4 f_equal.
    rewrite !len_app. unfold c, n, len in *.
    destruct (Z.le_gt_cases (Z.of_nat (length post)) k) as [Hle|Hgt].
    + rewrite !take_ge by lia. done.
    + do 2 f_equal. lia.
  - destruct (Nat.leb_spec (length gap) (2 * c)) as [Hnear|Hfar].
    + (* the two contexts meet or overlap *)
      assert ((Z.min n (len pre + len m1 - 1 + k + 1)
                <? Z.max 0 (len pre + len m1 + len gap - k)) = false) as ->.
      { apply Z.ltb_ge. unfold c, n, len in *. lia. }
      cbn [fst snd app].
      replace (Z.min (len pre + len m1 + len gap)
                 (Z.max (Z.min n (len pre + len m1 - 1 + k + 1) - 1 + 1)
                    (Z.max 0 (len pre + len m1 + len gap - k))))
        with (Z.min n (len pre + len m1 - 1 + k + 1))
        by (unfold c, n, len in *; lia).
      rewrite <- fmap_app.
      rewrite slice_app_mid by (unfold c, n, len in *; lia).
      replace L with (pre ++ (m1 ++ gap ++ m2) ++ post)
        by (unfold L; by rewrite <- !app_assoc).
      rewrite slice_window; cycle 1.
      { lia. }
      { rewrite !len_app. unfold c, n, len in *. lia. }
      rewrite !fmap_app, <- !app_assoc. f_equal.
      { do 2 f_equal. unfold c, len. lia. }
      do 3 f_equal.
      rewrite !len_app. unfold c, n, len in *.
      destruct (Z.le_gt_cases (Z.of_nat (length post)) k) as [Hle|Hgt].
      * rewrite !take_ge by lia. done.
      * do 2 f_equal. lia.
    + (* a gap between the two contexts *)
      assert ((Z.min n (len pre + len m1 - 1 + k + 1)
                <? Z.max 0 (len pre + len m1 + len gap - k)) = true) as ->.
      { apply Z.ltb_lt. unfold c, n, len in *. lia. }
      cbn [fst snd app]. rewrite Hw1.
      replace L with ((pre ++ m1 ++ gap) ++ m2 ++ post)
        by (unfold L; by rewrite <- !app_assoc).
      rewrite slice_window; cycle 1.
      { rewrite !len_app. unfold c, n, len in *. lia. }
      { rewrite !len_app. unfold c, n, len in *. lia. }
      rewrite (take_app_le gap) by lia.
      rewrite (drop_app_ge pre) by (unfold c, n, len in *; lia).
      rewrite (drop_app_ge m1) by (unfold c, n, len in *; lia).
      rewrite !fmap_app, <- !app_assoc. do 3 f_equal. cbn [app]. f_equal.
      rewrite <- app_assoc. f_equal.
      { do 2 f_equal. unfold c, n, len in *. lia. }
      f_equal.
      rewrite !len_app. unfold c, n, len in *.
      destruct (Z.le_gt_cases (Z.of_nat (length post)) k) as [Hle|Hgt].
      * rewrite !take_ge by lia. done.
      * do 2 f_equal. lia.
Qed.

(** **** From diffs to lines *)

Lemma allLines_expected (diffs : list Diff) (options : DiffOptions) :
  exists allLines,
    allLinesFrom [] diffs options = Some allLines
    /\ shown <$> allLines = expectedLines diffs options.
Proof.
  destruct (allLinesFrom_spec [] diffs options) as (items & H & Hshape). eauto.
Qed.

Lemma expectedLines_app (diffs1 diffs2 : list Diff) (options : DiffOptions) :
  expectedLines (diffs1 ++ diffs2) options
  = expectedLines diffs1 options ++ expectedLines diffs2 options.
Proof. unfold expectedLines. by rewrite fmap_app, concat_app. Qed.

Lemma expectedLines_formatted (diffs : list Diff) (options : DiffOptions)
  (items : list lineItem) :
  shown <$> items = expectedLines diffs options ->
  Formatted <$> items = fullLines diffs options.
Proof.
  intros H. apply (f_equal (fmap snd)) in H.
  rewrite <- list_fmap_compose in H. rewrite fullLines_concat.
  etrans; [exact H|]. clear H. unfold expectedLines.
  induction diffs as [|diff diffs IH]; [done|].
  cbn [fmap list_fmap concat]. rewrite fmap_app. f_equal; [|exact IH].
  by rewrite <- list_fmap_compose.
Qed.

Lemma elem_of_concat {A} (x : A) (ls : list (list A)) :
  x ∈ concat ls <-> exists l, x ∈ l /\ l ∈ ls.
Proof.
  induction ls as [|l ls IH]; simpl.
  - split; [by intros ?%elem_of_nil|]. by intros (l & _ & ?%elem_of_nil).
  - rewrite elem_of_app, IH. split.
    + intros [H|(l' & H & Hl')]; [exists l; split; [done|left]|].
      exists l'. split; [done|by right].
    + intros (l' & H & [->|Hl']%elem_of_cons); [by left|]. right. eauto.
Qed.

Lemma expectedLines_types (diffs : list Diff) (options : DiffOptions)
  (items : list lineItem) (P : Operation -> Prop) :
  shown <$> items = expectedLines diffs options ->
  Forall (fun diff => P (Type_ diff)) diffs ->
  Forall (fun item => P (Type__ item)) items.
Proof.
  intros H Hall. apply Forall_forall. intros item Hitem.
  apply (list_elem_of_fmap_2 shown) in Hitem. rewrite H in Hitem.
  unfold expectedLines in Hitem.
  apply elem_of_concat in Hitem as (lines & Hin & Hlines).
  apply list_elem_of_fmap in Hlines as (diff & -> & Hdiff).
  apply list_elem_of_fmap in Hin as (line & Heq & _).
  apply (f_equal fst) in Heq. simpl in Heq. rewrite Heq.
  by apply (proj1 (Forall_forall _ _) Hall).
Qed.

Lemma expectedLines_nonempty (diffs : list Diff) (options : DiffOptions)
  (items : list lineItem) :
  shown <$> items = expectedLines diffs options -> diffs <> [] -> items <> [].
Proof.
  intros H Hne ->. destruct diffs as [|diff diffs]; [done|].
  unfold expectedLines in H. cbn [fmap list_fmap concat] in H.
  by destruct (textLines_cons (Text diff)) as (h & t & Ht); rewrite Ht in H.
Qed.

Lemma notEqual_false (t : Operation) : t = DiffEqual -> notEqual t = false.
Proof. by intros ->. Qed.

Lemma notEqual_true (t : Operation) : t <> DiffEqual -> notEqual t = true.
Proof. by destruct t. Qed.

(** The lines of [before], [changes] and [after], as the compact
    formatter collects them. *)
Lemma allLines_three (before changes after : list Diff) (options : DiffOptions) :
  Forall (fun diff => Type_ diff = DiffEqual) before ->
  Forall (fun diff => Type_ diff <> DiffEqual) changes ->
  changes <> [] ->
  Forall (fun diff => Type_ diff = DiffEqual) after ->
  exists pre mid post,
    allLinesFrom [] (before ++ changes ++ after) options = Some (pre ++ mid ++ post)
    /\ Formatted <$> pre = fullLines before options
    /\ Formatted <$> mid = fullLines changes options
    /\ Formatted <$> post = fullLines after options
    /\ Forall (fun line => notEqual (Type__ line) = false) pre
    /\ Forall (fun line => notEqual (Type__ line) = true) mid
    /\ mid <> []
    /\ Forall (fun line => notEqual (Type__ line) = false) post.
Proof.
  intros Hb Hc Hne Ha.
  destruct (allLines_expected (before ++ changes ++ after) options)
    as (allLines & Hall & Hshape).
  rewrite !expectedLines_app in Hshape.
  apply fmap_app_inv in Hshape as (pre & rest & Hpre & Hrest & ->).
  symmetry in Hrest.
  apply fmap_app_inv in Hrest as (mid & post & Hmid & Hpost & ->).
  exists pre, mid, post. split; [done|].
  split; [by apply expectedLines_formatted|].
  split; [by apply expectedLines_formatted|].
  split; [by apply expectedLines_formatted|].
  split.
  { apply (expectedLines_types before options pre
             (fun t => notEqual t = false)); [done|].
    eapply Forall_impl; [exact Hb|]. intros d. apply notEqual_false. }
  split.
  { apply (expectedLines_types changes options mid
             (fun t => notEqual t = true)); [done|].
    eapply Forall_impl; [exact Hc|]. intros d. apply notEqual_true. }
  split; [by eapply expectedLines_nonempty|].
  apply (expectedLines_types after options post
           (fun t => notEqual t = false)); [done|].
  eapply Forall_impl; [exact Ha|]. intros d. apply notEqual_false.
Qed.

Lemma CompactFormat_one (before changes after : list Diff) (options : DiffOptions) :
  Forall (fun diff => Type_ diff = DiffEqual) before ->
  Forall (fun diff => Type_ diff <> DiffEqual) changes ->
  changes <> [] ->
  Forall (fun diff => Type_ diff = DiffEqual) after ->
  0 <= ContextLines options ->
  len (fullLines (before ++ changes ++ after) options) + ContextLines options + 1
    < 2 ^ 63 ->
  let c := Z.to_nat (ContextLines options) in
  let context := fullLines before options in
  CompactFormat (before ++ changes ++ after) options
  = Some (builderString
            (drop (length context - c) context
             ++ fullLines changes options
             ++ take c (fullLines after options))).
Proof.
  intros Hb Hc Hne Ha Hk Hbound c context.
  destruct (allLines_three before changes after options Hb Hc Hne Ha)
    as (pre & mid & post & Hall & Hpre & Hmid & Hpost & Tpre & Tmid & Nmid & Tpost).
  unfold CompactFormat. rewrite Hall.
  rewrite compactLines_one; [|done..|]; cycle 1.
  { rewrite !fullLines_app, <- Hpre, <- Hmid, <- Hpost in Hbound.
    unfold len in *. rewrite !length_app, !length_fmap in Hbound.
    rewrite !length_app. lia. }
  do 2 f_equal. rewrite !fmap_app, fmap_drop, fmap_take.
  unfold context. rewrite <- Hpre, <- Hmid, <- Hpost. by rewrite length_fmap.
Qed.

(** X4. With one run of changes, the compact output is that run with the
    last [ContextLines] unchanged lines before it and the first
    [ContextLines] after it, as the full format writes them, and no
    separator. *)
Theorem compact_format_one_block (before changes after : list Diff)
  (options : DiffOptions) :
  Forall (fun diff => Type_ diff = DiffEqual) before ->
  Forall (fun diff => Type_ diff <> DiffEqual) changes ->
  changes <> [] ->
  Forall (fun diff => Type_ diff = DiffEqual) after ->
  0 <= ContextLines options ->
  len (fullLines (before ++ changes ++ after) options) + ContextLines options + 1
    < 2 ^ 63 ->
  let c := Z.to_nat (ContextLines options) in
  let context := fullLines before options in
  CompactFormat (before ++ changes ++ after) options
  = Some (builderString
            (drop (length context - c) context
             ++ fullLines changes options
             ++ take c (fullLines after options))).
Proof. exact (CompactFormat_one before changes after options). Qed.

Lemma expectedLines_equal (diffs : list Diff) (options : DiffOptions)
  (items : list lineItem) :
  expectedLines diffs options = shown <$> items ->
  Forall (fun diff => Type_ diff = DiffEqual) diffs ->
  Forall (fun line => notEqual (Type__ line) = false) items.
Proof.
  intros H Hall.
  apply (expectedLines_types diffs options items (fun t => notEqual t = false));
    [done|].
  eapply Forall_impl; [exact Hall|]. intros d. apply notEqual_false.
Qed.

Lemma expectedLines_changed (diffs : list Diff) (options : DiffOptions)
  (items : list lineItem) :
  expectedLines diffs options = shown <$> items ->
  Forall (fun diff => Type_ diff <> DiffEqual) diffs ->
  Forall (fun line => notEqual (Type__ line) = true) items.
Proof.
  intros H Hall.
  apply (expectedLines_types diffs options items (fun t => notEqual t = true));
    [done|].
  eapply Forall_impl; [exact Hall|]. intros d. apply notEqual_true.
Qed.

Lemma CompactFormat_two (before changes1 between changes2 after : list Diff)
  (options : DiffOptions) :
  Forall (fun diff => Type_ diff = DiffEqual) before ->
  Forall (fun diff => Type_ diff <> DiffEqual) changes1 -> changes1 <> [] ->
  Forall (fun diff => Type_ diff = DiffEqual) between -> between <> [] ->
  Forall (fun diff => Type_ diff <> DiffEqual) changes2 -> changes2 <> [] ->
  Forall (fun diff => Type_ diff = DiffEqual) after ->
  0 <= ContextLines options ->
  len (fullLines (before ++ changes1 ++ between ++ changes2 ++ after) options)
    + ContextLines options + 1 < 2 ^ 63 ->
  let c := Z.to_nat (ContextLines options) in
  let context := fullLines before options in
  let first := fullLines changes1 options in
  let gap := fullLines between options in
  let second := fullLines changes2 options in
  let rest := fullLines after options in
  CompactFormat (before ++ changes1 ++ between ++ changes2 ++ after) options
  = Some (builderString
            (drop (length context - c) context ++ first
             ++ (if (length gap <? c)%nat
                 then take c (gap ++ second ++ rest) ++ second
                 else if (length gap <=? 2 * c)%nat
                      then gap ++ second
                      else take c gap ++ [ChunkSeparator options]
                           ++ drop (length gap - c) gap ++ second)
             ++ take c rest)).
Proof.
  intros Hb Hc1 Hne1 Hg Hneg Hc2 Hne2 Ha Hk Hbound c context first gap second rest.
  destruct (allLines_expected (before ++ changes1 ++ between ++ changes2 ++ after)
              options) as (allLines & Hall & Hshape).
  rewrite !expectedLines_app in Hshape.
  apply fmap_app_inv in Hshape as (pre & r1 & Hpre & Hr1 & ->). symmetry in Hr1.
  apply fmap_app_inv in Hr1 as (m1 & r2 & Hm1 & Hr2 & ->). symmetry in Hr2.
  apply fmap_app_inv in Hr2 as (mid & r3 & Hmid & Hr3 & ->). symmetry in Hr3.
  apply fmap_app_inv in Hr3 as (m2 & post & Hm2 & Hpost & ->).
  assert (Formatted <$> pre = context) as Fpre
    by (by apply expectedLines_formatted).
  assert (Formatted <$> m1 = first) as Fm1 by (by apply expectedLines_formatted).
  assert (Formatted <$> mid = gap) as Fmid by (by apply expectedLines_formatted).
  assert (Formatted <$> m2 = second) as Fm2 by (by apply expectedLines_formatted).
  assert (Formatted <$> post = rest) as Fpost by (by apply expectedLines_formatted).
  unfold CompactFormat. rewrite Hall.
  rewrite compactLines_two; cycle 1.
  { by eapply expectedLines_equal. }
  { by eapply expectedLines_changed. }
  { by eapply expectedLines_nonempty. }
  { by eapply expectedLines_equal. }
  { by eapply expectedLines_nonempty. }
  { by eapply expectedLines_changed. }
  { by eapply expectedLines_nonempty. }
  { by eapply expectedLines_equal. }
  { done. }
  { rewrite !fullLines_app in Hbound.
    fold context first gap second rest in Hbound.
    rewrite <- Fpre, <- Fm1, <- Fmid, <- Fm2, <- Fpost in Hbound.
    unfold len in *. rewrite !length_app, !length_fmap in Hbound.
    rewrite !length_app. lia. }
  cbv zeta. fold c. do 2 f_equal.
  rewrite <- Fpre, <- Fm1, <- Fmid, <- Fm2, <- Fpost. rewrite !length_fmap.
  destruct (length mid <? c)%nat; [|destruct (length mid <=? 2 * c)%nat];
    rewrite ?fmap_app, ?fmap_drop, ?fmap_take, ?fmap_app, <- ?app_assoc; done.
Qed.

(** X5. With two runs of changes and [gap] unchanged lines between them:
    if the gap is longer than twice [ContextLines], each run is printed
    with its context and the separator stands between them; if it is at
    least [ContextLines] long, the whole gap is printed once; if it is
    shorter than [ContextLines], the context after the first run already
    shows the start of the second run, and then the second run and the
    lines after it are printed again. *)
Theorem compact_format_two_blocks (before changes1 between changes2 after : list Diff)
  (options : DiffOptions) :
  Forall (fun diff => Type_ diff = DiffEqual) before ->
  Forall (fun diff => Type_ diff <> DiffEqual) changes1 -> changes1 <> [] ->
  Forall (fun diff => Type_ diff = DiffEqual) between -> between <> [] ->
  Forall (fun diff => Type_ diff <> DiffEqual) changes2 -> changes2 <> [] ->
  Forall (fun diff => Type_ diff = DiffEqual) after ->
  0 <= ContextLines options ->
  len (fullLines (before ++ changes1 ++ between ++ changes2 ++ after) options)
    + ContextLines options + 1 < 2 ^ 63 ->
  let c := Z.to_nat (ContextLines options) in
  let context := fullLines before options in
  let first := fullLines changes1 options in
  let gap := fullLines between options in
  let second := fullLines changes2 options in
  let rest := fullLines after options in
  CompactFormat (before ++ changes1 ++ between ++ changes2 ++ after) options
  = Some (builderString
            (drop (length context - c) context ++ first
             ++ (if (length gap <? c)%nat
                 then take c (gap ++ second ++ rest) ++ second
                 else if (length gap <=? 2 * c)%nat
                      then gap ++ second
                      else take c gap ++ [ChunkSeparator options]
                           ++ drop (length gap - c) gap ++ second)
             ++ take c rest)).
Proof.
  exact (CompactFormat_two before changes1 between changes2 after options).
Qed.

(** **** Every changed line is printed *)

Lemma identifyBlocks_keeps (lines : list lineItem) (i : Z)
  (blocks : list changeBlock) (cur : option changeBlock) (block : changeBlock) :
  block ∈ blocks -> block ∈ identifyBlocks lines i blocks cur.
Proof. intros H. rewrite identifyBlocks_acc. apply elem_of_app. by left. Qed.

Lemma identifyBlocks_current (lines : list lineItem) (i s e : Z)
  (blocks : list changeBlock) :
  e <= i ->
  exists e', e <= e'
    /\ {| StartIdx := s; EndIdx := e' |}
       ∈ identifyBlocks lines i blocks (Some {| StartIdx := s; EndIdx := e |}).
Proof.
  revert i e blocks. induction lines as [|line lines IH]; intros i e blocks He.
  - exists e. split; [lia|]. simpl. apply elem_of_app. right. left.
  - simpl. destruct (notEqual (Type__ line)).
    + destruct (IH (i + 1) i blocks) as (e' & He' & Hin); [lia|].
      exists e'. split; [lia|done].
    + exists e. split; [lia|]. apply identifyBlocks_keeps.
      apply elem_of_app. right. left.
Qed.

Lemma identifyBlocks_covers (lines : list lineItem) (i : Z)
  (blocks : list changeBlock) (cur : option changeBlock) (j : nat) (item : lineItem) :
  (forall block, cur = Some block -> StartIdx block <= i) ->
  lines !! j = Some item ->
  notEqual (Type__ item) = true ->
  exists block,
    block ∈ identifyBlocks lines i blocks cur
    /\ StartIdx block <= i + Z.of_nat j <= EndIdx block.
Proof.
  revert i blocks cur j.
  induction lines as [|line lines IH]; intros i blocks cur j Hcur Hj Hchg; [done|].
  destruct j as [|j].
  - injection Hj as ->. simpl. rewrite Hchg. destruct cur as [[s e]|].
    + destruct (identifyBlocks_current lines (i + 1) s i blocks) as (e' & He' & Hin);
        [lia|].
      eexists. split; [exact Hin|]. specialize (Hcur _ eq_refl). simpl in *. lia.
    + destruct (identifyBlocks_current lines (i + 1) i i blocks) as (e' & He' & Hin);
        [lia|].
      eexists. split; [exact Hin|]. simpl. lia.
  - simpl in Hj. simpl identifyBlocks.
    destruct (notEqual (Type__ line)), cur as [[s e]|].
    all: edestruct (IH (i + 1)) as (block & Hin & Hrange);
      [|exact Hj|exact Hchg|exists block; split; [exact Hin|lia]].
    all: intros b [= <-] || intros b [=]; simpl; try lia.
    specialize (Hcur _ eq_refl). simpl in Hcur. lia.
Qed.

Lemma forEach_prefix (idxs : list Z) (body : Z -> printer -> option printer)
  (p p' : printer) :
  (forall i q q', body i q = Some q' -> builder q `prefix_of` builder q') ->
  forEach idxs body p = Some p' -> builder p `prefix_of` builder p'.
Proof.
  intros Hbody. revert p. induction idxs as [|i idxs IH]; intros p H.
  - by injection H as ->.
  - simpl in H. destruct (body i p) as [q|] eqn:Hq; [|done].
    etrans; [by eapply Hbody|by apply IH].
Qed.

Lemma printLine_prefix (allLines : list lineItem) (i : Z) (q q' : printer) :
  printLine allLines i q = Some q' -> builder q `prefix_of` builder q'.
Proof.
  unfold printLine. destruct (index allLines i); [|done].
  intros [= <-]. simpl. by apply prefix_app_r.
Qed.

Lemma elem_of_slice {A} (a b i : Z) (l : list A) (x : A) :
  0 <= a -> a <= i < b -> l !! Z.to_nat i = Some x -> x ∈ slice a b l.
Proof.
  intros Ha Hi Hx. unfold slice.
  apply (list_elem_of_lookup_2 _ (Z.to_nat (i - a))).
  rewrite lookup_take_lt by lia. rewrite lookup_drop.
  by replace (Z.to_nat a + Z.to_nat (i - a))%nat with (Z.to_nat i) by lia.
Qed.

Section Printed.

Variable allLines : list lineItem.
Variable options : DiffOptions.

Lemma printBlock_prints (prev : option changeBlock) (block : changeBlock)
  (p p' : printer) :
  inRange (len allLines) block ->
  printBlock allLines options prev block p = Some p' ->
  builder p `prefix_of` builder p'
  /\ forall i item,
       StartIdx block <= i <= EndIdx block ->
       allLines !! Z.to_nat i = Some item ->
       Formatted item ∈ builder p'.
Proof.
  intros (Hs & Hse & He). unfold printBlock.
  destruct (startContext allLines options prev block p) as [from q] eqn:Hstart.
  assert (builder p `prefix_of` builder q) as Hq.
  { unfold startContext in Hstart. destruct prev as [prevBlock|].
    - destruct (_ <? _); injection Hstart as _ <-; [|done].
      simpl. by apply prefix_app_r.
    - by injection Hstart as _ <-. }
  destruct (printContextBefore allLines from block q) as [p1|] eqn:H1; [|done].
  destruct (printChanges allLines block p1) as [p2|] eqn:H2; [|done].
  intros H3.
  apply forEach_prefix in H1.
  2:{ intros i r r'. destruct (_ <? _); [apply printLine_prefix|].
      by intros [= <-]. }
  apply forEach_prefix in H3; [|intros i r r'; apply printLine_prefix].
  unfold printChanges in H2. rewrite forEach_printLine in H2 by lia.
  injection H2 as <-. cbn [builder] in H3.
  split.
  - etrans; [exact Hq|]. etrans; [exact H1|]. etrans; [|exact H3].
    by apply prefix_app_r.
  - intros i item Hi Hitem.
    eapply elem_of_prefix; [|exact H3].
    apply elem_of_app. right. apply list_elem_of_fmap_2.
    by apply (elem_of_slice _ _ i); [|lia|].
Qed.

Lemma printBlocks_prints (prev : option changeBlock) (blocks : list changeBlock)
  (p p' : printer) :
  Forall (inRange (len allLines)) blocks ->
  printBlocks allLines options prev blocks p = Some p' ->
  builder p `prefix_of` builder p'
  /\ forall block i item,
       block ∈ blocks ->
       StartIdx block <= i <= EndIdx block ->
       allLines !! Z.to_nat i = Some item ->
       Formatted item ∈ builder p'.
Proof.
  intros Hall. revert prev p.
  induction Hall as [|block blocks Hb _ IH]; intros prev p H.
  - injection H as ->. split; [done|]. by intros ? ? ? ?%elem_of_nil.
  - simpl in H.
    destruct (printBlock allLines options prev block p) as [q|] eqn:Hq; [|done].
    destruct (printBlock_prints _ _ _ _ Hb Hq) as [Hpre Hprinted].
    destruct (IH _ _ H) as [Hpre' Hprinted'].
    split; [by etrans|].
    intros b i item [->|Hin]%elem_of_cons Hi Hitem.
    + eapply elem_of_prefix; [|exact Hpre']. by eapply Hprinted.
    + by eapply Hprinted'.
Qed.

Lemma compactLines_shows (item : lineItem) :
  item ∈ allLines -> notEqual (Type__ item) = true ->
  exists lines,
    compactLines allLines options = Some lines /\ Formatted item ∈ lines.
Proof.
  intros [j Hj]%list_elem_of_lookup_1 Hchg.
  destruct (identifyBlocks_covers allLines 0 [] None j item) as (block & Hin & Hrange);
    [done..|].
  pose proof (identifyBlocks_inRange allLines 0 [] None) as Hwf.
  unfold compactLines.
  destruct (identifyBlocks allLines 0 [] None) as [|b blocks] eqn:Hblocks;
    [by apply elem_of_nil in Hin|].
  cbn [length Nat.eqb].
  destruct (printBlocks_is_Some allLines options None (b :: blocks)
              {| builder := []; lastPrintedIdx := -1 |}) as [p Hp].
  { apply Hwf; [lia|done|done]. }
  rewrite Hp. exists (builder p). split; [done|].
  apply printBlocks_prints in Hp as [_ Hp]; [|apply Hwf; [lia|done|done]].
  apply (Hp block (0 + Z.of_nat j)); [done|lia|].
  by replace (Z.to_nat (0 + Z.of_nat j)) with j by lia.
Qed.

End Printed.

Lemma CompactFormat_shows (diffs : list Diff) (options : DiffOptions)
  (diff : Diff) (line : string) :
  diff ∈ diffs -> Type_ diff <> DiffEqual -> line ∈ textLines (Text diff) ->
  exists lines,
    CompactFormat diffs options = Some (builderString lines)
    /\ formatLine line (Type_ diff) options ∈ lines.
Proof.
  intros Hdiff Hchg Hline.
  destruct (allLines_expected diffs options) as (allLines & Hall & Hshape).
  assert ((Type_ diff, formatLine line (Type_ diff) options)
            ∈ expectedLines diffs options) as Hexp.
  { apply elem_of_concat. eexists. split; [|by apply list_elem_of_fmap_2].
    by apply (list_elem_of_fmap_2
                (fun line => (Type_ diff, formatLine line (Type_ diff) options))). }
  rewrite <- Hshape in Hexp.
  apply list_elem_of_fmap in Hexp as (item & Heq & Hitem).
  injection Heq as Htype Hformatted.
  destruct (compactLines_shows allLines options item Hitem) as (lines & Hlines & Hin).
  { rewrite <- Htype. by apply notEqual_true. }
  exists lines. unfold CompactFormat. rewrite Hall, Hlines.
  split; [done|]. by rewrite Hformatted.
Qed.

(** X6. Every line of an inserted or deleted diff occurs, formatted, among
    the lines of the compact output, whatever the number of context
    lines. *)
Theorem compact_format_shows_every_change (diffs : list Diff) (options : DiffOptions)
  (diff : Diff) (line : string) :
  diff ∈ diffs -> Type_ diff <> DiffEqual -> line ∈ textLines (Text diff) ->
  exists lines,
    CompactFormat diffs options = Some (builderString lines)
    /\ formatLine line (Type_ diff) options ∈ lines.
Proof. exact (CompactFormat_shows diffs options diff line). Qed.



End LineFormatFacts.

(** *** Progress of the render loop *)

Section RenderLoopProgress.
Import K8s Errors Api Render Progress.

Context {W : Type}.
Variable RenderFunc : Inputs -> W -> (Outputs * option error) * W.
Variable ProvideRequirements :
  list Requirement -> W -> (list Unstructured + error) * W.
Variable xr : Unstructured.
Variable comp : Composition.
Variable fns : list Function.

Local Abbreviation iter := (renderIteration RenderFunc ProvideRequirements xr comp fns).
Local Abbreviation loop := (renderLoop RenderFunc ProvideRequirements xr comp fns).

(** The resources a provider answered with, call by call. *)
Lemma addDiscovered_grows l st b :
  exists added,
    renderResources (addDiscovered l st b).1 = renderResources st ++ added
    /\ added ⊆ l
    /\ ((addDiscovered l st b).2 = true -> b = true \/ added <> []).
Proof.
  revert st b. induction l as [|res l IH]; intros st b; simpl.
  - exists []. rewrite app_nil_r. split; [done|]. split; [done|]. by left.
  - destruct (negb _).
    + destruct (IH {| renderResources := renderResources st ++ [res];
                      discoveredResources := discoveredResources st ++ [res];
                      discoveredResourcesMap :=
                        <[seenKey res := true]> (discoveredResourcesMap st);
                      lastOutput := lastOutput st;
                      lastRenderErr := lastRenderErr st;
                      iteration := iteration st |} true)
        as (added & Hres & Hsub & _).
      exists (res :: added). simpl in Hres. rewrite Hres, <- app_assoc.
      split; [done|]. split; [|by right].
      intros x [->|Hx]%elem_of_cons; [left|right; by apply Hsub].
    + destruct (IH st b) as (added & Hres & Hsub & Hfound).
      exists added. split; [done|]. split; [|done].
      intros x Hx. right. by apply Hsub.
Qed.

Lemma afterProvide_grows st r st' :
  afterProvide st r = inr st' ->
  exists added answer,
    added <> [] /\ renderResources st' = renderResources st ++ added
    /\ r = inl answer /\ added ⊆ answer.
Proof.
  unfold afterProvide. destruct r as [answer|err]; [|done].
  destruct (Nat.eqb (length answer) 0); [done|].
  destruct (addDiscovered_grows answer st false) as (added & Hres & Hsub & Hfound).
  destruct (addDiscovered answer st false) as [st1 found]. simpl in *.
  destruct found; [|done]. intros [= <-].
  exists added, answer. destruct Hfound as [?|?]; done.
Qed.

Lemma afterRender_grows st output renderErr e st' :
  (afterRender ProvideRequirements st output renderErr e).1 = inr st' ->
  exists added reqs answer,
    added <> [] /\ renderResources st' = renderResources st ++ added
    /\ calls (afterRender ProvideRequirements st output renderErr e).2
       = calls e ++ [CallProvide reqs (inl answer)]
    /\ added ⊆ answer.
Proof.
  unfold afterRender.
  assert (Hrest :
    ((if Nat.eqb (requirementCount output) 0
      then ret (W:=W) (inl (ExitNoRequirements, st))
      else bind (callProvide ProvideRequirements (default [] (Requirements output)))
                (fun r => ret (afterProvide st r))) e).1 = inr st' ->
    exists added reqs answer,
      added <> [] /\ renderResources st' = renderResources st ++ added
      /\ calls ((if Nat.eqb (requirementCount output) 0
                 then ret (W:=W) (inl (ExitNoRequirements, st))
                 else bind (callProvide ProvideRequirements
                              (default [] (Requirements output)))
                           (fun r => ret (afterProvide st r))) e).2
         = calls e ++ [CallProvide reqs (inl answer)]
      /\ added ⊆ answer).
  { destruct (Nat.eqb (requirementCount output) 0); [done|].
    unfold bind, callProvide, ret.
    destruct (ProvideRequirements _ (world e)) as [r w2]. simpl.
    intros (added & answer & Hne & Hres & -> & Hsub)%afterProvide_grows.
    by exists added, (default [] (Requirements output)), answer. }
  destruct renderErr as [err|]; [|by destruct (hasRequirements output)].
  by destruct (hasRequirements output).
Qed.

Lemma renderIteration_grows st e st' :
  (iter st e).1 = inr st' ->
  exists added reqs answer call,
    added <> [] /\ renderResources st' = renderResources st ++ added
    /\ calls (iter st e).2 = calls e ++ [call; CallProvide reqs (inl answer)]
    /\ added ⊆ answer.
Proof.
  unfold renderIteration, bind, callRender.
  destruct (RenderFunc _ _) as [[output renderErr] w1]. simpl.
  intros (added & reqs & answer & Hne & Hres & Hcalls & Hsub)%afterRender_grows.
  exists added, reqs, answer. eexists. simpl in Hres, Hcalls. rewrite Hcalls.
  rewrite <- app_assoc. done.
Qed.

Lemma providedIn_r (log1 log2 : list Call) (r : Unstructured) :
  providedIn log2 r -> providedIn (log1 ++ log2) r.
Proof.
  intros (reqs & answer & Hin & Hr). exists reqs, answer.
  split; [|done]. apply elem_of_app. by right.
Qed.

Lemma providedIn_l (log1 log2 : list Call) (r : Unstructured) :
  providedIn log1 r -> providedIn (log1 ++ log2) r.
Proof.
  intros (reqs & answer & Hin & Hr). exists reqs, answer.
  split; [|done]. apply elem_of_app. by left.
Qed.

(** The loop as a whole: the renderer is handed growing lists of extra
    resources, all of which the provider answered with. *)
Lemma renderLoop_progress n : forall st e,
  seenInvariant st ->
  exists new,
    calls (loop n st e).2 = calls e ++ new
    /\ growingFrom (renderResources st) (renderedExtras new)
    /\ Forall (fun extras =>
                 forall r, r ∈ extras -> r ∈ renderResources st \/ providedIn new r)
              (renderedExtras new)
    /\ (n <> 0 -> renderedExtras new <> []).
Proof.
  induction n as [|n IH]; intros st e Hinv.
  - exists []. simpl. by rewrite app_nil_r.
  - rewrite renderLoop_unfold.
    destruct (renderIteration_spec RenderFunc ProvideRequirements xr comp fns st e Hinv)
      as (new1 & Hcalls1 & Hextras1 & Hres).
    pose proof (renderIteration_grows st e) as Hgrow.
    destruct (iter st e) as [[[exit stop]|st'] e1]; cbn [fst snd] in *.
    + exists new1. split; [done|]. rewrite Hextras1. split; [done|].
      split; [|done]. apply Forall_singleton. intros r Hr. by left.
    + destruct Hres as [_ Hinv'].
      destruct (Hgrow st' eq_refl)
        as (added & reqs & answer & call & Hne & Hst' & Hlog & Hsub).
      rewrite Hcalls1 in Hlog. apply app_inv_head in Hlog. subst new1.
      destruct (IH st' e1 Hinv') as (new2 & Hcalls2 & Hchain & Hprov & _).
      exists ([call; CallProvide reqs (inl answer)] ++ new2).
      split; [by rewrite Hcalls2, Hcalls1, <- app_assoc|].
      rewrite renderedExtras_app, Hextras1. cbn [app]. split; [|split; [|done]].
      * split; [done|].
        destruct (renderedExtras new2) as [|next rest]; [done|].
        destruct Hchain as [-> Hchain]. split; [|done]. by exists added.
      * apply Forall_cons. split; [intros r Hr; by left|].
        eapply Forall_impl; [exact Hprov|]. intros extras Hex r Hr.
        cbv beta in Hex. destruct (Hex r Hr) as [Hin|Hin].
        -- rewrite Hst' in Hin. apply elem_of_app in Hin as [Hin|Hin]; [by left|].
           right. exists reqs, answer. split; [|by apply Hsub].
           right. left.
        -- right. by apply (providedIn_r [call; CallProvide reqs (inl answer)]).
Qed.

Lemma RenderWithRequirements_progress e :
  exists new,
    calls (RenderWithRequirements RenderFunc ProvideRequirements xr comp fns e).2
    = calls e ++ new
    /\ (exists rest, renderedExtras new = [] :: rest /\ growing [] rest)
    /\ Forall (fun extras => forall r, r ∈ extras -> providedIn new r)
         (renderedExtras new)
    /\ length (renderedExtras new) <= 10.
Proof.
  destruct (notPipeline comp) eqn:Emode.
  - unfold RenderWithRequirements. rewrite Emode. unfold callRender.
    destruct (RenderFunc _ _) as [[o err] w']. cbn [snd calls].
    eexists. split; [done|]. simpl. split; [by exists []|].
    split; [|lia]. apply Forall_singleton. by intros r ?%elem_of_nil.
  - rewrite RenderWithRequirements_pipeline by done. cbn [snd].
    destruct (renderLoop_progress maxIterations initialState e seenInvariant_initial)
      as (new & Hcalls & Hchain & Hprov & Hne).
    exists new. split; [done|]. split; [|split].
    + destruct (renderedExtras new) as [|first rest]; [by destruct Hne|].
      destruct Hchain as [-> Hchain]. by exists rest.
    + eapply Forall_impl; [exact Hprov|]. intros extras Hex r Hr. cbv beta in Hex.
      by destruct (Hex r Hr) as [?%elem_of_nil|?].
    + eapply RenderWithRequirements_render_calls.
      by rewrite RenderWithRequirements_pipeline.
Qed.

(** X8. The first render call gets no extra resources, and every later
    one gets the list of the call before it with at least one more
    resource at the end: nothing discovered is dropped or reordered. *)
Theorem render_inputs_grow e new :
  calls (RenderWithRequirements RenderFunc ProvideRequirements xr comp fns e).2
  = calls e ++ new ->
  exists rest, renderedExtras new = [] :: rest /\ growing [] rest.
Proof.
  intros H. destruct (RenderWithRequirements_progress e) as (new' & Hcalls & Hg & _).
  rewrite Hcalls in H. by apply app_inv_head in H as <-.
Qed.

(** X9. Every extra resource handed to the renderer was in a successful
    answer of the requirements provider during the same run. *)
Theorem render_inputs_provided e new :
  calls (RenderWithRequirements RenderFunc ProvideRequirements xr comp fns e).2
  = calls e ++ new ->
  Forall (fun extras => forall r, r ∈ extras -> providedIn new r)
    (renderedExtras new).
Proof.
  intros H.
  destruct (RenderWithRequirements_progress e) as (new' & Hcalls & _ & Hp & _).
  rewrite Hcalls in H. by apply app_inv_head in H as <-.
Qed.

End RenderLoopProgress.

(** *** One resource and all resources *)

Section ProcessorFacts.
Import K8s Errors Api Render Processor Batch.

Context {W Diffs : Type}.
Variable RenderFunc : Inputs -> W -> (Outputs * option error) * W.
Variable ProvideRequirements :
  list Requirement -> W -> (list Unstructured + error) * W.
Variable client : ClusterClient.
Variable FromUnstructured : Unstructured -> Unstructured + error.
Variable Merge : Unstructured -> Unstructured -> Unstructured + error.
Variable ValidateResources : Unstructured -> list Unstructured -> option error.
Variable CalculateDiffs : Unstructured -> Outputs -> Diffs * option error.
Variable RenderDiffs : Diffs -> option error.

Local Abbreviation process :=
  (ProcessResource RenderFunc ProvideRequirements client FromUnstructured Merge
     ValidateResources CalculateDiffs RenderDiffs).

Lemma GetGenerateName_metadata (xr : Unstructured) :
  GetGenerateName xr <> EmptyString ->
  exists md, xr !! "metadata" = Some (VMap md).
Proof.
  unfold GetGenerateName, metadataString, NestedMap.
  destruct (xr !! "metadata") as [[| | | | |md]|]; try done. eauto.
Qed.

(** X10. [SanitizeXR] gives an XR that has only a [generateName] the name
    [generateName] followed by "(generated)" and leaves a named XR as it
    is; in both cases every other field, the [generateName] included,
    stays as converted. *)
Theorem sanitize_names_generated_xr (res xr : Unstructured) :
  FromUnstructured res = inl xr ->
  exists xr',
    SanitizeXR FromUnstructured res = inl xr'
    /\ GetName xr'
       = (if bool_decide (GetName xr = EmptyString)
          then (if bool_decide (GetGenerateName xr = EmptyString)
                then EmptyString
                else GetGenerateName xr +:+ "(generated)")
          else GetName xr)
    /\ (forall k, k <> "metadata" -> xr' !! k = xr !! k)
    /\ (forall f, f <> "name" ->
          NestedField xr' ["metadata"; f] = NestedField xr ["metadata"; f]).
Proof.
  intros Hconv. unfold SanitizeXR. rewrite Hconv.
  destruct (bool_decide (GetName xr = EmptyString)) eqn:Hname.
  - destruct (bool_decide (GetGenerateName xr = EmptyString)) eqn:Hgen.
    + eexists. split; [done|]. apply bool_decide_eq_true in Hname. by rewrite Hname.
    + apply bool_decide_eq_false in Hgen.
      destruct (GetGenerateName_metadata xr Hgen) as [md Hmd].
      eexists. split; [done|]. unfold SetName.
      pose proof (metadata_field_set xr "name"
                    (VStr (GetGenerateName xr +:+ "(generated)"))) as Hset.
      rewrite Hmd in Hset. split; [|split].
      * specialize (Hset "name"). rewrite decide_True in Hset by done.
        unfold GetName, metadataString. unfold setMetadataField in *.
        rewrite Hmd in *. unfold NestedMap. rewrite lookup_insert_eq.
        unfold fieldString. by rewrite lookup_insert_eq.
      * intros k Hk. by apply setMetadataField_frame.
      * intros f Hf. specialize (Hset f). by rewrite decide_False in Hset by done.
  - eexists. split; [done|]. done.
Qed.

(** The log of one resource: what the render loop wrote, and nothing when
    an earlier step failed. *)
Lemma ProcessResource_log (res : Unstructured) (e : Env W) :
  exists new,
    calls (process res e).2 = calls e ++ new
    /\ length (renderedExtras new) <= 10
    /\ ((forall xr comp fns,
           SanitizeXR FromUnstructured res = inl xr ->
           FindMatchingComposition client res = inl comp ->
           GetFunctionsFromPipeline client comp = inl fns -> False) ->
        (process res e).2 = e /\ new = []).
Proof.
  unfold ProcessResource.
  destruct (SanitizeXR FromUnstructured res) as [xr|err].
  2:{ exists []. simpl. rewrite app_nil_r. repeat split; done || lia. }
  destruct (FindMatchingComposition client res) as [comp|err].
  2:{ exists []. simpl. rewrite app_nil_r. repeat split; done || lia. }
  destruct (GetFunctionsFromPipeline client comp) as [fns|err] eqn:Hfns.
  2:{ exists []. simpl. rewrite app_nil_r. repeat split; done || lia. }
  destruct (RenderWithRequirements_progress RenderFunc ProvideRequirements xr comp fns e)
    as (new & Hcalls & _ & _ & Hlen).
  exists new. unfold bind.
  destruct (RenderWithRequirements RenderFunc ProvideRequirements xr comp fns e)
    as [[desired renderErr] e'].
  cbn [snd] in Hcalls.
  assert (forall r : option error, (ret (W:=W) r e').2 = e') as Hret by done.
  split; [|split; [done|]].
  - destruct renderErr as [err|]; [done|].
    destruct (mergeUnstructured Merge _ xr) as [merged|err]; [|done].
    destruct (ValidateResources merged _) as [err|]; [done|].
    destruct (CalculateDiffs xr desired) as [diffs err].
    by destruct (RenderDiffs diffs).
  - intros Hnone. by destruct (Hnone xr comp fns eq_refl eq_refl Hfns).
Qed.

(** X11. Processing one resource calls the renderer at most ten times, and
    not at all, leaving the state untouched, when the conversion, the
    composition lookup or the function lookup fails. *)
Theorem process_resource_render_calls (res : Unstructured) (e : Env W) :
  exists new,
    calls (process res e).2 = calls e ++ new
    /\ length (renderedExtras new) <= 10
    /\ ((forall xr comp fns,
           SanitizeXR FromUnstructured res = inl xr ->
           FindMatchingComposition client res = inl comp ->
           GetFunctionsFromPipeline client comp = inl fns -> False) ->
        (process res e).2 = e /\ new = []).
Proof. exact (ProcessResource_log res e). Qed.

End ProcessorFacts.

Section BatchFacts.
Import K8s Errors Api Render Processor Batch.

Context {W : Type}.
Variable ProcessResource : Unstructured -> Eff W (option error).

Lemma outcomes_cons (res : Unstructured) (rest : list Unstructured) (e : Env W) :
  outcomes ProcessResource (res :: rest) e
  = ((ProcessResource res e).1
       :: (outcomes ProcessResource rest (ProcessResource res e).2).1,
     (outcomes ProcessResource rest (ProcessResource res e).2).2).
Proof.
  simpl. unfold bind, ret. destruct (ProcessResource res e) as [result e1].
  cbn [fst snd]. by destruct (outcomes ProcessResource rest e1).
Qed.

Lemma processEach_cons (res : Unstructured) (rest : list Unstructured)
  (errs : list error) (e : Env W) :
  processEach ProcessResource (res :: rest) errs e
  = processEach ProcessResource rest
      (errs ++ failures [res] [(ProcessResource res e).1])
      (ProcessResource res e).2.
Proof.
  simpl. unfold bind. destruct (ProcessResource res e) as [[err|] e1]; [done|].
  unfold failures. simpl. by rewrite app_nil_r.
Qed.

Lemma processEach_outcomes (resources : list Unstructured) (errs : list error)
  (e : Env W) :
  processEach ProcessResource resources errs e
  = (errs ++ failures resources (outcomes ProcessResource resources e).1,
     (outcomes ProcessResource resources e).2).
Proof.
  revert errs e. induction resources as [|res rest IH]; intros errs e.
  - simpl. unfold ret. by rewrite app_nil_r.
  - rewrite processEach_cons, outcomes_cons, IH. cbn [fst snd].
    rewrite <- app_assoc. f_equal. f_equal.
    unfold failures. simpl. by destruct (ProcessResource res e).1.
Qed.

Lemma failures_nil (resources : list Unstructured) (results : list (option error)) :
  length results = length resources ->
  failures resources results = [] <-> Forall (fun result => result = None) results.
Proof.
  revert results. induction resources as [|res rest IH]; intros results Hlen.
  - destruct results; [|done]. by split.
  - destruct results as [|result results]; [done|].
    injection Hlen as Hlen. specialize (IH results Hlen).
    unfold failures in *. simpl. destruct result as [err|]; simpl.
    + split; [done|]. by intros [? _]%Forall_cons.
    + rewrite IH. split; [by constructor|by intros [_ ?]%Forall_cons].
Qed.

Lemma ProcessAll_outcomes (resources : list Unstructured) (e : Env W) :
  let results := (outcomes ProcessResource resources e).1 in
  (ProcessAll ProcessResource resources e).2
  = (outcomes ProcessResource resources e).2
  /\ length results = length resources
  /\ ((ProcessAll ProcessResource resources e).1 = None
      <-> Forall (fun result => result = None) results)
  /\ (forall errs,
        (ProcessAll ProcessResource resources e).1 = Some errs ->
        errs = failures resources results).
Proof.
  intros results.
  assert (length results = length resources) as Hlen.
  { unfold results. clear results. revert e.
    induction resources as [|res rest IH]; intros e; [done|].
    rewrite outcomes_cons. simpl. by rewrite IH. }
  pose proof (failures_nil resources results Hlen) as Hnone.
  unfold ProcessAll.
  destruct resources as [|res rest].
  { simpl. unfold ret. simpl. repeat split; by try constructor. }
  change (length (res :: rest) =? 0)%nat with false. cbv iota.
  unfold bind. rewrite processEach_outcomes. cbn [app].
  fold results.
  destruct (failures (res :: rest) results) as [|err errs] eqn:Hf.
  - simpl. unfold ret. simpl. split; [done|]. split; [done|].
    split; [|done]. split; [intros _; by apply Hnone|done].
  - simpl. unfold ret. simpl. split; [done|]. split; [done|].
    split; [|by intros ? [= <-]]. split; [done|].
    intros Hall. by apply Hnone in Hall.
Qed.

(** X12. [ProcessAll] passes every resource to [ProcessResource], in
    order and whatever the earlier ones returned; it returns nil exactly
    when all of them did, and otherwise joins one error per failed
    resource, in order, each wrapped with the kind and name of its
    resource. *)
Theorem process_all_reports_each_failure (resources : list Unstructured) (e : Env W) :
  let results := (outcomes ProcessResource resources e).1 in
  (ProcessAll ProcessResource resources e).2
  = (outcomes ProcessResource resources e).2
  /\ length results = length resources
  /\ ((ProcessAll ProcessResource resources e).1 = None
      <-> Forall (fun result => result = None) results)
  /\ (forall errs,
        (ProcessAll ProcessResource resources e).1 = Some errs ->
        errs = failures resources results).
Proof. exact (ProcessAll_outcomes resources e). Qed.

End BatchFacts.

Section BatchRenderCalls.
Import K8s Errors Api Render Processor Batch.

Context {W Diffs : Type}.
Variable RenderFunc : Inputs -> W -> (Outputs * option error) * W.
Variable ProvideRequirements :
  list Requirement -> W -> (list Unstructured + error) * W.
Variable client : ClusterClient.
Variable FromUnstructured : Unstructured -> Unstructured + error.
Variable Merge : Unstructured -> Unstructured -> Unstructured + error.
Variable ValidateResources : Unstructured -> list Unstructured -> option error.
Variable CalculateDiffs : Unstructured -> Outputs -> Diffs * option error.
Variable RenderDiffs : Diffs -> option error.

Local Abbreviation process :=
  (ProcessResource RenderFunc ProvideRequirements client FromUnstructured Merge
     ValidateResources CalculateDiffs RenderDiffs).

Lemma outcomes_log (resources : list Unstructured) (e : Env W) :
  exists new,
    calls (outcomes process resources e).2 = calls e ++ new
    /\ length (renderedExtras new) <= 10 * length resources.
Proof.
  revert e. induction resources as [|res rest IH]; intros e.
  - exists []. simpl. rewrite app_nil_r. split; [done|lia].
  - rewrite outcomes_cons. cbn [snd].
    destruct (ProcessResource_log RenderFunc ProvideRequirements client
                FromUnstructured Merge ValidateResources CalculateDiffs RenderDiffs
                res e) as (new1 & Hcalls1 & Hlen1 & _).
    destruct (IH (process res e).2) as (new2 & Hcalls2 & Hlen2).
    exists (new1 ++ new2). rewrite Hcalls2, Hcalls1, <- app_assoc.
    split; [done|]. rewrite renderedExtras_app, length_app. simpl length. lia.
Qed.

(** X13. Processing a list of resources calls the renderer at most ten
    times per resource. *)
Theorem process_all_render_calls (resources : list Unstructured) (e : Env W) :
  exists new,
    calls (ProcessAll process resources e).2 = calls e ++ new
    /\ length (renderedExtras new) <= 10 * length resources.
Proof.
  destruct (ProcessAll_outcomes process resources e) as [-> _].
  apply outcomes_log.
Qed.

End BatchRenderCalls.

(** *** The structured diff *)

Section StructuredDiffFacts.
Import K8s Errors DiffFormatter.

Variable Marshal : Unstructured -> string + error.
Variable GetLineDiff : string -> string -> list Diff.

Lemma removeFields_idemp (fields : list string) (m : Unstructured) :
  removeFields fields (removeFields fields m) = removeFields fields m.
Proof.
  apply map_eq. intros k. rewrite !removeFields_lookup.
  by destruct (decide (k ∈ fields)).
Qed.

Lemma cleanMetadata_cleanup (obj : Unstructured) :
  cleanMetadata (cleanupForDiff obj) = cleanMetadata obj.
Proof.
  unfold cleanMetadata at 1. unfold NestedMap.
  rewrite (cleanupForDiff_lookup obj "metadata"). simpl.
  unfold cleanMetadata. unfold NestedMap.
  destruct (obj !! "metadata") as [[| | | | |md]|]; try done.
  change (Some (VMap (removeFields fieldsToRemove (removeFields fieldsToRemove md)))
          = Some (VMap (removeFields fieldsToRemove md))).
  by rewrite removeFields_idemp.
Qed.

Lemma cleanSpec_cleanup (obj : Unstructured) :
  cleanSpec (cleanupForDiff obj) = cleanSpec obj.
Proof.
  unfold cleanSpec at 1. unfold NestedMap.
  rewrite (cleanupForDiff_lookup obj "spec"). simpl.
  unfold cleanSpec. unfold NestedMap.
  destruct (obj !! "spec") as [[| | | | |spec]|]; try done.
  by rewrite delete_delete_eq.
Qed.

(** X14. [cleanupForDiff] is idempotent: a cleaned object is in normal
    form, cleaning it again changes nothing. *)
Theorem cleanup_idempotent (obj : Unstructured) :
  cleanupForDiff (cleanupForDiff obj) = cleanupForDiff obj.
Proof.
  apply map_eq. intros k. rewrite (cleanupForDiff_lookup (cleanupForDiff obj)).
  rewrite (cleanupForDiff_lookup obj k).
  destruct (decide (k = "status")); [done|].
  destruct (decide (k = "spec")); [apply cleanSpec_cleanup|].
  destruct (decide (k = "metadata")); [apply cleanMetadata_cleanup|].
  done.
Qed.

Lemma semanticallyEqual_clean (c d : Unstructured) :
  semanticallyEqual (Some c) (Some d)
  = bool_decide (cleanupForDiff c = cleanupForDiff d).
Proof.
  unfold semanticallyEqual.
  destruct (bool_decide_reflect (c = d)) as [->|Hne]; [|done].
  by rewrite bool_decide_eq_true_2.
Qed.

(** X15. The type and the lines of a diff depend on the two objects only
    through their cleaned forms: objects that clean to the same thing
    give the same diff type and the same line diffs, or fail with the
    same error. *)
Theorem diff_depends_on_cleaned_objects (current current' desired desired'
  : option Unstructured) :
  cleanupForDiff <$> current = cleanupForDiff <$> current' ->
  cleanupForDiff <$> desired = cleanupForDiff <$> desired' ->
  match GenerateDiffWithOptions Marshal GetLineDiff current desired,
        GenerateDiffWithOptions Marshal GetLineDiff current' desired' with
  | inl d, inl d' => DiffType_ d = DiffType_ d' /\ LineDiffs d = LineDiffs d'
  | inr err, inr err' => err = err'
  | _, _ => False
  end.
Proof.
  intros Hc Hd. unfold GenerateDiffWithOptions.
  assert (asString Marshal current = asString Marshal current') as Hsc.
  { destruct current, current'; try done. simpl in *. by injection Hc as ->. }
  assert (asString Marshal desired = asString Marshal desired') as Hsd.
  { destruct desired, desired'; try done. simpl in *. by injection Hd as ->. }
  assert (diffTypeOf current desired = diffTypeOf current' desired') as Ht.
  { by destruct current, current', desired, desired'. }
  assert (semanticallyEqual current desired = semanticallyEqual current' desired')
    as Hs.
  { destruct current as [c|], current' as [c'|], desired as [d|], desired' as [d'|];
      try done.
    rewrite !semanticallyEqual_clean. simpl in *.
    injection Hc as ->. by injection Hd as ->. }
  rewrite <- Ht, <- Hs, <- Hsc, <- Hsd.
  destruct (diffTypeOf current desired) as [diffType|err]; [|done].
  destruct (semanticallyEqual current desired); [done|].
  destruct (asString Marshal current) as [currentStr|err]; [|done].
  destruct (asString Marshal desired) as [desiredStr|err]; [|done].
  destruct (bool_decide (desiredStr = currentStr)); [done|].
  by destruct (Nat.eqb (length (GetLineDiff currentStr desiredStr)) 0).
Qed.

(** X16. A structured diff is consistent: it records the two objects it
    was given, it has no line diffs exactly when its type is "equal",
    and any other type says which side is absent. The only errors are
    two absent objects and a failure to marshal. *)
Theorem structured_diff_consistent (current desired : option Unstructured) :
  match GenerateDiffWithOptions Marshal GetLineDiff current desired with
  | inl d =>
      Current d = current /\ Desired d = desired
      /\ (DiffType_ d = DiffTypeEqual <-> LineDiffs d = [])
      /\ (DiffType_ d = DiffTypeAdded -> current = None /\ desired <> None)
      /\ (DiffType_ d = DiffTypeRemoved -> current <> None /\ desired = None)
      /\ (DiffType_ d = DiffTypeModified -> current <> None /\ desired <> None)
  | inr err =>
      (current = None /\ desired = None
       /\ err = New "both current and desired cannot be nil")
      \/ (exists c cause, current = Some c /\ Marshal (cleanupForDiff c) = inr cause
            /\ err = Wrap cause "cannot marshal current object to YAML")
      \/ (exists d cause, desired = Some d /\ Marshal (cleanupForDiff d) = inr cause
            /\ err = Wrap cause "cannot marshal desired object to YAML")
  end.
Proof.
  unfold GenerateDiffWithOptions.
  destruct (diffTypeOf current desired) as [diffType|err] eqn:Htype.
  2:{ left. by destruct current, desired; simplify_eq/=. }
  assert (Hequal : Current (equalDiff current desired) = current
            /\ Desired (equalDiff current desired) = desired
            /\ (DiffType_ (equalDiff current desired) = DiffTypeEqual
                <-> LineDiffs (equalDiff current desired) = [])
            /\ (DiffType_ (equalDiff current desired) = DiffTypeAdded
                -> current = None /\ desired <> None)
            /\ (DiffType_ (equalDiff current desired) = DiffTypeRemoved
                -> current <> None /\ desired = None)
            /\ (DiffType_ (equalDiff current desired) = DiffTypeModified
                -> current <> None /\ desired <> None)).
  { simpl. repeat split; done. }
  destruct (semanticallyEqual current desired); [done|].
  destruct (asString Marshal current) as [currentStr|cause] eqn:Hc.
  2:{ right. left. destruct current as [c|]; [|done]. by exists c, cause. }
  destruct (asString Marshal desired) as [desiredStr|cause] eqn:Hd.
  2:{ right. right. destruct desired as [d|]; [|done]. by exists d, cause. }
  destruct (bool_decide (desiredStr = currentStr)); [done|].
  destruct (GetLineDiff currentStr desiredStr) as [|line lines] eqn:Hlines; [done|].
  cbn [length Nat.eqb Current Desired DiffType_ LineDiffs].
  split; [done|]. split; [done|].
  destruct current, desired; simplify_eq/=; repeat split; done.
Qed.

End StructuredDiffFacts.

(** *** The earlier revision of the processor *)

Section EarlierProcessorFacts.
Import K8s Errors ClusterClient EarlierProcessor.

Variable UnmarshalJSON : string -> Unstructured + error.
Variable ToLower : string -> string.
Variable Quote : string -> string.

Lemma scanExtraResources_lengths (extraResources : list value)
  (resources resources' : list GroupVersionResource)
  (selectors selectors' : list LabelSelector) :
  scanExtraResources ToLower Quote extraResources resources selectors
  = inl (resources', selectors') ->
  length resources = length selectors ->
  length resources' = length selectors'.
Proof.
  revert resources selectors.
  induction extraResources as [|er rest IH]; intros resources selectors H Hlen.
  - by injection H as <- <-.
  - simpl in H. destruct er as [| | | | |erMap]; try by eapply IH.
    destruct (_ || _); [by eapply IH|].
    destruct (ParseGroupVersion _) as [[group version]|]; [|done].
    eapply IH; [exact H|]. rewrite !length_app. simpl. lia.
Qed.

Lemma scanSteps_lengths (steps : list PipelineStep)
  (resources resources' : list GroupVersionResource)
  (selectors selectors' : list LabelSelector) :
  scanSteps UnmarshalJSON ToLower Quote steps resources selectors
  = inl (resources', selectors') ->
  length resources = length selectors ->
  length resources' = length selectors'.
Proof.
  revert resources selectors.
  induction steps as [|step rest IH]; intros resources selectors H Hlen.
  - by injection H as <- <-.
  - simpl in H. destruct (Input step) as [raw|]; [|by eapply IH].
    destruct (negb _); [by eapply IH|].
    destruct (UnmarshalJSON raw) as [input|err]; [|done].
    destruct (NestedSlice input _) as [extraResources|]; [|by eapply IH].
    destruct (scanExtraResources ToLower Quote extraResources resources selectors)
      as [[resources1 selectors1]|err] eqn:Hscan; [|done].
    eapply IH; [exact H|]. by eapply scanExtraResources_lengths.
Qed.

(** X17. When the earlier [IdentifyNeededExtraResources] succeeds, it
    returns as many label selectors as resource types, so the two slices
    can be read in step; for a composition that is not in pipeline mode
    both are empty. *)
Theorem identified_resources_match_selectors (comp : Composition)
  (resources : list GroupVersionResource) (selectors : list LabelSelector) :
  IdentifyNeededExtraResources UnmarshalJSON ToLower Quote comp
  = inl (resources, selectors) ->
  length resources = length selectors
  /\ (notPipeline comp = true -> resources = [] /\ selectors = []).
Proof.
  unfold IdentifyNeededExtraResources. intros H. split.
  - destruct (notPipeline comp); [by injection H as <- <-|].
    by eapply scanSteps_lengths.
  - intros Hmode. rewrite Hmode in H. by injection H as <- <-.
Qed.

Context {W : Type}.
Variable GetResource GetResource' :
  GroupVersionKind -> string -> string -> W ->
  (Unstructured + ResourceManager.GetError) * W.
Variable GetResourcesByLabel :
  string -> GroupVersionResource -> LabelSelector -> W ->
  (list Unstructured + error) * W.

(** X18. For a composed resource the earlier [fetchCurrentObject] looks
    at the kind, API version and namespace of the desired object and at
    the name of the composite only: it never calls [GetResource], and two
    desired objects that differ in name alone get the same answer (up to
    the text of the error). When the cluster holds more than one object
    of that kind under the composite, the lookup fails. *)
Theorem earlier_fetch_ignores_name (composite : string) (d1 d2 : Unstructured) (w : W) :
  composite <> EmptyString ->
  objectGVK d1 = objectGVK d2 ->
  GetNamespace d1 = GetNamespace d2 ->
  let r1 := fetchCurrentObject ToLower GetResource GetResourcesByLabel composite d1 w in
  let r2 := fetchCurrentObject ToLower GetResource' GetResourcesByLabel composite d2 w in
  r1.2 = r2.2
  /\ r1.1.1.1 = r2.1.1.1
  /\ r1.1.1.2 = r2.1.1.2
  /\ (r1.1.2 = None <-> r2.1.2 = None)
  /\ (forall currents,
        (GetResourcesByLabel (GetNamespace d1)
           {| gvr_Group := Group (objectGVK d1);
              gvr_Version := Version (objectGVK d1);
              Resource := naivePlural ToLower (Kind (objectGVK d1)) |}
           {[ "crossplane.io/composite" := composite ]} w).1 = inl currents ->
        (1 < length currents)%nat ->
        r1.1.1.1 = None /\ r1.1.1.2 = false /\ r1.1.2 <> None).
Proof.
  intros Hcomp Hgvk Hns r1 r2. subst r1 r2. unfold fetchCurrentObject.
  rewrite (bool_decide_eq_false_2 _ Hcomp). cbn [negb].
  rewrite <- Hgvk, <- Hns.
  destruct (GetResourcesByLabel _ _ _ w) as [[currents|err] w']; cbn [fst snd].
  - destruct (1 <? length currents)%nat eqn:Hmany.
    + do 3 (split; [done|]). split; [done|]. by intros ? _ _.
    + apply Nat.ltb_ge in Hmany.
      destruct currents as [|current [|another rest]]; simpl in Hmany; [| |lia].
      all: do 3 (split; [done|]); split; [done|].
      all: intros ? [= <-] Hlen; simpl in Hlen; lia.
  - do 3 (split; [done|]). split; [done|]. by intros ? [=].
Qed.

End EarlierProcessorFacts.

(** *** Examples for the formatters, the processor and the earlier revision *)

Section CoverageExamples.
Import K8s Errors Api Render DiffFormatter LineFormat Progress Fixtures MoreFixtures.
Local Open Scope Z_scope.

Lemma full_format_reproduces_text_witness :
  FullFormat replacedLine bareOptions
  = foldr (fun diff rest => terminated (Text diff) +:+ rest) EmptyString replacedLine.
Proof. apply full_format_reproduces_text; reflexivity. Defined.

(** The last text has no final line feed; the output has one. *)
Example full_format_example :
  FullFormat replacedLine bareOptions
  = textLine "w" +:+ textLine "x" +:+ textLine "old" +:+ textLine "new"
    +:+ textLine "y" +:+ textLine "z".
Proof. reflexivity. Qed.

Lemma compact_format_shows_every_change_witness :
  exists lines,
    CompactFormat nearbyChanges (plainOptions 3) = Some (builderString lines)
    /\ formatLine "c" DiffInsert (plainOptions 3) ∈ lines.
Proof.
  apply (compact_format_shows_every_change nearbyChanges (plainOptions 3)
           (inserted "c") "c").
  - do 2 right. left.
  - discriminate.
  - left.
Defined.

Lemma compact_format_one_block_witness :
  CompactFormat replacedLine (plainOptions 1)
  = Some (builderString [" x"; "-old"; "+new"; " y"]).
Proof.
  apply (compact_format_one_block
           [{| Type_ := DiffEqual; Text := textLine "w" +:+ textLine "x" |}]
           [deleted "old"; inserted "new"]
           [{| Type_ := DiffEqual; Text := textLine "y" +:+ "z" |}]
           (plainOptions 1)).
  - by repeat constructor.
  - by repeat constructor.
  - done.
  - by repeat constructor.
  - done.
  - by vm_compute.
Defined.

(** Two changes one line apart, with three lines of context: the second
    change and the line after it are printed twice, so the compact output
    is longer than the full one. *)
Lemma compact_format_two_blocks_witness :
  CompactFormat nearbyChanges (plainOptions 3)
  = Some (builderString ["-a"; " b"; "+c"; " d"; "+c"; " d"]).
Proof.
  apply (compact_format_two_blocks [] [deleted "a"] [unchanged "b"] [inserted "c"]
           [unchanged "d"] (plainOptions 3)).
  - constructor.
  - by repeat constructor.
  - done.
  - by repeat constructor.
  - done.
  - by repeat constructor.
  - done.
  - by repeat constructor.
  - done.
  - by vm_compute.
Defined.

Example compact_format_repeats_lines_example :
  CompactFormat nearbyChanges (plainOptions 3)
  = Some (textLine "-a" +:+ textLine " b" +:+ textLine "+c" +:+ textLine " d"
          +:+ textLine "+c" +:+ textLine " d")
  /\ FullFormat nearbyChanges (plainOptions 3)
     = textLine "-a" +:+ textLine " b" +:+ textLine "+c" +:+ textLine " d".
Proof. split; reflexivity. Qed.

(** The default options colour an inserted line green. *)
Example format_diff_default_example :
  FormatDiff [inserted "c"] DefaultDiffOptions
  = Some (textLine (ColorGreen +:+ "+ c" +:+ ColorReset)).
Proof. reflexivity. Qed.

(** With no context lines the same diffs give the two changes and the
    separator between them. *)
Example compact_format_separator_example :
  CompactFormat nearbyChanges (plainOptions 0)
  = Some (textLine "-a" +:+ textLine "..." +:+ textLine "+c").
Proof. reflexivity. Qed.

(** A negative number of context lines is harmless. *)
Example compact_format_negative_context_example :
  CompactFormat nearbyChanges (plainOptions (-5))
  = Some (textLine "-a" +:+ textLine "..." +:+ textLine "+c").
Proof. reflexivity. Qed.

Lemma render_inputs_grow_witness :
  exists rest,
    renderedExtras
      (calls (RenderWithRequirements countingRender freshProvider myXR pipelineComp []
                start).2)
    = [] :: rest
    /\ growing [] rest.
Proof.
  apply (render_inputs_grow countingRender freshProvider myXR pipelineComp [] start).
  reflexivity.
Defined.

Lemma render_inputs_provided_witness :
  Forall (fun extras =>
            forall r, r ∈ extras ->
              providedIn
                (calls (RenderWithRequirements countingRender freshProvider myXR
                          pipelineComp [] start).2) r)
    (renderedExtras
       (calls (RenderWithRequirements countingRender freshProvider myXR pipelineComp []
                 start).2)).
Proof.
  apply (render_inputs_provided countingRender freshProvider myXR pipelineComp []
           start).
  reflexivity.
Defined.

Lemma sanitize_names_generated_xr_witness :
  exists xr',
    Processor.SanitizeXR convertOk generatedXR = inl xr'
    /\ GetName xr'
       = (if bool_decide (GetName generatedXR = EmptyString)
          then (if bool_decide (GetGenerateName generatedXR = EmptyString)
                then EmptyString
                else GetGenerateName generatedXR +:+ "(generated)")
          else GetName generatedXR)
    /\ (forall k, k <> "metadata" -> xr' !! k = generatedXR !! k)
    /\ (forall f, f <> "name" ->
          NestedField xr' ["metadata"; f] = NestedField generatedXR ["metadata"; f]).
Proof. apply (sanitize_names_generated_xr convertOk generatedXR). reflexivity. Defined.

Example sanitize_example :
  GetName <$> (match Processor.SanitizeXR convertOk generatedXR with
               | inl xr => Some xr
               | inr _ => None
               end)
  = Some "my-xr-(generated)".
Proof. reflexivity. Qed.

(** The live bucket and the rendered one clean to the same object, so
    against any desired object they give the same diff. *)
Lemma diff_depends_on_cleaned_objects_witness :
  match GenerateDiffWithOptions yamlStub lineDiffStub (Some liveBucket) (Some myXR),
        GenerateDiffWithOptions yamlStub lineDiffStub (Some renderedBucket) (Some myXR)
  with
  | inl d, inl d' => DiffType_ d = DiffType_ d' /\ LineDiffs d = LineDiffs d'
  | inr err, inr err' => err = err'
  | _, _ => False
  end.
Proof.
  apply (diff_depends_on_cleaned_objects yamlStub lineDiffStub
           (Some liveBucket) (Some renderedBucket) (Some myXR) (Some myXR)).
  - by vm_compute.
  - reflexivity.
Defined.

Lemma identified_resources_match_selectors_witness :
  length [{| EarlierProcessor.gvr_Group := EmptyString;
             EarlierProcessor.gvr_Version := "v1";
             EarlierProcessor.Resource := "configmaps" |}]
  = length [({[ "app" := "web" ]} : gmap string string)]
  /\ (EarlierProcessor.notPipeline extraResourcesComp = true ->
      [{| EarlierProcessor.gvr_Group := EmptyString;
          EarlierProcessor.gvr_Version := "v1";
          EarlierProcessor.Resource := "configmaps" |}] = []
      /\ [({[ "app" := "web" ]} : gmap string string)] = []).
Proof.
  apply (identified_resources_match_selectors decodeInput lowerASCII quoted
           extraResourcesComp).
  by vm_compute.
Defined.

Lemma earlier_fetch_ignores_name_witness :
  let r1 := EarlierProcessor.fetchCurrentObject lowerASCII getFails twoUnderComposite
              "parent-xr" (composedAs "a" "slot") 0%nat in
  let r2 := EarlierProcessor.fetchCurrentObject lowerASCII getNotFound twoUnderComposite
              "parent-xr" (composedAs "b" "slot") 0%nat in
  r1.2 = r2.2
  /\ r1.1.1.1 = r2.1.1.1
  /\ r1.1.1.2 = r2.1.1.2
  /\ (r1.1.2 = None <-> r2.1.2 = None)
  /\ (forall currents,
        (twoUnderComposite (GetNamespace (composedAs "a" "slot"))
           {| EarlierProcessor.gvr_Group :=
                ClusterClient.Group (EarlierProcessor.objectGVK (composedAs "a" "slot"));
              EarlierProcessor.gvr_Version :=
                ClusterClient.Version (EarlierProcessor.objectGVK (composedAs "a" "slot"));
              EarlierProcessor.Resource :=
                EarlierProcessor.naivePlural lowerASCII
                  (ClusterClient.Kind
                     (EarlierProcessor.objectGVK (composedAs "a" "slot"))) |}
           {[ "crossplane.io/composite" := "parent-xr" ]} 0%nat).1 = inl currents ->
        (1 < length currents)%nat ->
        r1.1.1.1 = None /\ r1.1.1.2 = false /\ r1.1.2 <> None).
Proof.
  apply (earlier_fetch_ignores_name lowerASCII getFails getNotFound twoUnderComposite
           "parent-xr" (composedAs "a" "slot") (composedAs "b" "slot") 0%nat).
  - discriminate.
  - reflexivity.
  - reflexivity.
Defined.

(** Two composed resources of one kind: the lookup of either fails. *)
Example earlier_fetch_example :
  (EarlierProcessor.fetchCurrentObject lowerASCII getFails twoUnderComposite
     "parent-xr" (composedAs "a" "slot") 0%nat).1
  = (None, false,
     Some (New "more than one matching resource found for TestResource/a")).
Proof. reflexivity. Qed.

End CoverageExamples.
